(** * HeroForge exporter: a shallow embedding of [src/lib/exporter.ts]

    The geometry pipeline of the exporter (scene query, pose resolver,
    triangle assembler, STL and ZIP encoders) written as Rocq functions,
    and the properties its specification states about it.

    Conventions of the embedding.
    - A JavaScript [number] is an exact rational ([Q]): every finite double
      is a rational, and arithmetic is the exact one that the specification
      speaks of ("real-number" weights); rounding, NaN and infinities are
      not part of the model.  Statements about numbers use [==] ([Qeq]).
      The weight decoder is also given on the real numbers ([R]).
    - A value that may be [undefined] or [null] is an [option].
    - A [Uint8Array] / [ArrayBuffer] is a [list byte]; a [DataView] store is
      written out byte by byte, little-endian, with its wrap-around.
    - A string is a [string]: a sequence of character codes below 256. *)

From Stdlib Require Import Reals Lra.
From Stdlib Require Import ZArith QArith Qround Qabs Qminmax Qpower Lia Lqa.
From Stdlib Require Import List Bool String Ascii Morphisms Setoid.
From Stdlib.Strings Require Import Byte.
Import ListNotations.

Local Open Scope Q_scope.

(** ** Numbers *)

(** [a < b] and [a > b] on numbers, as booleans. *)
Definition Qltb (a b : Q) : bool := negb (Qle_bool b a).

(** Truncation toward zero, the integer part that [%] uses. *)
Definition Qtrunc (q : Q) : Z :=
  if Qle_bool 0 q then Qfloor q else Qceiling q.

(** The remainder operator [n % m] of the language on finite operands with
    [m] non-zero: [n - m * trunc (n / m)], which has the sign of [n]. *)
Definition jsrem (n m : Q) : Q := n - m * inject_Z (Qtrunc (n / m)).

(** ** Skinning and mesh processing *)

(** [decodeWeight]: [abs(mod(weight + 1.0, 2.0) - 1.0)] with the local
    [mod (n, m) = ((n % m) + m) % m]. *)
Definition decodeWeight (encodedWeight : Q) : Q :=
  let mod_ (n m : Q) : Q := jsrem (jsrem n m + m) m in
  Qabs (mod_ (encodedWeight + 1) 2 - 1).

(** The local [mod] of [decodeWeight] at modulus 2. *)
Definition mod2 (n : Q) : Q := jsrem (jsrem n 2 + 2) 2.

(** The same function on the real numbers: [Int_part] is the floor, and
    truncation toward zero is the floor of a non-negative number and the
    ceiling of a negative one. *)
Definition Rtrunc (r : R) : Z :=
  if Rle_dec 0 r then Int_part r else (- Int_part (- r))%Z.

Definition jsremR (n m : R) : R := (n - m * IZR (Rtrunc (n / m)))%R.

Definition decodeWeightR (encodedWeight : R) : R :=
  let mod_ (n m : R) : R := jsremR (jsremR n m + m) m in
  Rabs (mod_ (encodedWeight + 1) 2 - 1)%R.

Definition mod2R (n : R) : R := jsremR (jsremR n 2 + 2) 2.

(** The formula of the specification, written from its words:
    [abs(((raw + 1) mod 2 + 2) mod 2 - 1)]. *)
Definition decodeWeight_spec (raw : Q) : Q :=
  Qabs (jsrem (jsrem (raw + 1) 2 + 2) 2 - 1).

(** ** Exceptions

    Reading a property of [undefined] raises a [TypeError], and a
    [DataView] store outside its buffer raises a [RangeError].  Code that
    can reach either lives in the monad [exn]; a guard of the source is a
    [match] or an [if] that keeps the read from being reached. *)

Inductive JsError : Type := TypeError | RangeError.

Inductive exn (A : Type) : Type :=
| Ok (a : A)
| Throw (e : JsError).
Arguments Ok {A} a.
Arguments Throw {A} e.

Definition bind {A B : Type} (c : exn A) (k : A -> exn B) : exn B :=
  match c with
  | Ok a => k a
  | Throw e => Throw e
  end.

Notation "x <- c ;; k" := (bind c (fun x => k))
  (at level 61, c at next level, right associativity).
Notation "' p <- c ;; k" := (bind c (fun p => k))
  (at level 61, p pattern, c at next level, right associativity).

(** A loop that threads a state through the elements of a list. *)
Fixpoint foldM {A S : Type} (body : S -> A -> exn S) (l : list A) (s : S) : exn S :=
  match l with
  | [] => Ok s
  | a :: l' => s' <- body s a ;; foldM body l' s'
  end.

(** [o.f] where [o] may be [undefined]. *)
Definition prop {A B : Type} (o : option A) (f : A -> B) : exn B :=
  match o with
  | Some a => Ok (f a)
  | None => Throw TypeError
  end.

(** [arr[i]] on an array: [undefined] outside [0 .. length - 1]. *)
Definition js_get {A : Type} (arr : list A) (i : Z) : option A :=
  if (i <? 0)%Z then None else nth_error arr (Z.to_nat i).

(** [arr[i]] on an array whose slots may hold [null] or [undefined]. *)
Definition js_index {A : Type} (arr : list (option A)) (i : Z) : option A :=
  match js_get arr i with
  | Some slot => slot
  | None => None
  end.

(** ** Vectors and matrices *)

(** [Vertex] is [{x, y, z}]; a [Vec3] of the renderer carries the same three
    fields. *)
Record Vertex : Type := mkVertex { x : Q; y : Q; z : Q }.
Definition Vec3 : Type := Vertex.

Record Triangle : Type := mkTriangle { v1 : Vertex; v2 : Vertex; v3 : Vertex }.

(** Equality of vertices as numbers. *)
Definition veq (a b : Vertex) : Prop :=
  a.(x) == b.(x) /\ a.(y) == b.(y) /\ a.(z) == b.(z).

#[export] Instance veq_Equivalence : Equivalence veq.
Proof.
  split.
  - intros a. repeat split; reflexivity.
  - intros a b (H1 & H2 & H3). repeat split; symmetry; assumption.
  - intros a b c (H1 & H2 & H3) (K1 & K2 & K3).
    repeat split; etransitivity; eassumption.
Qed.

(** [Vec3] methods that are plain arithmetic. *)
Definition addScaledVector (this v : Vec3) (s : Q) : Vec3 :=
  mkVertex (this.(x) + v.(x) * s) (this.(y) + v.(y) * s) (this.(z) + v.(z) * s).

Definition divideScalar (this : Vec3) (s : Q) : Vec3 :=
  mkVertex (this.(x) / s) (this.(y) / s) (this.(z) / s).

(** The renderer's math kit [RK]: the part of its [Matrix4] and [Vec3] that
    the exporter calls.  [Matrix4_new] is [new RK.Matrix4 ()], the identity;
    [multiply a b] is [a.multiply (b)], the product [a * b];
    [applyMatrix4 v m] is [v.applyMatrix4 (m)]. *)
Class RenderKit : Type := {
  Matrix4 : Type;
  Matrix4_new : Matrix4;
  elements : Matrix4 -> list Q;
  multiply : Matrix4 -> Matrix4 -> Matrix4;
  applyMatrix4 : Vec3 -> Matrix4 -> Vec3;
  applyMatrix4_veq : forall (m : Matrix4) (a b : Vec3),
    veq a b -> veq (applyMatrix4 a m) (applyMatrix4 b m)
}.

(** A kit after three.js, which [RK] follows: a matrix is its 16 elements
    in column-major order. *)
Module Three.

Definition el (m : list Q) (i : nat) : Q := nth i m 0.

Definition identity : list Q :=
  [1; 0; 0; 0;  0; 1; 0; 0;  0; 0; 1; 0;  0; 0; 0; 1].

(** Entry of row [r], column [c] of the product [a * b]. *)
Definition entry (a b : list Q) (r c : nat) : Q :=
  el a r * el b (4 * c) + el a (4 + r) * el b (4 * c + 1)
  + el a (8 + r) * el b (4 * c + 2) + el a (12 + r) * el b (4 * c + 3).

Definition multiplyMatrices (a b : list Q) : list Q :=
  flat_map (fun c => map (fun r => entry a b r c) [0; 1; 2; 3]%nat)
           [0; 1; 2; 3]%nat.

(** [Vector3.applyMatrix4], with its perspective divide. *)
Definition applyMatrix4 (v : Vec3) (m : list Q) : Vec3 :=
  let w := 1 / (el m 3 * v.(x) + el m 7 * v.(y) + el m 11 * v.(z) + el m 15) in
  mkVertex
    ((el m 0 * v.(x) + el m 4 * v.(y) + el m 8 * v.(z) + el m 12) * w)
    ((el m 1 * v.(x) + el m 5 * v.(y) + el m 9 * v.(z) + el m 13) * w)
    ((el m 2 * v.(x) + el m 6 * v.(y) + el m 10 * v.(z) + el m 14) * w).

Lemma apply_respects_veq (m : list Q) (a b : Vec3) :
  veq a b -> veq (applyMatrix4 a m) (applyMatrix4 b m).
Proof.
  intros (Hx & Hy & Hz). unfold applyMatrix4, veq; cbn [x y z].
  rewrite Hx, Hy, Hz. repeat split; reflexivity.
Qed.

#[export] Instance Kit : RenderKit := {
  Matrix4 := list Q;
  Matrix4_new := identity;
  elements := fun m => m;
  multiply := multiplyMatrices;
  applyMatrix4 := applyMatrix4;
  applyMatrix4_veq := apply_respects_veq
}.

End Three.


(** ** Integers of 32 bits and bytes *)

Definition toUint32 (n : Z) : Z := (n mod 2 ^ 32)%Z.

Definition toInt32 (n : Z) : Z :=
  let u := toUint32 n in
  if (u <? 2 ^ 31)%Z then u else (u - 2 ^ 32)%Z.

(** [a ^ b], [a & b] and [a >>> n] of the language. *)
Definition js_xor (a b : Z) : Z := toInt32 (Z.lxor a b).
Definition js_and (a b : Z) : Z := toInt32 (Z.land a b).
Definition js_ushr (a n : Z) : Z := Z.shiftr (toUint32 a) n.

(** The byte that a typed-array store keeps of an integer: its residue
    modulo 256. *)
Definition byte_of_Z (v : Z) : byte :=
  match Byte.of_N (Z.to_N (v mod 256)) with
  | Some b => b
  | None => x00
  end.

Definition Z_of_byte (b : byte) : Z := Z.of_N (Byte.to_N b).

(** ** Buffers and views *)

Abbreviation Buffer := (list byte).

(** [new ArrayBuffer (n)]: [n] zero bytes. *)
Definition ArrayBuffer (n : nat) : Buffer := repeat x00 n.

(** [typedArray.set (source, offset)]; outside the buffer it raises a
    [RangeError], and so do the stores of a view. *)
Definition set_bytes (buffer : Buffer) (offset : nat) (source : list byte) : exn Buffer :=
  if (offset + List.length source <=? List.length buffer)%nat
  then Ok (firstn offset buffer ++ source
             ++ skipn (offset + List.length source) buffer)
  else Throw RangeError.

(** [DataView] stores; the multi-byte ones are the little-endian stores
    ([littleEndian = true]) that the exporter always asks for. *)
Definition setUint8 (buffer : Buffer) (offset : nat) (v : Z) : exn Buffer :=
  set_bytes buffer offset [byte_of_Z v].

Definition le16 (v : Z) : list byte := [byte_of_Z v; byte_of_Z (v / 2 ^ 8)].

Definition le32 (v : Z) : list byte :=
  [byte_of_Z v; byte_of_Z (v / 2 ^ 8); byte_of_Z (v / 2 ^ 16); byte_of_Z (v / 2 ^ 24)].

Definition setUint16 (buffer : Buffer) (offset : nat) (v : Z) : exn Buffer :=
  set_bytes buffer offset (le16 v).

Definition setUint32 (buffer : Buffer) (offset : nat) (v : Z) : exn Buffer :=
  set_bytes buffer offset (le32 v).

(** [DataView] little-endian loads: [None] outside the buffer. *)
Definition getUint8 (buffer : Buffer) (offset : nat) : option Z :=
  option_map Z_of_byte (nth_error buffer offset).

Definition getUint16 (buffer : Buffer) (offset : nat) : option Z :=
  match getUint8 buffer offset, getUint8 buffer (offset + 1) with
  | Some b0, Some b1 => Some (b0 + 2 ^ 8 * b1)%Z
  | _, _ => None
  end.

Definition getUint32 (buffer : Buffer) (offset : nat) : option Z :=
  match getUint16 buffer offset, getUint16 buffer (offset + 2) with
  | Some lo, Some hi => Some (lo + 2 ^ 16 * hi)%Z
  | _, _ => None
  end.

(** [buffer.slice (offset, offset + n)] when the range lies in the buffer. *)
Definition slice (buffer : Buffer) (offset n : nat) : option (list byte) :=
  if (offset + n <=? List.length buffer)%nat
  then Some (firstn n (skipn offset buffer))
  else None.

(** ** The platform

    [Math.sqrt] and the binary32 encoding of [DataView.setFloat32]:
    [float32_bits q] is the bit pattern of the binary32 value nearest
    to [q]. *)
Class Platform : Type := {
  Math_sqrt : Q -> Q;
  Math_sqrt_pos : forall q : Q, 0 < Math_sqrt q <-> 0 < q;
  float32_bits : Q -> Z;
  float32_bits_range : forall q : Q, (0 <= float32_bits q < 2 ^ 32)%Z
}.

Definition setFloat32 {PF : Platform} (buffer : Buffer) (offset : nat) (q : Q)
    : exn Buffer :=
  setUint32 buffer offset (float32_bits q).

(** A platform on rationals: IEEE 754 binary32 rounding (to nearest, ties
    to even), and a square root that is exact on squares of rationals and a
    lower approximation elsewhere. *)
Module Ieee.

(** [floor (log2 a)] for [a > 0]. *)
Definition ilog2 (a : Q) : Z :=
  let e := (Z.log2 (Qnum a) - Z.log2 (Zpos (Qden a)))%Z in
  if Qltb a (2 ^ e) then (e - 1)%Z else e.

Definition round_half_even (r : Q) : Z :=
  let f := Qfloor r in
  match Qcompare (r - inject_Z f) (1 # 2) with
  | Lt => f
  | Gt => (f + 1)%Z
  | Eq => if Z.even f then f else (f + 1)%Z
  end.

(** Sign bit, then biased exponent and fraction: the significand [m] is
    [a] in units of the last place at exponent [e]; a carry into the next
    binade and the subnormal range come out of the sum, and everything from
    the infinity pattern up is infinity. *)
Definition binary32 (q : Q) : Z :=
  let s := if Qltb q 0 then (2 ^ 31)%Z else 0%Z in
  let a := Qabs q in
  if Qeq_bool a 0 then 0%Z
  else
    let e := Z.max (ilog2 a) (-126) in
    let m := round_half_even (a / 2 ^ (e - 23)) in
    (s + Z.min 0x7F800000 ((e + 126) * 2 ^ 23 + m))%Z.

Definition sqrt (q : Q) : Q :=
  Z.sqrt (Qnum q * Zpos (Qden q)) # Qden q.

Lemma sqrt_pos (q : Q) : 0 < sqrt q <-> 0 < q.
Proof.
  unfold sqrt, Qlt; cbn [Qnum Qden]. rewrite !Z.mul_1_r.
  rewrite Z.sqrt_pos. split; intro H.
  - destruct (Qnum q); lia.
  - apply Z.mul_pos_pos; lia.
Qed.

Lemma round_half_even_nonneg (r : Q) : 0 <= r -> (0 <= round_half_even r)%Z.
Proof.
  intro Hr. unfold round_half_even.
  pose proof (Qfloor_resp_le 0 r Hr) as Hf. change (Qfloor 0) with 0%Z in Hf.
  destruct (Qcompare _ _); [destruct (Z.even _)| |]; lia.
Qed.

Lemma binary32_range (q : Q) : (0 <= binary32 q < 2 ^ 32)%Z.
Proof.
  unfold binary32.
  destruct (Qeq_bool (Qabs q) 0); [lia|].
  set (e := Z.max (ilog2 (Qabs q)) (-126)).
  set (m := round_half_even _).
  assert (Hm : (0 <= m)%Z).
  { apply round_half_even_nonneg. unfold Qdiv.
    apply Qmult_le_0_compat; [apply Qabs_nonneg|].
    apply Qinv_le_0_compat, Qpower_0_le. discriminate. }
  assert (0 <= (e + 126) * 2 ^ 23 + m)%Z by (subst e; nia).
  destruct (Qltb q 0); lia.
Qed.

#[export] Instance Host : Platform := {
  Math_sqrt := sqrt;
  Math_sqrt_pos := sqrt_pos;
  float32_bits := binary32;
  float32_bits_range := binary32_range
}.

End Ieee.

(** ** SimpleZip: a minimal ZIP writer (STORE method) *)

Record ZipFile : Type := mkZipFile {
  zip_name : string;
  zip_data : list byte
}.

(** [new TextEncoder ().encode (name)]: UTF-8, one byte for a character
    code below 128 and two bytes for the codes from 128 to 255. *)
Definition utf8 (c : ascii) : list byte :=
  let n := Z.of_N (N_of_ascii c) in
  if (n <? 128)%Z then [byte_of_Z n]
  else [byte_of_Z (0xC0 + n / 64); byte_of_Z (0x80 + n mod 64)].

Definition encode (s : string) : list byte :=
  flat_map utf8 (list_ascii_of_string s).

(** [new TextDecoder ().decode (bytes)] on the one-byte and two-byte forms
    of the character codes below 256; [None] on any other input. *)
Fixpoint decode (bytes : list byte) : option string :=
  match bytes with
  | [] => Some EmptyString
  | b :: rest =>
      let n := Z_of_byte b in
      if (n <? 128)%Z
      then option_map (String (ascii_of_N (Z.to_N n))) (decode rest)
      else
        match rest with
        | b' :: rest' =>
            let m := Z_of_byte b' in
            if ((0xC2 <=? n) && (n <=? 0xC3) && (0x80 <=? m) && (m <? 0xC0))%Z
            then option_map
                   (String (ascii_of_N (Z.to_N ((n - 0xC0) * 64 + (m - 0x80)))))
                   (decode rest')
            else None
        | [] => None
        end
  end.

(** [_makeCRCTable]: the inner loop on [c], then the table of 256 entries of
    a [Uint32Array]. *)
Definition crcTableEntry (i : Z) : Z :=
  toUint32
    (fold_left
       (fun c _ =>
          if (js_and c 1 =? 0)%Z then js_ushr c 1
          else js_xor 0xedb88320 (js_ushr c 1))
       (seq 0 8) i).

Definition _makeCRCTable : list Z :=
  map (fun i => crcTableEntry (Z.of_nat i)) (seq 0 256).

(** [_crc32]. *)
Definition _crc32 (data : list byte) : Z :=
  let table := _makeCRCTable in
  let crc :=
    fold_left
      (fun crc b =>
         js_xor (js_ushr crc 8)
                (nth (Z.to_nat (js_and (js_xor crc (Z_of_byte b)) 0xff)) table 0%Z))
      data 0xffffffff%Z in
  js_ushr (js_xor crc 0xffffffff) 0.

(** A chain of stores into one buffer. *)
Fixpoint stores (ws : list (Buffer -> exn Buffer)) (buffer : Buffer) : exn Buffer :=
  match ws with
  | [] => Ok buffer
  | w :: ws' => buffer' <- w buffer ;; stores ws' buffer'
  end.

Definition _createLocalHeader (nameBytes data : list byte) : exn Buffer :=
  let header := ArrayBuffer (30 + List.length nameBytes) in
  let len (l : list byte) : Z := Z.of_nat (List.length l) in
  stores
    [ (fun view => setUint32 view 0 0x04034b50);
      (fun view => setUint16 view 4 20);
      (fun view => setUint16 view 6 0);
      (fun view => setUint16 view 8 0);
      (fun view => setUint16 view 10 0);
      (fun view => setUint16 view 12 0);
      (fun view => setUint32 view 14 (_crc32 data));
      (fun view => setUint32 view 18 (len data));
      (fun view => setUint32 view 22 (len data));
      (fun view => setUint16 view 26 (len nameBytes));
      (fun view => setUint16 view 28 0);
      (fun bytes => set_bytes bytes 30 nameBytes) ]
    header.

Definition _createCentralHeader (nameBytes data : list byte) (localOffset : nat)
    : exn Buffer :=
  let header := ArrayBuffer (46 + List.length nameBytes) in
  let len (l : list byte) : Z := Z.of_nat (List.length l) in
  stores
    [ (fun view => setUint32 view 0 0x02014b50);
      (fun view => setUint16 view 4 20);
      (fun view => setUint16 view 6 20);
      (fun view => setUint16 view 8 0);
      (fun view => setUint16 view 10 0);
      (fun view => setUint16 view 12 0);
      (fun view => setUint16 view 14 0);
      (fun view => setUint32 view 16 (_crc32 data));
      (fun view => setUint32 view 20 (len data));
      (fun view => setUint32 view 24 (len data));
      (fun view => setUint16 view 28 (len nameBytes));
      (fun view => setUint16 view 30 0);
      (fun view => setUint16 view 32 0);
      (fun view => setUint16 view 34 0);
      (fun view => setUint16 view 36 0);
      (fun view => setUint32 view 38 0);
      (fun view => setUint32 view 42 (Z.of_nat localOffset));
      (fun bytes => set_bytes bytes 46 nameBytes) ]
    header.

Definition _createEOCD (numFiles centralSize centralOffset : nat) : exn Buffer :=
  let eocd := ArrayBuffer 22 in
  stores
    [ (fun view => setUint32 view 0 0x06054b50);
      (fun view => setUint16 view 4 0);
      (fun view => setUint16 view 6 0);
      (fun view => setUint16 view 8 (Z.of_nat numFiles));
      (fun view => setUint16 view 10 (Z.of_nat numFiles));
      (fun view => setUint32 view 12 (Z.of_nat centralSize));
      (fun view => setUint32 view 16 (Z.of_nat centralOffset));
      (fun view => setUint16 view 20 0) ]
    eocd.

Record LocalHeader : Type := mkLocalHeader {
  lh_header : Buffer;
  lh_data : list byte;
  lh_offset : nat
}.

(** [addFile]: the files of the archive, in the order of the calls. *)
Definition addFile (files : list ZipFile) (name : string) (data : Buffer)
    : list ZipFile :=
  files ++ [mkZipFile name data].

(** [generate]. *)
Definition generate (files : list ZipFile) : exn Buffer :=
  (* local file headers and file data *)
  '(localHeaders, offset) <-
    foldM (fun '(localHeaders, offset) file =>
             let nameBytes := encode file.(zip_name) in
             localHeader <- _createLocalHeader nameBytes file.(zip_data) ;;
             Ok (localHeaders ++ [mkLocalHeader localHeader file.(zip_data) offset],
                 (offset + List.length localHeader + List.length file.(zip_data))%nat))
          files ([], 0%nat) ;;
  (* central directory *)
  let centralStart := offset in
  '(centralHeaders, offset) <-
    foldM (fun '(centralHeaders, offset) i =>
             file <- prop (nth_error files i) (fun f => f) ;;
             let nameBytes := encode file.(zip_name) in
             localOffset <- prop (nth_error localHeaders i) lh_offset ;;
             centralHeader <- _createCentralHeader nameBytes file.(zip_data) localOffset ;;
             Ok (centralHeaders ++ [centralHeader],
                 (offset + List.length centralHeader)%nat))
          (seq 0 (List.length files)) ([], offset) ;;
  let centralEnd := offset in
  (* end of central directory *)
  eocd <- _createEOCD (List.length files) (centralEnd - centralStart) centralStart ;;
  let offset := (offset + List.length eocd)%nat in
  (* combine all parts *)
  let result := ArrayBuffer offset in
  '(result, pos) <-
    foldM (fun '(result, pos) local =>
             result <- set_bytes result pos local.(lh_header) ;;
             let pos := (pos + List.length local.(lh_header))%nat in
             result <- set_bytes result pos local.(lh_data) ;;
             Ok (result, (pos + List.length local.(lh_data))%nat))
          localHeaders (result, 0%nat) ;;
  '(result, pos) <-
    foldM (fun '(result, pos) central =>
             result <- set_bytes result pos central ;;
             Ok (result, (pos + List.length central)%nat))
          centralHeaders (result, pos) ;;
  set_bytes result pos eocd.

(** *** The layout of an archive, from the words of the specification

    A local record per entry (a header of 30 bytes, the name, then the raw
    bytes), a central directory with a record of 46 bytes and the name per
    entry, and an end-of-directory record of 22 bytes. *)
Definition localHeaderBytes (nameBytes data : list byte) : list byte :=
  le32 0x04034b50 ++ le16 20 ++ le16 0 ++ le16 0 ++ le16 0 ++ le16 0
  ++ le32 (_crc32 data)
  ++ le32 (Z.of_nat (List.length data)) ++ le32 (Z.of_nat (List.length data))
  ++ le16 (Z.of_nat (List.length nameBytes)) ++ le16 0
  ++ nameBytes.

Definition centralHeaderBytes (nameBytes data : list byte) (localOffset : nat)
    : list byte :=
  le32 0x02014b50 ++ le16 20 ++ le16 20 ++ le16 0 ++ le16 0 ++ le16 0 ++ le16 0
  ++ le32 (_crc32 data)
  ++ le32 (Z.of_nat (List.length data)) ++ le32 (Z.of_nat (List.length data))
  ++ le16 (Z.of_nat (List.length nameBytes))
  ++ le16 0 ++ le16 0 ++ le16 0 ++ le16 0 ++ le32 0
  ++ le32 (Z.of_nat localOffset)
  ++ nameBytes.

Definition eocdBytes (numFiles centralSize centralOffset : nat) : list byte :=
  le32 0x06054b50 ++ le16 0 ++ le16 0
  ++ le16 (Z.of_nat numFiles) ++ le16 (Z.of_nat numFiles)
  ++ le32 (Z.of_nat centralSize) ++ le32 (Z.of_nat centralOffset)
  ++ le16 0.

Definition localEntry (file : ZipFile) : list byte :=
  localHeaderBytes (encode file.(zip_name)) file.(zip_data) ++ file.(zip_data).

(** The offset of every local record, the first one at [start]. *)
Fixpoint localOffsets (files : list ZipFile) (start : nat) : list nat :=
  match files with
  | [] => []
  | file :: files' =>
      start :: localOffsets files' (start + List.length (localEntry file))
  end.

Definition centralEntry (entry : ZipFile * nat) : list byte :=
  let '(file, localOffset) := entry in
  centralHeaderBytes (encode file.(zip_name)) file.(zip_data) localOffset.

Definition centralDirectory (files : list ZipFile) : list byte :=
  flat_map centralEntry (combine files (localOffsets files 0)).

Definition archiveBytes (files : list ZipFile) : list byte :=
  let locals := flat_map localEntry files in
  let central := centralDirectory files in
  locals ++ central
  ++ eocdBytes (List.length files) (List.length central) (List.length locals).

(** *** Reading an archive back *)

Record ZipEntry : Type := mkZipEntry {
  entry_name : list byte;
  entry_data : list byte;
  entry_crc_local : Z;
  entry_crc_central : Z;
  entry_offset : nat
}.

Definition guard (b : bool) : option unit := if b then Some tt else None.

Notation "x <-? c ;; k" :=
  (match c with Some x => k | None => None end)
  (at level 61, c at next level, right associativity).
Notation "' p <-? c ;; k" :=
  (match c with Some p => k | None => None end)
  (at level 61, p pattern, c at next level, right associativity).

(** The local record at [offset]: its checksum, name and bytes. *)
Definition readLocal (buffer : Buffer) (offset : nat)
    : option (Z * list byte * list byte) :=
  signature <-? getUint32 buffer offset ;;
  _ <-? guard (signature =? 0x04034b50)%Z ;;
  crc <-? getUint32 buffer (offset + 14) ;;
  size <-? getUint32 buffer (offset + 18) ;;
  nameLength <-? getUint16 buffer (offset + 26) ;;
  extraLength <-? getUint16 buffer (offset + 28) ;;
  name <-? slice buffer (offset + 30) (Z.to_nat nameLength) ;;
  data <-? slice buffer (offset + 30 + Z.to_nat nameLength + Z.to_nat extraLength)
                 (Z.to_nat size) ;;
  Some (crc, name, data).

(** The central record at [pos]: its checksum, the offset of the local
    record, its name, and the position of the next record. *)
Definition readCentral (buffer : Buffer) (pos : nat)
    : option (Z * nat * list byte * nat) :=
  signature <-? getUint32 buffer pos ;;
  _ <-? guard (signature =? 0x02014b50)%Z ;;
  crc <-? getUint32 buffer (pos + 16) ;;
  nameLength <-? getUint16 buffer (pos + 28) ;;
  extraLength <-? getUint16 buffer (pos + 30) ;;
  commentLength <-? getUint16 buffer (pos + 32) ;;
  localOffset <-? getUint32 buffer (pos + 42) ;;
  name <-? slice buffer (pos + 46) (Z.to_nat nameLength) ;;
  Some (crc, Z.to_nat localOffset, name,
        (pos + 46 + Z.to_nat nameLength + Z.to_nat extraLength
         + Z.to_nat commentLength)%nat).

(** [n] records of the central directory from [pos] on, each with the local
    record it points to; the names of the two records must agree. *)
Fixpoint readDirectory (buffer : Buffer) (pos n : nat) : option (list ZipEntry) :=
  match n with
  | O => Some []
  | S n' =>
      '(crcCentral, localOffset, name, next) <-? readCentral buffer pos ;;
      '(crcLocal, localName, data) <-? readLocal buffer localOffset ;;
      _ <-? guard (if list_eq_dec Byte.byte_eq_dec name localName then true else false) ;;
      rest <-? readDirectory buffer next n' ;;
      Some (mkZipEntry name data crcLocal crcCentral localOffset :: rest)
  end.

(** The archive is read from its last 22 bytes, the end-of-directory
    record (the writer stores no comment). *)
Definition unzip (buffer : Buffer) : option (list ZipEntry) :=
  let eocd := (List.length buffer - 22)%nat in
  _ <-? guard (22 <=? List.length buffer)%nat ;;
  signature <-? getUint32 buffer eocd ;;
  _ <-? guard (signature =? 0x06054b50)%Z ;;
  numFiles <-? getUint16 buffer (eocd + 10) ;;
  centralOffset <-? getUint32 buffer (eocd + 16) ;;
  readDirectory buffer (Z.to_nat centralOffset) (Z.to_nat numFiles).

(** What reading should give for a list of files. *)
Definition entriesOf (files : list ZipFile) : list ZipEntry :=
  map (fun '(file, localOffset) =>
         mkZipEntry (encode file.(zip_name)) file.(zip_data)
                    (_crc32 file.(zip_data)) (_crc32 file.(zip_data)) localOffset)
      (combine files (localOffsets files 0)).

(** *** CRC-32, bit by bit

    The checksum with the reflected polynomial [0xEDB88320], initial value
    [0xFFFFFFFF] and final complement, on unsigned 32-bit values. *)
Definition crcShift (c : Z) : Z :=
  if Z.odd c then Z.lxor (Z.shiftr c 1) 0xEDB88320 else Z.shiftr c 1.

Definition crcByte (c : Z) (b : byte) : Z :=
  Nat.iter 8 crcShift (Z.lxor c (Z_of_byte b)).

Definition crc32_bitwise (data : list byte) : Z :=
  Z.lxor (fold_left crcByte data 0xFFFFFFFF%Z) 0xFFFFFFFF.

(** ** The scene: bones, skeletons, geometries and meshes *)

Section Scene.

Context {RK : RenderKit}.

(** A bone: its world matrix, and the result of its optional
    [getMatrixWorld ()] method ([None] when the bone has no such method). *)
Record Bone : Type := mkBone {
  bone_matrixWorld : option Matrix4;
  bone_getMatrixWorld : option Matrix4
}.

Record Skeleton : Type := mkSkeleton {
  bones : option (list (option Bone));
  boneInverses : option (list (option Matrix4))
}.

(** A buffer attribute through its accessors. *)
Record BufferAttribute : Type := mkBufferAttribute {
  count : nat;
  getX : nat -> Q;
  getY : nat -> Q;
  getZ : nat -> Q;
  getW : nat -> Q
}.

Record Attributes : Type := mkAttributes {
  position : option BufferAttribute;
  skin0 : option BufferAttribute;
  skin1 : option BufferAttribute;
  skin2 : option BufferAttribute;
  skin3 : option BufferAttribute
}.

Record BufferGeometry : Type := mkBufferGeometry {
  geometry_type : string;
  attributes : Attributes;
  index : option (list Z);
  morphAttributes_position : option (list BufferAttribute)
}.

#[local] Unset Elimination Schemes.
Inductive Mesh : Type := mkMesh {
  isMesh : bool;
  isSkinnedMesh : bool;
  visible : bool;
  name : string;
  geometry : option BufferGeometry;
  skeleton : option Skeleton;
  matrixWorld : Matrix4;
  bindMatrix : option Matrix4;
  bindMatrixInverse : option Matrix4;
  morphTargetInfluences : option (list Q);
  children : list Mesh
}.
#[local] Set Elimination Schemes.

(** [geometry.attributes[`skin${i}`]]. *)
Definition skinAttribute (a : Attributes) (i : nat) : option BufferAttribute :=
  match i with
  | 0%nat => a.(skin0)
  | 1%nat => a.(skin1)
  | 2%nat => a.(skin2)
  | 3%nat => a.(skin3)
  | _ => None
  end.

(** [getBoneMatrix]: the skin matrix [bone.matrixWorld * boneInverse]. *)
Definition getBoneMatrix (skeleton : Skeleton) (boneIndex : Z) : exn Matrix4 :=
  let tempMatrix := Matrix4_new in
  let maxBoneIndex :=
    match skeleton.(bones) with
    | Some bs => (Z.of_nat (List.length bs) - 1)%Z
    | None => (-1)%Z
    end in
  if ((boneIndex <? 0) || (boneIndex >? maxBoneIndex))%Z then Ok tempMatrix
  else
    bone <- prop skeleton.(bones) (fun bs => js_index bs boneIndex) ;;
    let boneInverse :=
      match skeleton.(boneInverses) with
      | Some invs => js_index invs boneIndex
      | None => None
      end in
    match bone, boneInverse with
    | Some bone, Some boneInverse =>
        let boneWorld :=
          match bone.(bone_matrixWorld) with
          | Some w => Some w
          | None => bone.(bone_getMatrixWorld)
          end in
        match boneWorld with
        | Some boneWorld => Ok (multiply boneWorld boneInverse)
        | None => Ok tempMatrix
        end
    | _, _ => Ok tempMatrix
    end.

(** What a skeleton holds at an index: its number of bones, the bone and
    the bind-pose inverse at the index (if any), and the world matrix of a
    bone. *)
Definition boneCount (skeleton : Skeleton) : Z :=
  match skeleton.(bones) with
  | Some bs => Z.of_nat (List.length bs)
  | None => 0%Z
  end.

Definition boneAt (skeleton : Skeleton) (i : Z) : option Bone :=
  match skeleton.(bones) with
  | Some bs => js_index bs i
  | None => None
  end.

Definition boneInverseAt (skeleton : Skeleton) (i : Z) : option Matrix4 :=
  match skeleton.(boneInverses) with
  | Some invs => js_index invs i
  | None => None
  end.

Definition boneWorldOf (bone : Bone) : option Matrix4 :=
  match bone.(bone_matrixWorld) with
  | Some w => Some w
  | None => bone.(bone_getMatrixWorld)
  end.

(** [Math.abs (e) < epsilon] on an element that may be missing: a missing
    element compares false. *)
Definition abs_lt (e : option Q) (epsilon : Q) : bool :=
  match e with
  | Some q => Qltb (Qabs q) epsilon
  | None => false
  end.

Definition minus1 (e : option Q) : option Q := option_map (fun q => q - 1) e.

(** [isIdentityMatrix]: identity, or close to it. *)
Definition isIdentityMatrix (matrix : option Matrix4) : bool :=
  match matrix with
  | None => true
  | Some matrix =>
      let e := nth_error (elements matrix) in
      let epsilon := 1 # 10000 in
      abs_lt (minus1 (e 0%nat)) epsilon &&
      abs_lt (e 1%nat) epsilon &&
      abs_lt (e 2%nat) epsilon &&
      abs_lt (e 3%nat) epsilon &&
      abs_lt (e 4%nat) epsilon &&
      abs_lt (minus1 (e 5%nat)) epsilon &&
      abs_lt (e 6%nat) epsilon &&
      abs_lt (e 7%nat) epsilon &&
      abs_lt (e 8%nat) epsilon &&
      abs_lt (e 9%nat) epsilon &&
      abs_lt (minus1 (e 10%nat)) epsilon &&
      abs_lt (e 11%nat) epsilon &&
      abs_lt (e 12%nat) epsilon &&
      abs_lt (e 13%nat) epsilon &&
      abs_lt (e 14%nat) epsilon &&
      abs_lt (minus1 (e 15%nat)) epsilon
  end.

(** One [if (weight > 0.0001) { ... }] block of the skinning loop: the
    state is [(skinned, skinSum)]. *)
Definition accumulate (skeleton : Skeleton) (skinVert : Vec3)
    (boneIdx : Z) (weight : Q) (st : Vec3 * Q) : exn (Vec3 * Q) :=
  let '(skinned, skinSum) := st in
  if Qltb (1 # 10000) weight then
    boneMatrix <- getBoneMatrix skeleton boneIdx ;;
    let transformed := applyMatrix4 skinVert boneMatrix in
    Ok (addScaledVector skinned transformed weight, skinSum + weight)
  else Ok (skinned, skinSum).

(** [skinVertexWithPosition]: skinning of a vertex at a given position. *)
Definition skinVertexWithPosition (mesh : Mesh) (vertexIndex : nat)
    (px py pz : Q) : exn Vec3 :=
  geometry <- prop mesh.(geometry) (fun g => g) ;;
  let skeleton := mesh.(skeleton) in
  let position := mkVertex px py pz in
  let skinAttrs :=
    flat_map (fun i => match skinAttribute geometry.(attributes) i with
                       | Some attr => [attr]
                       | None => []
                       end) [0; 1; 2; 3]%nat in
  match skinAttrs, skeleton with
  | [], _ | _, None => Ok (applyMatrix4 position mesh.(matrixWorld))
  | _ :: _, Some skeleton =>
      let bindIsIdentity := isIdentityMatrix mesh.(bindMatrix) in
      let skinVert :=
        match mesh.(bindMatrix) with
        | Some bindMatrix =>
            if negb bindIsIdentity then applyMatrix4 position bindMatrix
            else position
        | None => position
        end in
      '(skinned, skinSum) <-
        foldM (fun st skinAttr =>
                 let boneIdx0 := Qfloor (skinAttr.(getX) vertexIndex) in
                 let weight0 := decodeWeight (skinAttr.(getY) vertexIndex) in
                 let boneIdx1 := Qfloor (skinAttr.(getZ) vertexIndex) in
                 let weight1 := decodeWeight (skinAttr.(getW) vertexIndex) in
                 st <- accumulate skeleton skinVert boneIdx0 weight0 st ;;
                 accumulate skeleton skinVert boneIdx1 weight1 st)
              skinAttrs (mkVertex 0 0 0, 0) ;;
      let skinned :=
        if Qltb (1 # 10000) skinSum then divideScalar skinned skinSum
        else skinVert in
      match mesh.(bindMatrixInverse) with
      | Some bindMatrixInverse =>
          if negb bindIsIdentity then Ok (applyMatrix4 skinned bindMatrixInverse)
          else Ok skinned
      | None => Ok skinned
      end
  end.

(** The skin attributes of a geometry that are present, and the decoded
    (bone index, weight) pairs of a vertex, in the order in which
    [skinVertexWithPosition] visits them. *)
Definition skinAttributes (geometry : BufferGeometry) : list BufferAttribute :=
  flat_map (fun i => match skinAttribute geometry.(attributes) i with
                     | Some attr => [attr]
                     | None => []
                     end) [0; 1; 2; 3]%nat.

Definition influences (geometry : BufferGeometry) (vertexIndex : nat) : list (Z * Q) :=
  flat_map
    (fun skinAttr =>
       [ (Qfloor (skinAttr.(getX) vertexIndex), decodeWeight (skinAttr.(getY) vertexIndex));
         (Qfloor (skinAttr.(getZ) vertexIndex), decodeWeight (skinAttr.(getW) vertexIndex)) ])
    (skinAttributes geometry).

(** The move of a position into bind space, and back, as
    [skinVertexWithPosition] does them: only when the bind matrix is not
    the identity. *)
Definition toBindSpace (mesh : Mesh) (p : Vec3) : Vec3 :=
  match mesh.(bindMatrix) with
  | Some m => if isIdentityMatrix mesh.(bindMatrix) then p else applyMatrix4 p m
  | None => p
  end.

Definition fromBindSpace (mesh : Mesh) (p : Vec3) : Vec3 :=
  match mesh.(bindMatrixInverse) with
  | Some m => if isIdentityMatrix mesh.(bindMatrix) then p else applyMatrix4 p m
  | None => p
  end.

(** ** Scene query *)

(** [String.prototype.toLowerCase] on character codes below 256: the
    letters A to Z, and the capital letters of the Latin-1 range (192 to
    222 without the multiplication sign 215). *)
Definition lowerChar (c : ascii) : ascii :=
  let n := nat_of_ascii c in
  if ((65 <=? n) && (n <=? 90))%nat then ascii_of_nat (n + 32)
  else if ((192 <=? n) && (n <=? 222) && negb (n =? 215))%nat
       then ascii_of_nat (n + 32)
       else c.

Fixpoint toLowerCase (s : string) : string :=
  match s with
  | EmptyString => EmptyString
  | String c s' => String (lowerChar c) (toLowerCase s')
  end.

(** [s.startsWith (p)]. *)
Fixpoint startsWith (s p : string) {struct p} : bool :=
  match p with
  | EmptyString => true
  | String c p' =>
      match s with
      | EmptyString => false
      | String d s' => Ascii.eqb c d && startsWith s' p'
      end
  end.

(** [s.includes (sub)]. *)
Fixpoint includes (s sub : string) : bool :=
  startsWith s sub ||
  match s with
  | EmptyString => false
  | String _ s' => includes s' sub
  end.

(** [s || ''] on a string that may be [undefined]. *)
Definition orEmpty (s : option string) : string :=
  match s with
  | Some s => s
  | None => EmptyString
  end.

(** [isBaseMesh]: does a slot or mesh name point at the base or pedestal? *)
Definition isBaseMesh (slotName meshName : option string) : bool :=
  let lowerSlot := toLowerCase (orEmpty slotName) in
  let lowerName := toLowerCase (orEmpty meshName) in
  startsWith lowerSlot "base" ||
  startsWith lowerName "base" ||
  includes lowerSlot "pedestal" ||
  includes lowerName "pedestal".

(** [shouldIncludeMesh]: is the mesh part of the export? *)
Definition shouldIncludeMesh (mesh : Mesh) (slotName : option string) : bool :=
  match mesh.(geometry) with
  | None => false
  | Some geometry =>
      if negb mesh.(visible) then false
      else if match slotName with
              | Some s => startsWith s "_"
              | None => false
              end then false
      else if String.eqb mesh.(name) "facePads" || String.eqb mesh.(name) "_debugPass"
      then false
      else
        match geometry.(attributes).(position) with
        | None => false
        | Some posAttr =>
            if (posAttr.(count) <? 3)%nat then false
            else if String.eqb geometry.(geometry_type) "PlaneBufferGeometry"
                    || String.eqb geometry.(geometry_type) "PlaneGeometry"
            then false
            else
              let lowerName := toLowerCase mesh.(name) in
              if includes lowerName "ground" ||
                 includes lowerName "floor" ||
                 includes lowerName "plane" ||
                 includes lowerName "shadow" ||
                 includes lowerName "reflector"
              then false
              else
                let lowerSlot := toLowerCase (orEmpty slotName) in
                if includes lowerSlot "ground" ||
                   includes lowerSlot "floor" ||
                   includes lowerSlot "plane" ||
                   includes lowerSlot "shadow" ||
                   includes lowerSlot "reflector"
                then false
                else true
        end
  end.

Record CollectedMeshes : Type := mkCollectedMeshes {
  characterMeshes : list Mesh;
  baseMeshes : list Mesh
}.

(** [CK.activeDisplay]: its [meshes] record, as the list of its entries in
    the order [Object.entries] yields them. *)
Record Display : Type := mkDisplay {
  meshes : option (list (string * option Mesh))
}.

Record CKType : Type := mkCK {
  activeDisplay : option Display
}.

(** The inner function [collectRecursive]; the two arrays it pushes to are
    the state. *)
Fixpoint collectRecursive (object : Mesh) (slotName : option string)
    (acc : CollectedMeshes) : CollectedMeshes :=
  let acc :=
    if (object.(isMesh) || object.(isSkinnedMesh)) && shouldIncludeMesh object slotName
    then
      if isBaseMesh slotName (Some object.(name))
      then mkCollectedMeshes acc.(characterMeshes) (acc.(baseMeshes) ++ [object])
      else mkCollectedMeshes (acc.(characterMeshes) ++ [object]) acc.(baseMeshes)
    else acc in
  fold_left
    (fun acc child =>
       if negb (String.eqb child.(name) "facePads")
          && negb (String.eqb child.(name) "_debugPass")
       then collectRecursive child slotName acc
       else acc)
    object.(children) acc.

(** [collectMeshes]: the visible meshes, split into character and base. *)
Definition collectMeshes (ck : CKType) : CollectedMeshes :=
  let empty := mkCollectedMeshes [] [] in
  match ck.(activeDisplay) with
  | None => empty
  | Some display =>
      match display.(meshes) with
      | None => empty
      | Some entries =>
          fold_left
            (fun acc '(slotName, mesh) =>
               match mesh with
               | None => acc
               | Some mesh =>
                   if startsWith slotName "_" then acc
                   else collectRecursive mesh (Some slotName) acc
               end)
            entries empty
      end
  end.

(** The traversal that [collectMeshes] performs, as a list: the nodes
    visited under a root, depth first, children in order, with the two
    sentinel names skipped below the root; then the nodes of every slot
    with their slot name, in the order of the slots. *)
Definition sentinel (child : Mesh) : bool :=
  String.eqb child.(name) "facePads" || String.eqb child.(name) "_debugPass".

Fixpoint visited (object : Mesh) : list Mesh :=
  object ::
  flat_map (fun child => if sentinel child then [] else visited child)
           object.(children).

Definition slotNodes (entries : list (string * option Mesh)) : list (string * Mesh) :=
  flat_map
    (fun '(slotName, mesh) =>
       match mesh with
       | Some mesh =>
           if startsWith slotName "_" then []
           else map (pair slotName) (visited mesh)
       | None => []
       end)
    entries.

(** A node qualifies for inclusion. *)
Definition qualifies (node : string * Mesh) : bool :=
  let '(slotName, object) := node in
  (object.(isMesh) || object.(isSkinnedMesh)) && shouldIncludeMesh object (Some slotName).

(** The classification of a node by its slot name and its own name. *)
Definition routedToBase (node : string * Mesh) : bool :=
  let '(slotName, object) := node in
  isBaseMesh (Some slotName) (Some object.(name)).

(** Pushing the qualifying nodes of a list, each to its group. *)
Definition route (nodes : list (string * Mesh)) (acc : CollectedMeshes)
    : CollectedMeshes :=
  mkCollectedMeshes
    (acc.(characterMeshes)
     ++ map snd (filter (fun n => negb (routedToBase n)) (filter qualifies nodes)))
    (acc.(baseMeshes) ++ map snd (filter routedToBase (filter qualifies nodes))).


(** ** Pose resolver *)

Record ExtractedGeometry : Type := mkExtractedGeometry {
  positions : list Q;
  indices : option (list Z)
}.

(** [for (let i = 0; i < count; i++)] collecting what each round pushes. *)
Fixpoint forEachM {A B : Type} (body : A -> exn (list B)) (l : list A) : exn (list B) :=
  match l with
  | [] => Ok []
  | a :: l' => out <- body a ;; rest <- forEachM body l' ;; Ok (out ++ rest)
  end.

(** The morph loop of [extractMeshGeometry] for vertex [i]: the state is
    [(baseX, baseY, baseZ)]. *)
Definition applyMorphs (morphPositions : list BufferAttribute)
    (morphInfluences : list Q) (i : nat) (base : Q * Q * Q) : Q * Q * Q :=
  fold_left
    (fun '(baseX, baseY, baseZ) m =>
       let influence :=
         match nth_error morphInfluences m with
         | Some q => q
         | None => 0
         end in
       if Qltb (1 # 10000) influence then
         match nth_error morphPositions m with
         | Some morphAttr =>
             (baseX + morphAttr.(getX) i * influence,
              baseY + morphAttr.(getY) i * influence,
              baseZ + morphAttr.(getZ) i * influence)
         | None => (baseX, baseY, baseZ)
         end
       else (baseX, baseY, baseZ))
    (seq 0 (List.length morphPositions)) base.

(** [extractMeshGeometry]: the posed geometry of a mesh.  The calls to
    [updateMatrixWorld] and [skeleton.update] refresh the matrices of the
    scene; the scene given here holds the refreshed matrices. *)
Definition extractMeshGeometry (mesh : Mesh) : exn ExtractedGeometry :=
  geometry <- prop mesh.(geometry) (fun g => g) ;;
  count <- prop geometry.(attributes).(position) count ;;
  positionAttr <- prop geometry.(attributes).(position) (fun a => a) ;;
  let hasMorphTargets :=
    match geometry.(morphAttributes_position) with
    | Some ms => (0 <? List.length ms)%nat
    | None => false
    end in
  let morphInfluences :=
    match mesh.(morphTargetInfluences) with
    | Some l => l
    | None => []
    end in
  let indices := geometry.(index) in
  let isSkinned :=
    mesh.(isSkinnedMesh) &&
    match mesh.(skeleton) with Some _ => true | None => false end &&
    match geometry.(attributes).(skin0) with Some _ => true | None => false end in
  positions <-
    forEachM
      (fun i =>
         let base :=
           (positionAttr.(getX) i, positionAttr.(getY) i, positionAttr.(getZ) i) in
         let '(baseX, baseY, baseZ) :=
           match geometry.(morphAttributes_position) with
           | Some morphPositions =>
               if hasMorphTargets
               then applyMorphs morphPositions morphInfluences i base
               else base
           | None => base
           end in
         vertex <-
           (if isSkinned
            then skinVertexWithPosition mesh i baseX baseY baseZ
            else Ok (applyMatrix4 (mkVertex baseX baseY baseZ) mesh.(matrixWorld))) ;;
         Ok [vertex.(x); vertex.(y); vertex.(z)])
      (seq 0 count) ;;
  Ok (mkExtractedGeometry positions indices).

(** ** Triangle assembler *)

(** A vertex as [getVertex] reads it from [positions]: a coordinate read
    outside the array is [undefined]. *)
Record RawVertex : Type := mkRawVertex {
  raw_x : option Q;
  raw_y : option Q;
  raw_z : option Q
}.

(** [isValidVertex]: all coordinates below [MAX_COORD] in magnitude;
    [Math.abs (undefined)] is [NaN], which compares false. *)
Definition isValidVertex (v : RawVertex) : bool :=
  let MAX_COORD := 100 in
  abs_lt v.(raw_x) MAX_COORD && abs_lt v.(raw_y) MAX_COORD && abs_lt v.(raw_z) MAX_COORD.

(** The numbers of a vertex whose coordinates are all defined. *)
Definition number (c : option Q) : Q :=
  match c with
  | Some q => q
  | None => 0
  end.

Definition vertexOf (v : RawVertex) : Vertex :=
  mkVertex (number v.(raw_x)) (number v.(raw_y)) (number v.(raw_z)).

(** [getVertex] of [collectTriangles]; the index itself is [undefined] when
    it was read past the end of [indices]. *)
Definition getVertex (positions : list Q) (idx : option Z) : RawVertex :=
  match idx with
  | Some idx =>
      mkRawVertex (js_get positions (idx * 3))
                  (js_get positions (idx * 3 + 1))
                  (js_get positions (idx * 3 + 2))
  | None => mkRawVertex None None None
  end.

(** [addTriangle] of [collectTriangles]; the state is
    [(allTriangles, skippedTriangles)]. *)
Definition addTriangle (positions : list Q) (i0 i1 i2 : option Z)
    (st : list Triangle * nat) : list Triangle * nat :=
  let '(allTriangles, skippedTriangles) := st in
  let v1 := getVertex positions i0 in
  let v2 := getVertex positions i1 in
  let v3 := getVertex positions i2 in
  if negb (isValidVertex v1) || negb (isValidVertex v2) || negb (isValidVertex v3)
  then (allTriangles, S skippedTriangles)
  else (allTriangles ++ [mkTriangle (vertexOf v1) (vertexOf v2) (vertexOf v3)],
        skippedTriangles).

(** The values [0, 3, 6, ...] below [n] of a loop [for (i = 0; i < n; i += 3)]. *)
Definition byThree (n : nat) : list Z :=
  map (fun k => (3 * Z.of_nat k)%Z) (seq 0 ((n + 2) / 3)).

(** The triangles of one extracted geometry, added to the state. *)
Definition addGeometry (g : ExtractedGeometry) (st : list Triangle * nat)
    : list Triangle * nat :=
  let positions := g.(positions) in
  match g.(indices) with
  | Some indices =>
      fold_left
        (fun st i =>
           addTriangle positions (js_get indices i) (js_get indices (i + 1))
                       (js_get indices (i + 2)) st)
        (byThree (List.length indices)) st
  | None =>
      (* [vertCount = positions.length / 3] is a fraction when the length
         is no multiple of 3: [i < vertCount] is [3 * i < positions.length] *)
      let belowVertCount (i : Z) := (3 * i <? Z.of_nat (List.length positions))%Z in
      fold_left
        (fun st i => addTriangle positions (Some i) (Some (i + 1)%Z) (Some (i + 2)%Z) st)
        (filter belowVertCount (byThree (List.length positions))) st
  end.

(** [collectTriangles]: the triangles of the meshes, with the number of
    skipped triangles that the function reports in its warning. *)
Definition collectTriangles (meshes : list Mesh) : exn (list Triangle * nat) :=
  foldM (fun st mesh => g <- extractMeshGeometry mesh ;; Ok (addGeometry g st))
        meshes ([], 0%nat).

(** The candidate triangles of an extracted geometry, in the order in which
    [collectTriangles] passes them to [addTriangle]; the check that keeps a
    candidate; the triangle that is pushed; the nine coordinates of a
    candidate. *)
Definition Candidate : Type := RawVertex * RawVertex * RawVertex.

Definition candidates (g : ExtractedGeometry) : list Candidate :=
  let positions := g.(positions) in
  match g.(indices) with
  | Some indices =>
      map (fun i => (getVertex positions (js_get indices i),
                     getVertex positions (js_get indices (i + 1)),
                     getVertex positions (js_get indices (i + 2))))
          (byThree (List.length indices))
  | None =>
      map (fun i => (getVertex positions (Some i),
                     getVertex positions (Some (i + 1)%Z),
                     getVertex positions (Some (i + 2)%Z)))
          (filter (fun i => (3 * i <? Z.of_nat (List.length positions))%Z)
                  (byThree (List.length positions)))
  end.

Definition validCandidate (c : Candidate) : bool :=
  let '(v1, v2, v3) := c in
  isValidVertex v1 && isValidVertex v2 && isValidVertex v3.

Definition triangleOf (c : Candidate) : Triangle :=
  let '(v1, v2, v3) := c in
  mkTriangle (vertexOf v1) (vertexOf v2) (vertexOf v3).

Definition coordinates (c : Candidate) : list (option Q) :=
  let '(v1, v2, v3) := c in
  [ v1.(raw_x); v1.(raw_y); v1.(raw_z);
    v2.(raw_x); v2.(raw_y); v2.(raw_z);
    v3.(raw_x); v3.(raw_y); v3.(raw_z) ].

(** Keeping the valid candidates of a list and counting the others. *)
Definition keep (cs : list Candidate) (st : list Triangle * nat) : list Triangle * nat :=
  (fst st ++ map triangleOf (filter validCandidate cs),
   (snd st + List.length (filter (fun c => negb (validCandidate c)) cs))%nat).

(** The extraction of every mesh of a list. *)
Fixpoint extractAll (meshes : list Mesh) : exn (list ExtractedGeometry) :=
  match meshes with
  | [] => Ok []
  | mesh :: meshes' =>
      g <- extractMeshGeometry mesh ;;
      gs <- extractAll meshes' ;;
      Ok (g :: gs)
  end.

(** A mesh that can be extracted: it has a geometry with a position
    attribute. *)
Definition extractable (mesh : Mesh) : Prop :=
  exists g p, mesh.(geometry) = Some g /\ g.(attributes).(position) = Some p.

(** *** The coordinate transform

    [transformTriangles] assigns to the fields of the [Vertex] objects that
    the triangles refer to.  The objects live in a heap; a triangle object
    holds the references of its three vertices. *)

Definition ref : Type := nat.

Definition Heap : Type := ref -> Vertex.

Definition assign (h : Heap) (r : ref) (v : Vertex) : Heap :=
  fun r' => if Nat.eqb r' r then v else h r'.

Record TriangleObj : Type := mkTriangleObj { o1 : ref; o2 : ref; o3 : ref }.

(** The vertices that [for (const tri of triangles) for (const v of
    [tri.v1, tri.v2, tri.v3])] visits, in order. *)
Definition vertexRefs (triangles : list TriangleObj) : list ref :=
  flat_map (fun tri => [tri.(o1); tri.(o2); tri.(o3)]) triangles.

(** [transformTriangles]: orientation (Z up), scale, and the move to the
    ground plane.  [minZ] starts at [Number.POSITIVE_INFINITY], which is
    [None] here; it stays so only when there is no vertex to move. *)
Definition transformTriangles (triangles : list TriangleObj) (scale : Q)
    (h : Heap) : Heap :=
  let h :=
    fold_left
      (fun h v =>
         let oldY := (h v).(y) in
         let oldZ := (h v).(z) in
         assign h v (mkVertex ((h v).(x) * scale) (- oldZ * scale) (oldY * scale)))
      (vertexRefs triangles) h in
  let minZ :=
    fold_left
      (fun minZ v =>
         match minZ with
         | None => Some (h v).(z)
         | Some m => Some (Qmin m (h v).(z))
         end)
      (vertexRefs triangles) None in
  match minZ with
  | None => h
  | Some minZ =>
      let zOffset := - minZ + (5 # 2) in
      fold_left
        (fun h v => assign h v (mkVertex (h v).(x) (h v).(y) ((h v).(z) + zOffset)))
        (vertexRefs triangles) h
  end.

(** Triangles by value: every triangle that [collectTriangles] pushes owns
    three fresh vertex objects.  [allocate] lays such a list out in a heap,
    [readTriangles] reads triangle objects back. *)
Definition flatten (triangles : list Triangle) : list Vertex :=
  flat_map (fun tri => [tri.(v1); tri.(v2); tri.(v3)]) triangles.

Definition freshTriangle (i : nat) : TriangleObj :=
  mkTriangleObj (3 * i)%nat (3 * i + 1)%nat (3 * i + 2)%nat.

Definition allocate (triangles : list Triangle) : list TriangleObj * Heap :=
  (map freshTriangle (seq 0 (List.length triangles)),
   fun r => nth r (flatten triangles) (mkVertex 0 0 0)).

Definition readTriangles (objs : list TriangleObj) (h : Heap) : list Triangle :=
  map (fun tri => mkTriangle (h tri.(o1)) (h tri.(o2)) (h tri.(o3))) objs.

(** [transformTriangles] on triangles that own their vertices. *)
Definition transformOwned (triangles : list Triangle) (scale : Q) : list Triangle :=
  let '(objs, h) := allocate triangles in
  readTriangles objs (transformTriangles objs scale h).

(** The two steps of the transform on one vertex, and the least of a list
    of numbers as the second loop of [transformTriangles] computes it. *)
Definition remap (scale : Q) (v : Vertex) : Vertex :=
  mkVertex (v.(x) * scale) (- v.(z) * scale) (v.(y) * scale).

Definition moveZ (zOffset : Q) (v : Vertex) : Vertex :=
  mkVertex v.(x) v.(y) (v.(z) + zOffset).

Definition mapTriangle (f : Vertex -> Vertex) (tri : Triangle) : Triangle :=
  mkTriangle (f tri.(v1)) (f tri.(v2)) (f tri.(v3)).

Definition least (zs : list Q) : option Q :=
  fold_left
    (fun minZ z =>
       match minZ with
       | None => Some z
       | Some m => Some (Qmin m z)
       end)
    zs None.

(** ** Format encoders *)

Context {PF : Platform}.

(** [calculateNormal]: the face normal. *)
Definition calculateNormal (v1 v2 v3 : Vertex) : Vertex :=
  let ax := v2.(x) - v1.(x) in
  let ay := v2.(y) - v1.(y) in
  let az := v2.(z) - v1.(z) in
  let bx := v3.(x) - v1.(x) in
  let by_ := v3.(y) - v1.(y) in
  let bz := v3.(z) - v1.(z) in
  let nx := ay * bz - az * by_ in
  let ny := az * bx - ax * bz in
  let nz := ax * by_ - ay * bx in
  let len := Math_sqrt (nx * nx + ny * ny + nz * nz) in
  if Qltb 0 len
  then mkVertex (nx / len) (ny / len) (nz / len)
  else mkVertex nx ny nz.

(** [headerText.charCodeAt (i)] for [i] below the length. *)
Definition charCodeAt (s : string) (i : nat) : Z :=
  match String.get i s with
  | Some c => Z.of_nat (nat_of_ascii c)
  | None => 0%Z
  end.

(** The stores of one triangle in [trianglesToSTL]; the state is
    [(buffer, offset)]. *)
Definition writeTriangle (st : Buffer * nat) (tri : Triangle) : exn (Buffer * nat) :=
  let '(dataView, offset) := st in
  let normal := calculateNormal tri.(v1) tri.(v2) tri.(v3) in
  '(dataView, offset) <-
    foldM (fun '(dataView, offset) q =>
             dataView <- setFloat32 dataView offset q ;;
             Ok (dataView, (offset + 4)%nat))
          [ normal.(x); normal.(y); normal.(z);
            tri.(v1).(x); tri.(v1).(y); tri.(v1).(z);
            tri.(v2).(x); tri.(v2).(y); tri.(v2).(z);
            tri.(v3).(x); tri.(v3).(y); tri.(v3).(z) ]
          (dataView, offset) ;;
  dataView <- setUint16 dataView offset 0 ;;
  Ok (dataView, (offset + 2)%nat).

(** [trianglesToSTL]: binary STL. *)
Definition trianglesToSTL (triangles : list Triangle) (headerText : string)
    : exn Buffer :=
  let triangleCount := List.length triangles in
  let bufferLength := (80 + 4 + triangleCount * 50)%nat in
  let buffer := ArrayBuffer bufferLength in
  dataView <-
    foldM (fun dataView i =>
             setUint8 dataView i
               (if (i <? String.length headerText)%nat
                then charCodeAt headerText i else 0%Z))
          (seq 0 80) buffer ;;
  dataView <- setUint32 dataView 80 (Z.of_nat triangleCount) ;;
  '(dataView, _) <- foldM writeTriangle triangles (dataView, 84%nat) ;;
  Ok dataView.

(** The layout of a binary STL file, from the words of the
    specification: a header of 80 bytes with the label left-justified and
    zero-padded, the count, and 50 bytes per triangle; the normal of a
    triangle, from its cross product. *)
Definition stlHeader (headerText : string) : list byte :=
  map (fun i => if (i <? String.length headerText)%nat
                then byte_of_Z (charCodeAt headerText i) else x00)
      (seq 0 80).

Definition crossProduct (a b : Vertex) : Vertex :=
  mkVertex (a.(y) * b.(z) - a.(z) * b.(y))
           (a.(z) * b.(x) - a.(x) * b.(z))
           (a.(x) * b.(y) - a.(y) * b.(x)).

Definition minus (a b : Vertex) : Vertex :=
  mkVertex (a.(x) - b.(x)) (a.(y) - b.(y)) (a.(z) - b.(z)).

Definition normalOf (tri : Triangle) : Vertex :=
  let c := crossProduct (minus tri.(v2) tri.(v1)) (minus tri.(v3) tri.(v1)) in
  let len := Math_sqrt (c.(x) * c.(x) + c.(y) * c.(y) + c.(z) * c.(z)) in
  if Qltb 0 len then divideScalar c len else c.

(** The twelve numbers of a triangle record, in file order. *)
Definition stlNumbers (tri : Triangle) : list Q :=
  [ (normalOf tri).(x); (normalOf tri).(y); (normalOf tri).(z);
    tri.(v1).(x); tri.(v1).(y); tri.(v1).(z);
    tri.(v2).(x); tri.(v2).(y); tri.(v2).(z);
    tri.(v3).(x); tri.(v3).(y); tri.(v3).(z) ].

Definition stlRecord (tri : Triangle) : list byte :=
  flat_map (fun q => le32 (float32_bits q)) (stlNumbers tri) ++ [x00; x00].

Definition stlFile (triangles : list Triangle) (headerText : string) : list byte :=
  stlHeader headerText
  ++ le32 (Z.of_nat (List.length triangles))
  ++ flat_map stlRecord triangles.

(** ** The export *)

Record ExportOptions : Type := mkExportOptions {
  filename : option string;
  scale : option Q;
  separateBase : option bool
}.

(** What [downloadFile] hands to the browser. *)
Record Download : Type := mkDownload {
  download_buffer : Buffer;
  download_filename : string
}.

Definition downloadFile (buffer : Buffer) (filename : string) : Download :=
  mkDownload buffer filename.

(** [exportCharacter]: [CK] is the global of the page ([None] when it is
    not defined; [RK] is the kit of this section); the result is the file
    that is downloaded, if any. *)
Definition exportCharacter (options : ExportOptions) (CK : option CKType)
    : exn (option Download) :=
  let filename := match options.(filename) with Some f => f | None => "heroforge-character"%string end in
  let scale := match options.(scale) with Some s => s | None => 10 end in
  let separateBase := match options.(separateBase) with Some b => b | None => true end in
  match CK with
  | None => Ok None
  | Some CK =>
      let '(mkCollectedMeshes characterMeshes baseMeshes) := collectMeshes CK in
      if ((List.length characterMeshes =? 0) && (List.length baseMeshes =? 0))%nat
      then Ok None
      else if separateBase && (0 <? List.length baseMeshes)%nat then
        let zip : list ZipFile := [] in
        zip <-
          (if (0 <? List.length characterMeshes)%nat then
             '(charTriangles, _) <- collectTriangles characterMeshes ;;
             let charTriangles := transformOwned charTriangles scale in
             charSTL <- trianglesToSTL charTriangles "HeroForge Character"%string ;;
             Ok (addFile zip (filename ++ "-character.stl")%string charSTL)
           else Ok zip) ;;
        zip <-
          (if (0 <? List.length baseMeshes)%nat then
             '(baseTriangles, _) <- collectTriangles baseMeshes ;;
             let baseTriangles := transformOwned baseTriangles scale in
             baseSTL <- trianglesToSTL baseTriangles "HeroForge Base"%string ;;
             Ok (addFile zip (filename ++ "-base.stl")%string baseSTL)
           else Ok zip) ;;
        zipBuffer <- generate zip ;;
        Ok (Some (downloadFile zipBuffer (filename ++ ".zip")%string))
      else
        let allMeshes := characterMeshes ++ baseMeshes in
        '(triangles, _) <- collectTriangles allMeshes ;;
        let triangles := transformOwned triangles scale in
        stlBuffer <- trianglesToSTL triangles "HeroForge Export"%string ;;
        Ok (Some (downloadFile stlBuffer (filename ++ ".stl")%string))
  end.

(** ** Notions for the statements about the pipeline *)

(** The scalar product of two vectors and a vector times a number. *)
Definition dot (a b : Vertex) : Q :=
  a.(x) * b.(x) + a.(y) * b.(y) + a.(z) * b.(z).

Definition scaleBy (v : Vertex) (s : Q) : Vertex :=
  mkVertex (v.(x) * s) (v.(y) * s) (v.(z) * s).

Definition Qsum (l : list Q) : Q := fold_right Qplus 0 l.

(** Equality of triangles as numbers. *)
Definition teq (a b : Triangle) : Prop :=
  veq a.(v1) b.(v1) /\ veq a.(v2) b.(v2) /\ veq a.(v3) b.(v3).

(** The influence with which morph target [m] enters a vertex: its entry in
    [morphTargetInfluences] when that is above [1e-4], and nothing
    otherwise. *)
Definition activeInfluence (morphInfluences : list Q) (m : nat) : Q :=
  match nth_error morphInfluences m with
  | Some q => if Qltb (1 # 10000) q then q else 0
  | None => 0
  end.

(** One round of the morph loop of [extractMeshGeometry], as [applyMorphs]
    runs it. *)
Definition morphStep (morphPositions : list BufferAttribute)
    (morphInfluences : list Q) (i : nat) : Q * Q * Q -> nat -> Q * Q * Q :=
  fun '(baseX, baseY, baseZ) m =>
    let influence :=
      match nth_error morphInfluences m with
      | Some q => q
      | None => 0
      end in
    if Qltb (1 # 10000) influence then
      match nth_error morphPositions m with
      | Some morphAttr =>
          (baseX + morphAttr.(getX) i * influence,
           baseY + morphAttr.(getY) i * influence,
           baseZ + morphAttr.(getZ) i * influence)
      | None => (baseX, baseY, baseZ)
      end
    else (baseX, baseY, baseZ).

(** A mesh that is treated as rigid by [extractMeshGeometry]: the flag
    [isSkinnedMesh], the skeleton or the attribute [skin0] is missing. *)
Definition rigid (mesh : Mesh) (geom : BufferGeometry) : Prop :=
  mesh.(isSkinnedMesh) = false \/ mesh.(skeleton) = None
  \/ geom.(attributes).(skin0) = None.

(** What every collected mesh has: it is a visible mesh with a geometry of
    at least three positions that is no plane, and neither its name nor its
    lower-case name is one that the scene query rejects. *)
Definition rejectedWords : list string :=
  ["ground"; "floor"; "plane"; "shadow"; "reflector"]%string.

Definition exportable (mesh : Mesh) : Prop :=
  (mesh.(isMesh) || mesh.(isSkinnedMesh)) = true /\
  mesh.(visible) = true /\
  mesh.(name) <> "facePads"%string /\
  mesh.(name) <> "_debugPass"%string /\
  Forall (fun word => includes (toLowerCase mesh.(name)) word = false) rejectedWords /\
  exists geom posAttr,
    mesh.(geometry) = Some geom /\
    geom.(attributes).(position) = Some posAttr /\
    (3 <= posAttr.(count))%nat /\
    geom.(geometry_type) <> "PlaneBufferGeometry"%string /\
    geom.(geometry_type) <> "PlaneGeometry"%string.

(** The entries of the display that the scene query looks at: a slot whose
    name starts with an underscore, or that holds no mesh, is passed
    over. *)
Definition liveSlot (entry : string * option Mesh) : bool :=
  let '(slotName, mesh) := entry in
  match mesh with
  | Some _ => negb (startsWith slotName "_")
  | None => false
  end.

(** A mesh from which positions can be read, as a test. *)
Definition hasPositions (mesh : Mesh) : bool :=
  match mesh.(geometry) with
  | Some geom =>
      match geom.(attributes).(position) with
      | Some _ => true
      | None => false
      end
  | None => false
  end.

(** The skin matrix of a bone index, as [getBoneMatrix] finds it: the world
    matrix of the bone times its bind-pose inverse, or the identity. *)
Definition skinMatrix (skeleton : Skeleton) (boneIndex : Z) : Matrix4 :=
  match boneAt skeleton boneIndex, boneInverseAt skeleton boneIndex with
  | Some bone, Some inv =>
      match boneWorldOf bone with
      | Some w => multiply w inv
      | None => Matrix4_new
      end
  | _, _ => Matrix4_new
  end.

(** The influences of a vertex that count, those with a weight above
    [1e-4], and the sum of vectors with their weights. *)
Definition activeInfluences (geom : BufferGeometry) (vertexIndex : nat)
    : list (Z * Q) :=
  filter (fun p => Qltb (1 # 10000) (snd p)) (influences geom vertexIndex).

Definition weightedSum (l : list (Vec3 * Q)) : Vec3 :=
  fold_right (fun p acc => addScaledVector acc (fst p) (snd p)) (mkVertex 0 0 0) l.

End Scene.

(** ** Example data

    Small scenes on the kit [Three] and the platform [Ieee]. *)

#[local] Existing Instance Three.Kit.
#[local] Existing Instance Ieee.Host.

(** A skeleton of one bone, scaled by 2, on the kit [Three]. *)
Definition scale2 : list Q :=
  [2; 0; 0; 0;  0; 2; 0; 0;  0; 0; 2; 0;  0; 0; 0; 1].

Definition bone2 : Bone := mkBone (RK := Three.Kit) (Some scale2) None.

Definition oneBone : Skeleton :=
  mkSkeleton (Some [Some bone2]) (Some [Some Three.identity]).


(** A geometry of three vertices whose skin attribute puts weight 1 on
    bone 0 (the encoded weight 1 decodes to 1, the encoded weight 0 to 0),
    and a mesh over it whose bind matrix is the translation by (1, 0, 0). *)
Definition flatAttr (c0 c1 c2 c3 : Q) : BufferAttribute :=
  mkBufferAttribute 3 (fun _ => c0) (fun _ => c1) (fun _ => c2) (fun _ => c3).

Definition skinGeometry : BufferGeometry :=
  mkBufferGeometry "BufferGeometry"
    (mkAttributes (Some (flatAttr 0 0 0 0)) (Some (flatAttr 0 1 0 0)) None None None)
    None None.

Definition translation (tx ty tz : Q) : list Q :=
  [1; 0; 0; 0;  0; 1; 0; 0;  0; 0; 1; 0;  tx; ty; tz; 1].

Definition shiftedMesh : Mesh :=
  mkMesh (RK := Three.Kit) true true true "Torso" (Some skinGeometry) (Some oneBone)
         Three.identity (Some (translation 1 0 0)) (Some (translation (-1) 0 0))
         None [].

(** The scene of the specification: a slot "base_01" holding a visible mesh
    "Pedestal" and a slot "body" holding a visible skinned mesh "Torso". *)
Definition plainGeometry : BufferGeometry :=
  mkBufferGeometry "BufferGeometry"
    (mkAttributes (Some (flatAttr 0 0 0 0)) None None None None) None None.

Definition Pedestal : Mesh :=
  mkMesh (RK := Three.Kit) true false true "Pedestal" (Some plainGeometry) None
         Three.identity None None None [].

Definition Torso : Mesh :=
  mkMesh (RK := Three.Kit) false true true "Torso" (Some skinGeometry) (Some oneBone)
         Three.identity None None None [].

Definition scenario : CKType :=
  mkCK (Some (mkDisplay (Some [("base_01"%string, Some Pedestal); ("body"%string, Some Torso)]))).

(** A visible mesh of four vertices at the origin, without index buffer:
    its second group of three vertices reads past the position buffer. *)
Definition fourVertices : Mesh :=
  mkMesh (RK := Three.Kit) true false true "Cape"
    (Some (mkBufferGeometry "BufferGeometry"
             (mkAttributes
                (Some (mkBufferAttribute 4 (fun _ => 0) (fun _ => 0) (fun _ => 0)
                                         (fun _ => 0)))
                None None None None)
             None None))
    None Three.identity None None None [].

(** An extracted geometry of two triangles; a coordinate of the second one
    is out of bounds at 250. *)
Definition twoTriangles : ExtractedGeometry :=
  mkExtractedGeometry
    [0; 0; 0;  1; 0; 0;  0; 1; 0;  0; 0; 250]
    (Some [0; 1; 2;  0; 1; 3]%Z).

(** One triangle in the plane z = 0, above y = 1. *)
Definition oneTriangle : list Triangle :=
  [mkTriangle (mkVertex 0 1 0) (mkVertex 1 1 0) (mkVertex 0 2 0)].

(** Two small files, and a name of 65536 characters. *)
Definition twoFiles : list ZipFile :=
  [ mkZipFile "hero-character.stl" [x01; x02; x03];
    mkZipFile "hero-base.stl" [] ].

Definition longName : string :=
  string_of_list_byte (repeat "a"%byte (N.to_nat 65536)).


(** A scene with the pedestal alone. *)
Definition pedestalOnly : CKType :=
  mkCK (Some (mkDisplay (Some [("base_01"%string, Some Pedestal)]))).

Definition heroOptions (separate : bool) : ExportOptions :=
  mkExportOptions (Some "hero"%string) (Some 1) (Some separate).

(** A skinned mesh at rest, whose weights all decode to 0, and one whose
    two influences, of weights 1/2 and 1/4, both name bone 0. *)
Definition restGeometry : BufferGeometry :=
  mkBufferGeometry "BufferGeometry"
    (mkAttributes (Some (flatAttr 0 0 0 0)) (Some (flatAttr 0 0 0 0)) None None None)
    None None.

Definition restMesh : Mesh :=
  mkMesh (RK := Three.Kit) true true true "Arm" (Some restGeometry) (Some oneBone)
         Three.identity None None None [].

Definition sharedGeometry : BufferGeometry :=
  mkBufferGeometry "BufferGeometry"
    (mkAttributes (Some (flatAttr 0 0 0 0)) (Some (flatAttr 0 (1 # 2) 0 (1 # 4)))
                  None None None)
    None None.

Definition sharedBoneMesh : Mesh :=
  mkMesh (RK := Three.Kit) true true true "Arm" (Some sharedGeometry) (Some oneBone)
         Three.identity None None None [].

(** A triangle above [oneTriangle], from z = 3 up. *)
Definition highTriangle : list Triangle :=
  [mkTriangle (mkVertex 0 4 0) (mkVertex 1 4 0) (mkVertex 0 5 0)].
(** * Properties *)

(** ** Numbers *)

Lemma Qltb_lt (a b : Q) : Qltb a b = true <-> a < b.
Proof.
  unfold Qltb. rewrite negb_true_iff. split; intro H.
  - apply Qnot_le_lt. intro Hle. apply Qle_bool_iff in Hle. congruence.
  - destruct (Qle_bool b a) eqn:E; [|reflexivity].
    apply Qle_bool_iff in E. exfalso. exact (Qlt_not_le _ _ H E).
Qed.

Lemma Qltb_ge (a b : Q) : Qltb a b = false <-> b <= a.
Proof.
  unfold Qltb. rewrite negb_false_iff. apply Qle_bool_iff.
Qed.

#[export] Instance Qtrunc_wd : Proper (Qeq ==> eq) Qtrunc.
Proof.
  intros a b E. unfold Qtrunc.
  rewrite (Qfloor_comp _ _ E), (Qceiling_comp _ _ E), (Qleb_comp 0 0 (Qeq_refl 0) _ _ E).
  reflexivity.
Qed.

#[export] Instance jsrem_wd : Proper (Qeq ==> Qeq ==> Qeq) jsrem.
Proof.
  intros a b E c d F. unfold jsrem.
  assert (T : Qtrunc (a / c) = Qtrunc (b / d)).
  { apply Qtrunc_wd. apply Qdiv_comp; assumption. }
  rewrite T.
  apply Qplus_comp; [exact E|].
  apply Qopp_comp. apply Qmult_comp; [exact F|reflexivity].
Qed.

(** *** Facts on the double remainder *)

Lemma Qtrunc_nonneg (q : Q) :
  0 <= q -> inject_Z (Qtrunc q) <= q /\ q < inject_Z (Qtrunc q) + 1.
Proof.
  intro Hq. unfold Qtrunc.
  destruct (Qle_bool 0 q) eqn:E.
  - split; [apply Qfloor_le|].
    pose proof (Qlt_floor q) as H. rewrite inject_Z_plus in H.
    change (inject_Z 1) with 1 in H. exact H.
  - exfalso. apply Qle_bool_iff in Hq. congruence.
Qed.

Lemma Qtrunc_neg (q : Q) :
  q < 0 -> q <= inject_Z (Qtrunc q) /\ inject_Z (Qtrunc q) - 1 < q.
Proof.
  intro Hq. unfold Qtrunc.
  destruct (Qle_bool 0 q) eqn:E.
  - apply Qle_bool_iff in E. lra.
  - split; [apply Qle_ceiling|].
    pose proof (Qceiling_lt q) as H.
    replace (Qceiling q - 1)%Z with (Qceiling q + -1)%Z in H by lia.
    rewrite inject_Z_plus in H. change (inject_Z (-1)) with (-1) in H. lra.
Qed.

(** [n % 2] differs from [n] by an even integer and stays above [-2]. *)
Lemma jsrem2_gt (n : Q) : -2 < jsrem n 2.
Proof.
  unfold jsrem.
  assert (Hd : n / 2 == n * (1 # 2)) by (unfold Qdiv; reflexivity).
  destruct (Qlt_le_dec (n / 2) 0) as [Hn | Hn].
  - destruct (Qtrunc_neg _ Hn) as [_ H]. lra.
  - destruct (Qtrunc_nonneg _ Hn) as [H _]. lra.
Qed.

Lemma jsrem2_nonneg (n : Q) : 0 <= n -> 0 <= jsrem n 2 /\ jsrem n 2 < 2.
Proof.
  intro Hn. unfold jsrem.
  assert (Hd : n / 2 == n * (1 # 2)) by (unfold Qdiv; reflexivity).
  assert (H0 : 0 <= n / 2) by lra.
  destruct (Qtrunc_nonneg _ H0) as [H1 H2]. lra.
Qed.

Lemma mod2_range (n : Q) : 0 <= mod2 n /\ mod2 n < 2.
Proof.
  unfold mod2. apply jsrem2_nonneg.
  pose proof (jsrem2_gt n). lra.
Qed.

Lemma mod2_congruent (n : Q) : exists k : Z, mod2 n == n - 2 * inject_Z k.
Proof.
  unfold mod2, jsrem.
  set (a := Qtrunc (n / 2)).
  set (b := Qtrunc ((n - 2 * inject_Z a + 2) / 2)).
  exists (a + b + -1)%Z.
  rewrite inject_Z_plus, inject_Z_plus.
  change (inject_Z (-1)) with (-1). lra.
Qed.

Lemma inject_Z_small (k : Z) : -1 < inject_Z k -> inject_Z k < 1 -> k = 0%Z.
Proof.
  intros H1 H2.
  change (-1) with (inject_Z (-1)) in H1. change 1 with (inject_Z 1) in H2.
  rewrite <- Zlt_Qlt in H1, H2. lia.
Qed.

(** Two numbers of [[0, 2)] that differ by an even integer are equal. *)
Lemma residue_unique (a b : Q) (k : Z) :
  0 <= a < 2 -> 0 <= b < 2 -> a == b + 2 * inject_Z k -> a == b.
Proof.
  intros [Ha1 Ha2] [Hb1 Hb2] E.
  assert (k = 0%Z) as -> by (apply inject_Z_small; lra).
  change (inject_Z 0) with 0 in E. lra.
Qed.

Lemma mod2_periodic (n : Q) (k : Z) : mod2 (n + 2 * inject_Z k) == mod2 n.
Proof.
  destruct (mod2_congruent (n + 2 * inject_Z k)) as [i Hi].
  destruct (mod2_congruent n) as [j Hj].
  apply (residue_unique _ _ (k - i + j)%Z).
  - apply mod2_range.
  - apply mod2_range.
  - rewrite Hi, Hj.
    unfold Z.sub. rewrite !inject_Z_plus, inject_Z_opp. lra.
Qed.

(** The double remainder is the floored remainder. *)
Lemma mod2_floor (n : Q) : mod2 n == n - 2 * inject_Z (Qfloor (n / 2)).
Proof.
  destruct (mod2_congruent n) as [j Hj].
  assert (Hd : n / 2 == n * (1 # 2)) by (unfold Qdiv; reflexivity).
  pose proof (Qfloor_le (n / 2)) as F1.
  pose proof (Qlt_floor (n / 2)) as F2. rewrite inject_Z_plus in F2.
  change (inject_Z 1) with 1 in F2.
  apply (residue_unique _ _ (Qfloor (n / 2) - j)%Z).
  - apply mod2_range.
  - lra.
  - rewrite Hj. unfold Z.sub. rewrite inject_Z_plus, inject_Z_opp. lra.
Qed.

(** *** The double remainder on the real numbers *)

Lemma Rtrunc_nonneg (r : R) :
  (0 <= r)%R -> (IZR (Rtrunc r) <= r /\ r < IZR (Rtrunc r) + 1)%R.
Proof.
  intro Hr. unfold Rtrunc. destruct (Rle_dec 0 r) as [_|H]; [|contradiction].
  destruct (base_Int_part r). split; Lra.lra.
Qed.

Lemma Rtrunc_neg (r : R) :
  (r < 0)%R -> (r <= IZR (Rtrunc r) /\ IZR (Rtrunc r) - 1 < r)%R.
Proof.
  intro Hr. unfold Rtrunc. destruct (Rle_dec 0 r) as [H|_]; [Lra.lra|].
  rewrite opp_IZR. destruct (base_Int_part (- r)). split; Lra.lra.
Qed.

Lemma jsremR2_gt (n : R) : (-2 < jsremR n 2)%R.
Proof.
  unfold jsremR.
  destruct (Rlt_le_dec (n / 2) 0) as [Hn|Hn].
  - destruct (Rtrunc_neg _ Hn). Lra.lra.
  - destruct (Rtrunc_nonneg _ Hn). Lra.lra.
Qed.

Lemma jsremR2_nonneg (n : R) : (0 <= n)%R -> (0 <= jsremR n 2 < 2)%R.
Proof.
  intro Hn. unfold jsremR.
  assert (H0 : (0 <= n / 2)%R) by Lra.lra.
  destruct (Rtrunc_nonneg _ H0). split; Lra.lra.
Qed.

Lemma mod2R_range (n : R) : (0 <= mod2R n < 2)%R.
Proof.
  unfold mod2R. apply jsremR2_nonneg. pose proof (jsremR2_gt n). Lra.lra.
Qed.

Lemma mod2R_congruent (n : R) : exists k : Z, mod2R n = (n - 2 * IZR k)%R.
Proof.
  unfold mod2R, jsremR.
  set (a := Rtrunc (n / 2)).
  set (b := Rtrunc ((n - 2 * IZR a + 2) / 2)).
  exists (a + b + -1)%Z.
  rewrite !plus_IZR. Lra.lra.
Qed.

(** A number of [[0, 2)] that differs from [n] by an even integer is the
    double remainder of [n]. *)
Lemma mod2R_unique (n v : R) (k : Z) :
  (0 <= v < 2)%R -> n = (v + 2 * IZR k)%R -> mod2R n = v.
Proof.
  intros Hv Hn.
  destruct (mod2R_congruent n) as [j Hj].
  pose proof (mod2R_range n) as Hr.
  assert (E : (k - j)%Z = 0%Z).
  { assert (H1 : (IZR (-1) < IZR (k - j))%R) by (rewrite minus_IZR; Lra.lra).
    assert (H2 : (IZR (k - j) < IZR 1)%R) by (rewrite minus_IZR; Lra.lra).
    apply lt_IZR in H1, H2. lia. }
  assert (E' : IZR (k - j) = 0%R) by (rewrite E; reflexivity).
  rewrite minus_IZR in E'. Lra.lra.
Qed.

Lemma mod2R_periodic (n : R) (k : Z) : mod2R (n + 2 * IZR k) = mod2R n.
Proof.
  destruct (mod2R_congruent n) as [j Hj].
  apply (mod2R_unique _ _ (j + k)%Z); [apply mod2R_range|].
  rewrite Hj, plus_IZR. Lra.lra.
Qed.

Lemma mod2R_floor (n : R) : mod2R n = (n - 2 * IZR (Int_part (n / 2)))%R.
Proof.
  destruct (base_Int_part (n / 2)) as [F1 F2].
  apply (mod2R_unique _ _ (Int_part (n / 2))); Lra.lra.
Qed.


(** ** Bones and skinning *)

Section SkinningFacts.

Context {RK : RenderKit}.

Lemma js_get_out {A : Type} (arr : list A) (i : Z) :
  (i < 0 \/ Z.of_nat (List.length arr) <= i)%Z -> js_get arr i = None.
Proof.
  intros H. unfold js_get.
  destruct (i <? 0)%Z eqn:E; [reflexivity|].
  apply Z.ltb_ge in E. apply nth_error_None. lia.
Qed.

Lemma boneAt_out (skeleton : Skeleton) (i : Z) :
  (i < 0 \/ boneCount skeleton <= i)%Z -> boneAt skeleton i = None.
Proof.
  unfold boneAt, boneCount. destruct (bones skeleton) as [bs|]; [|reflexivity].
  intro H. unfold js_index. rewrite js_get_out by exact H. reflexivity.
Qed.

(** The result of [getBoneMatrix], case by case. *)
Lemma getBoneMatrix_cases (skeleton : Skeleton) (i : Z) :
  getBoneMatrix skeleton i =
  Ok match boneAt skeleton i, boneInverseAt skeleton i with
     | Some bone, Some inv =>
         match boneWorldOf bone with
         | Some w => multiply w inv
         | None => Matrix4_new
         end
     | _, _ => Matrix4_new
     end.
Proof.
  unfold getBoneMatrix.
  destruct ((i <? 0) || (i >? _))%Z eqn:E.
  - rewrite boneAt_out; [reflexivity|].
    apply orb_true_iff in E. unfold boneCount.
    destruct (bones skeleton); rewrite Z.ltb_lt, Z.gtb_lt in E; lia.
  - unfold boneAt, boneInverseAt, boneWorldOf.
    destruct (bones skeleton) as [bs|]; cbn [prop bind].
    + destruct (js_index bs i) as [bone|]; [|reflexivity].
      destruct (boneInverses skeleton) as [invs|]; [|reflexivity].
      destruct (js_index invs i); [|reflexivity].
      destruct (bone_matrixWorld bone); [reflexivity|].
      destruct (bone_getMatrixWorld bone); reflexivity.
    + apply orb_false_iff in E. rewrite Z.ltb_ge, Z.gtb_ltb, Z.ltb_ge in E. lia.
Qed.

(** C3. For every skeleton and every integer bone index, [getBoneMatrix]
    raises no error.  It returns the identity matrix when the index is
    negative, at or past the number of bones, or when the bone or its
    bind-pose inverse is missing; otherwise it returns the world matrix of
    the bone multiplied by the bind-pose inverse of that bone.  (A bone
    that is present without any world matrix, which the type of bones
    rules out, gives the identity too.) *)
Theorem getBoneMatrix_total (skeleton : Skeleton) (i : Z) :
  (exists m, getBoneMatrix skeleton i = Ok m) /\
  ((i < 0)%Z \/ (boneCount skeleton <= i)%Z \/
   boneAt skeleton i = None \/ boneInverseAt skeleton i = None ->
   getBoneMatrix skeleton i = Ok Matrix4_new) /\
  (forall bone inv w,
     boneAt skeleton i = Some bone ->
     boneInverseAt skeleton i = Some inv ->
     boneWorldOf bone = Some w ->
     getBoneMatrix skeleton i = Ok (multiply w inv)) /\
  (forall bone,
     boneAt skeleton i = Some bone ->
     boneWorldOf bone = None ->
     getBoneMatrix skeleton i = Ok Matrix4_new).
Proof.
  rewrite getBoneMatrix_cases. repeat split.
  - eexists. reflexivity.
  - intros [H | [H | [H | H]]].
    + rewrite boneAt_out by lia. reflexivity.
    + rewrite boneAt_out by lia. reflexivity.
    + rewrite H. reflexivity.
    + rewrite H. destruct (boneAt skeleton i); reflexivity.
  - intros bone inv w Hb Hi Hw. rewrite Hb, Hi, Hw. reflexivity.
  - intros bone Hb Hw. rewrite Hb, Hw.
    destruct (boneInverseAt skeleton i); reflexivity.
Qed.

Lemma foldM_app {A S : Type} (body : S -> A -> exn S) (l1 l2 : list A) (s : S) :
  foldM body (l1 ++ l2) s = (s' <- foldM body l1 s ;; foldM body l2 s').
Proof.
  revert s. induction l1 as [|a l1 IH]; intro s; cbn [foldM app bind].
  - reflexivity.
  - destruct (body s a) as [s'|e]; cbn [bind]; [apply IH|reflexivity].
Qed.

(** The skinning loop visits the influences of the vertex one by one. *)
Lemma skinning_loop (skeleton : Skeleton) (skinVert : Vec3) (vertexIndex : nat)
    (attrs : list BufferAttribute) (st : Vec3 * Q) :
  foldM (fun st skinAttr =>
           let boneIdx0 := Qfloor (skinAttr.(getX) vertexIndex) in
           let weight0 := decodeWeight (skinAttr.(getY) vertexIndex) in
           let boneIdx1 := Qfloor (skinAttr.(getZ) vertexIndex) in
           let weight1 := decodeWeight (skinAttr.(getW) vertexIndex) in
           st <- accumulate skeleton skinVert boneIdx0 weight0 st ;;
           accumulate skeleton skinVert boneIdx1 weight1 st)
        attrs st =
  foldM (fun st '(boneIdx, weight) => accumulate skeleton skinVert boneIdx weight st)
        (flat_map
           (fun skinAttr =>
              [ (Qfloor (skinAttr.(getX) vertexIndex),
                 decodeWeight (skinAttr.(getY) vertexIndex));
                (Qfloor (skinAttr.(getZ) vertexIndex),
                 decodeWeight (skinAttr.(getW) vertexIndex)) ])
           attrs) st.
Proof.
  revert st. induction attrs as [|a attrs IH]; intro st; [reflexivity|].
  cbn [foldM flat_map app bind].
  destruct (accumulate skeleton skinVert _ _ st) as [st1|e]; [|reflexivity].
  cbn [bind].
  destruct (accumulate skeleton skinVert _ _ st1) as [st2|e]; [|reflexivity].
  cbn [bind]. apply IH.
Qed.

(** Influences at or below the threshold leave the state as it is. *)
Lemma skinning_skips (skeleton : Skeleton) (skinVert : Vec3)
    (l : list (Z * Q)) (st : Vec3 * Q) :
  Forall (fun p => snd p <= 1 # 10000) l ->
  foldM (fun st '(boneIdx, weight) => accumulate skeleton skinVert boneIdx weight st)
        l st = Ok st.
Proof.
  induction 1 as [|[b w] l Hw _ IH]; [reflexivity|].
  cbn [foldM]. unfold accumulate at 1. destruct st as [skinned skinSum].
  cbn [snd] in Hw. apply Qltb_ge in Hw. rewrite Hw. cbn [bind]. exact IH.
Qed.

(** A single influence of weight 1 gives back the transformed vertex. *)
Lemma blend_one (t : Vec3) (w : Q) :
  w == 1 ->
  Qltb (1 # 10000) (0 + w) = true /\
  veq (divideScalar (addScaledVector (mkVertex 0 0 0) t w) (0 + w)) t.
Proof.
  intro Hw. split.
  - apply Qltb_lt. rewrite Hw. reflexivity.
  - unfold veq, divideScalar, addScaledVector; cbn [x y z].
    repeat split; rewrite Hw; field.
Qed.

(** C2, as the code has it.  For a skinned mesh and a vertex whose skin
    attributes decode to exactly one weight above the threshold [1e-4],
    that weight being 1 on bone [b], [skinVertexWithPosition] returns the
    input position moved into bind space, transformed by the skin matrix of
    bone [b] (world matrix times bind-pose inverse), and moved back out of
    bind space; the two moves happen only when the bind matrix is not the
    identity (within [1e-4]).  When the bind matrix is absent or the
    identity, the result is the input position transformed by the skin
    matrix of bone [b]. *)
Theorem skinVertex_single_bone (mesh : Mesh) (geom : BufferGeometry)
    (skel : Skeleton) (vertexIndex : nat) (px py pz : Q)
    (b : Z) (weight : Q) (before after : list (Z * Q))
    (bone : Bone) (inv world : Matrix4) :
  mesh.(geometry) = Some geom ->
  mesh.(skeleton) = Some skel ->
  influences geom vertexIndex = before ++ (b, weight) :: after ->
  weight == 1 ->
  Forall (fun p => snd p <= 1 # 10000) (before ++ after) ->
  boneAt skel b = Some bone ->
  boneInverseAt skel b = Some inv ->
  boneWorldOf bone = Some world ->
  exists r,
    skinVertexWithPosition mesh vertexIndex px py pz = Ok r /\
    veq r (fromBindSpace mesh
             (applyMatrix4 (toBindSpace mesh (mkVertex px py pz))
                           (multiply world inv))) /\
    (isIdentityMatrix mesh.(bindMatrix) = true ->
     veq r (applyMatrix4 (mkVertex px py pz) (multiply world inv))).
Proof.
  intros Hg Hs Hinf Hw Hsmall Hb Hi Hwd.
  apply Forall_app in Hsmall. destruct Hsmall as [Hpre Hpost].
  set (skinVert := toBindSpace mesh (mkVertex px py pz)).
  set (t := applyMatrix4 skinVert (multiply world inv)).
  assert (Hloop :
    foldM (fun st '(boneIdx, weight) => accumulate skel skinVert boneIdx weight st)
          (influences geom vertexIndex) (mkVertex 0 0 0, 0)
    = Ok (addScaledVector (mkVertex 0 0 0) t weight, 0 + weight)).
  { rewrite Hinf, foldM_app, (skinning_skips _ _ _ _ Hpre). cbn [bind foldM].
    unfold accumulate at 1.
    assert (L : Qltb (1 # 10000) weight = true).
    { apply Qltb_lt. rewrite Hw. reflexivity. }
    rewrite L, getBoneMatrix_cases, Hb, Hi, Hwd. cbn [bind].
    apply (skinning_skips _ _ _ _ Hpost). }
  destruct (blend_one t weight Hw) as [Hsum Hblend].
  assert (Hne : skinAttributes geom <> []).
  { intro E. unfold influences in Hinf. rewrite E in Hinf. cbn in Hinf.
    destruct before; discriminate. }
  assert (Hrun : skinVertexWithPosition mesh vertexIndex px py pz =
                 Ok (fromBindSpace mesh
                       (divideScalar (addScaledVector (mkVertex 0 0 0) t weight)
                                     (0 + weight)))).
  { unfold skinVertexWithPosition. rewrite Hg, Hs. cbn [prop bind].
    fold (skinAttributes geom).
    destruct (skinAttributes geom) as [|a attrs] eqn:Ha; [congruence|].
    rewrite skinning_loop. rewrite <- Ha.
    change (flat_map _ (skinAttributes geom)) with (influences geom vertexIndex).
    assert (Hv : match bindMatrix mesh with
                 | Some m => if negb (isIdentityMatrix (bindMatrix mesh))
                             then applyMatrix4 (mkVertex px py pz) m
                             else mkVertex px py pz
                 | None => mkVertex px py pz
                 end = skinVert).
    { unfold skinVert, toBindSpace.
      destruct (bindMatrix mesh); [|reflexivity].
      destruct (isIdentityMatrix _); reflexivity. }
    rewrite Hv, Hloop. cbn [bind]. rewrite Hsum.
    unfold fromBindSpace.
    destruct (bindMatrixInverse mesh); [|reflexivity].
    destruct (isIdentityMatrix _); reflexivity. }
  eexists. split; [exact Hrun|]. split.
  - unfold fromBindSpace.
    destruct (bindMatrixInverse mesh); [|exact Hblend].
    destruct (isIdentityMatrix _); [exact Hblend|].
    apply applyMatrix4_veq. exact Hblend.
  - intro Hid. unfold fromBindSpace. rewrite Hid.
    assert (E : t = applyMatrix4 (mkVertex px py pz) (multiply world inv)).
    { unfold t, skinVert, toBindSpace. rewrite Hid.
      destruct (bindMatrix mesh); reflexivity. }
    rewrite <- E.
    destruct (bindMatrixInverse mesh); exact Hblend.
Qed.

End SkinningFacts.

Lemma getBoneMatrix_total_witness :
  getBoneMatrix oneBone 0 = Ok (multiply scale2 Three.identity) /\
  getBoneMatrix oneBone 1 = Ok Matrix4_new.
Proof.
  destruct (getBoneMatrix_total oneBone 0) as (_ & _ & H & _).
  destruct (getBoneMatrix_total oneBone 1) as (_ & K & _).
  split.
  - apply (H bone2); reflexivity.
  - apply K. right. left. cbn. lia.
Defined.

Lemma skinVertex_single_bone_witness :
  exists r,
    skinVertexWithPosition shiftedMesh 0 1 0 0 = Ok r /\
    veq r (mkVertex 3 0 0).
Proof.
  destruct (skinVertex_single_bone shiftedMesh skinGeometry oneBone 0 1 0 0
              0%Z (decodeWeight 1) [] [(0%Z, decodeWeight 0)]
              bone2 Three.identity scale2) as (r & Hr & Hv & _).
  - reflexivity.
  - reflexivity.
  - reflexivity.
  - vm_compute. reflexivity.
  - repeat constructor. vm_compute. discriminate.
  - reflexivity.
  - reflexivity.
  - reflexivity.
  - exists r. split; [exact Hr|].
    etransitivity; [exact Hv|]. vm_compute. repeat split; reflexivity.
Defined.

(** C2 as stated fails: with a bind matrix that is not the identity, the
    vertex at (1, 0, 0) with weight 1 on bone 0 comes out at (3, 0, 0),
    while the skin matrix of bone 0 alone sends it to (2, 0, 0). *)
Lemma skinVertex_bind_matrix_matters :
  influences skinGeometry 0 = [(0%Z, decodeWeight 1); (0%Z, decodeWeight 0)] /\
  decodeWeight 1 == 1 /\ decodeWeight 0 <= 1 # 10000 /\
  boneAt oneBone 0 = Some bone2 /\
  boneInverseAt oneBone 0 = Some Three.identity /\
  boneWorldOf bone2 = Some scale2 /\
  exists r,
    skinVertexWithPosition shiftedMesh 0 1 0 0 = Ok r /\
    veq (applyMatrix4 (mkVertex 1 0 0) (multiply scale2 Three.identity))
        (mkVertex 2 0 0) /\
    ~ veq r (applyMatrix4 (mkVertex 1 0 0) (multiply scale2 Three.identity)).
Proof.
  split; [reflexivity|].
  split; [vm_compute; reflexivity|].
  split; [vm_compute; discriminate|].
  split; [reflexivity|]. split; [reflexivity|]. split; [reflexivity|].
  eexists. split; [vm_compute; reflexivity|].
  split.
  - vm_compute. repeat split; reflexivity.
  - vm_compute. intros (H & _). discriminate.
Qed.

(** ** Scene query *)

(** [s.startsWith (p)] holds when [s] is [p] followed by something. *)
Lemma startsWith_spec (s p : string) :
  startsWith s p = true <-> exists rest, s = (p ++ rest)%string.
Proof.
  revert s. induction p as [|c p IH]; intro s; cbn [startsWith].
  - split; [intros _; exists s; reflexivity|reflexivity].
  - destruct s as [|d s].
    + split; [discriminate|intros [rest H]; discriminate].
    + rewrite andb_true_iff, Ascii.eqb_eq, IH. split.
      * intros [<- [rest H]]. exists rest. cbn. rewrite H. reflexivity.
      * intros [rest H]. cbn in H. injection H as H1 H2. split; [congruence|].
        exists rest. exact H2.
Qed.

(** [s.includes (sub)] holds when [sub] occurs somewhere in [s]. *)
Lemma includes_spec (s sub : string) :
  includes s sub = true <-> exists pre post, s = (pre ++ sub ++ post)%string.
Proof.
  induction s as [|c s IH]; cbn [includes]; rewrite orb_true_iff, startsWith_spec.
  - split.
    + intros [[rest H] | H]; [|discriminate]. exists EmptyString, rest. exact H.
    + intros (pre & post & H). left. destruct pre; [|discriminate].
      exists post. exact H.
  - rewrite IH. split.
    + intros [[rest H] | (pre & post & H)].
      * exists EmptyString, rest. exact H.
      * exists (String c pre), post. cbn. rewrite H. reflexivity.
    + intros (pre & post & H). destruct pre as [|d pre].
      * left. exists post. exact H.
      * right. cbn in H. injection H as _ H. exists pre, post. exact H.
Qed.

Section SceneQueryFacts.

Context {RK : RenderKit}.

(** Induction on a mesh with its children. *)
Lemma Mesh_induction (P : Mesh -> Prop) :
  (forall a b c d e f g h i j children,
     Forall P children -> P (mkMesh a b c d e f g h i j children)) ->
  forall m, P m.
Proof.
  intro step.
  refine (fix go (m : Mesh) : P m := _).
  destruct m as [a b c d e f g h i j children].
  apply step.
  induction children as [|child cs IH]; constructor; [apply go|exact IH].
Qed.

Lemma route_nil (acc : CollectedMeshes) : route [] acc = acc.
Proof.
  destruct acc. unfold route. cbn. rewrite !app_nil_r. reflexivity.
Qed.

Lemma route_app (l1 l2 : list (string * Mesh)) (acc : CollectedMeshes) :
  route (l1 ++ l2) acc = route l2 (route l1 acc).
Proof.
  unfold route. cbn [characterMeshes baseMeshes].
  rewrite !filter_app, !map_app, !app_assoc. reflexivity.
Qed.

Lemma collectRecursive_eq (object : Mesh) (slotName : option string)
    (acc : CollectedMeshes) :
  collectRecursive object slotName acc =
  fold_left
    (fun acc child =>
       if negb (String.eqb child.(name) "facePads")
          && negb (String.eqb child.(name) "_debugPass")
       then collectRecursive child slotName acc
       else acc)
    object.(children)
    (if (object.(isMesh) || object.(isSkinnedMesh)) && shouldIncludeMesh object slotName
     then
       if isBaseMesh slotName (Some object.(name))
       then mkCollectedMeshes acc.(characterMeshes) (acc.(baseMeshes) ++ [object])
       else mkCollectedMeshes (acc.(characterMeshes) ++ [object]) acc.(baseMeshes)
     else acc).
Proof. destruct object. reflexivity. Qed.

Lemma visited_eq (object : Mesh) :
  visited object =
  object :: flat_map (fun child => if sentinel child then [] else visited child)
                     object.(children).
Proof. destruct object. reflexivity. Qed.

Lemma route_one (slotName : string) (object : Mesh) (acc : CollectedMeshes) :
  route [(slotName, object)] acc =
  if (object.(isMesh) || object.(isSkinnedMesh)) && shouldIncludeMesh object (Some slotName)
  then
    if isBaseMesh (Some slotName) (Some object.(name))
    then mkCollectedMeshes acc.(characterMeshes) (acc.(baseMeshes) ++ [object])
    else mkCollectedMeshes (acc.(characterMeshes) ++ [object]) acc.(baseMeshes)
  else acc.
Proof.
  unfold route. cbn [filter qualifies].
  destruct ((isMesh object || isSkinnedMesh object) && _); cbn [filter map].
  - unfold routedToBase.
    destruct (isBaseMesh _ _); cbn [negb filter map snd]; rewrite app_nil_r;
      reflexivity.
  - rewrite !app_nil_r. destruct acc; reflexivity.
Qed.

Lemma children_route (slotName : string) (cs : list Mesh) :
  Forall (fun m => forall acc,
            collectRecursive m (Some slotName) acc =
            route (map (pair slotName) (visited m)) acc) cs ->
  forall acc,
    fold_left
      (fun acc child =>
         if negb (String.eqb child.(name) "facePads")
            && negb (String.eqb child.(name) "_debugPass")
         then collectRecursive child (Some slotName) acc
         else acc)
      cs acc =
    route (map (pair slotName)
               (flat_map (fun child => if sentinel child then [] else visited child) cs))
          acc.
Proof.
  induction 1 as [|child cs Hchild _ IHcs]; intro acc.
  - cbn. rewrite route_nil. reflexivity.
  - cbn [fold_left flat_map]. rewrite map_app, route_app, <- IHcs. f_equal.
    unfold sentinel. rewrite <- negb_orb.
    destruct (String.eqb (name child) "facePads" || String.eqb (name child) "_debugPass");
      cbn [negb].
    + cbn. rewrite route_nil. reflexivity.
    + apply Hchild.
Qed.

Lemma collectRecursive_route (slotName : string) (object : Mesh) :
  forall acc,
    collectRecursive object (Some slotName) acc =
    route (map (pair slotName) (visited object)) acc.
Proof.
  induction object as [a b c d e f g h i j cs IH] using Mesh_induction.
  intro acc.
  rewrite collectRecursive_eq, visited_eq. cbn [map].
  change (?n :: ?l) with ([n] ++ l). rewrite route_app, route_one.
  apply children_route. exact IH.
Qed.

Lemma collectMeshes_route (entries : list (string * option Mesh)) :
  collectMeshes (mkCK (Some (mkDisplay (Some entries)))) =
  route (slotNodes entries) (mkCollectedMeshes [] []).
Proof.
  unfold collectMeshes. cbn [activeDisplay meshes].
  generalize (mkCollectedMeshes [] []) as acc.
  induction entries as [|[slotName mesh] entries IH]; intro acc.
  - cbn. rewrite route_nil. reflexivity.
  - cbn [fold_left slotNodes flat_map]. rewrite route_app, IH. f_equal.
    destruct mesh as [mesh|]; [|rewrite route_nil; reflexivity].
    destruct (startsWith slotName "_"); [rewrite route_nil; reflexivity|].
    apply collectRecursive_route.
Qed.

End SceneQueryFacts.

(** C9. Every node that qualifies for inclusion is routed to [baseMeshes]
    if and only if its slot name or its own name starts with "base" or
    contains "pedestal", case-insensitively, and to [characterMeshes]
    otherwise, both in traversal order; and the scene with a visible mesh
    "Pedestal" under slot "base_01" and a visible skinned mesh "Torso"
    under slot "body" yields [baseMeshes = [Pedestal]] and
    [characterMeshes = [Torso]]. *)
Theorem collectMeshes_classification :
  (forall (RK : RenderKit) (entries : list (string * option Mesh)),
     let collected := collectMeshes (mkCK (Some (mkDisplay (Some entries)))) in
     let qualifying := filter qualifies (slotNodes entries) in
     collected.(baseMeshes) = map snd (filter routedToBase qualifying) /\
     collected.(characterMeshes) =
       map snd (filter (fun n => negb (routedToBase n)) qualifying)) /\
  (forall (RK : RenderKit) (slotName : string) (object : Mesh),
     routedToBase (slotName, object) = true <->
     (exists rest, toLowerCase slotName = ("base" ++ rest)%string) \/
     (exists rest, toLowerCase object.(name) = ("base" ++ rest)%string) \/
     (exists pre post, toLowerCase slotName = (pre ++ "pedestal" ++ post)%string) \/
     (exists pre post, toLowerCase object.(name) = (pre ++ "pedestal" ++ post)%string)) /\
  baseMeshes (collectMeshes scenario) = [Pedestal] /\
  characterMeshes (collectMeshes scenario) = [Torso].
Proof.
  split; [|split; [|split]].
  - intros RK entries collected qualifying. subst collected qualifying.
    rewrite collectMeshes_route. unfold route. cbn [baseMeshes characterMeshes app].
    split; reflexivity.
  - intros RK slotName object. unfold routedToBase, isBaseMesh. cbn [orEmpty].
    rewrite !orb_true_iff, !startsWith_spec, !includes_spec. tauto.
  - reflexivity.
  - reflexivity.
Qed.

(** ** Triangle assembler *)

Section AssemblerFacts.

Context {RK : RenderKit}.

Lemma addTriangle_candidate (positions : list Q) (i0 i1 i2 : option Z)
    (tris : list Triangle) (skipped : nat) :
  let c := (getVertex positions i0, getVertex positions i1, getVertex positions i2) in
  addTriangle positions i0 i1 i2 (tris, skipped) =
  if validCandidate c then (tris ++ [triangleOf c], skipped)
  else (tris, S skipped).
Proof.
  cbn zeta. unfold addTriangle, validCandidate, triangleOf.
  destruct (isValidVertex (getVertex positions i0));
    destruct (isValidVertex (getVertex positions i1));
    destruct (isValidVertex (getVertex positions i2)); reflexivity.
Qed.

Lemma keep_nil (st : list Triangle * nat) : keep [] st = st.
Proof.
  destruct st as [tris skipped]. unfold keep. cbn.
  rewrite app_nil_r, Nat.add_0_r. reflexivity.
Qed.

Lemma keep_app (cs1 cs2 : list Candidate) (st : list Triangle * nat) :
  keep (cs1 ++ cs2) st = keep cs2 (keep cs1 st).
Proof.
  unfold keep. cbn [fst snd].
  rewrite !filter_app, map_app, length_app, app_assoc, Nat.add_assoc. reflexivity.
Qed.

Lemma keep_cons (c : Candidate) (cs : list Candidate) (st : list Triangle * nat) :
  keep (c :: cs) st =
  keep cs (if validCandidate c then (fst st ++ [triangleOf c], snd st)
           else (fst st, S (snd st))).
Proof.
  change (c :: cs) with ([c] ++ cs). rewrite keep_app. f_equal.
  unfold keep. cbn [filter]. destruct (validCandidate c); cbn.
  - rewrite Nat.add_0_r. reflexivity.
  - rewrite app_nil_r, Nat.add_1_r. reflexivity.
Qed.

Lemma addGeometry_keep (g : ExtractedGeometry) (st : list Triangle * nat) :
  addGeometry g st = keep (candidates g) st.
Proof.
  unfold addGeometry, candidates.
  destruct (indices g) as [ind|].
  - generalize (byThree (List.length ind)) as idxs. intro idxs. revert st.
    induction idxs as [|i idxs IH]; intro st; [rewrite keep_nil; reflexivity|].
    cbn [fold_left map]. rewrite keep_cons, IH. f_equal.
    destruct st as [tris skipped]. apply addTriangle_candidate.
  - generalize (filter (fun i => (3 * i <? Z.of_nat (List.length (positions g)))%Z)
                       (byThree (List.length (positions g)))) as idxs.
    intro idxs. revert st.
    induction idxs as [|i idxs IH]; intro st; [rewrite keep_nil; reflexivity|].
    cbn [fold_left map]. rewrite keep_cons, IH. f_equal.
    destruct st as [tris skipped]. apply addTriangle_candidate.
Qed.

Lemma collectTriangles_extractAll (meshes : list Mesh) (st : list Triangle * nat) :
  foldM (fun st mesh => g <- extractMeshGeometry mesh ;; Ok (addGeometry g st))
        meshes st =
  (gs <- extractAll meshes ;; Ok (keep (flat_map candidates gs) st)).
Proof.
  revert st. induction meshes as [|mesh meshes IH]; intro st; cbn [foldM extractAll bind].
  - cbn. rewrite keep_nil. reflexivity.
  - destruct (extractMeshGeometry mesh) as [g|e]; cbn [bind]; [|reflexivity].
    rewrite IH. destruct (extractAll meshes) as [gs|e]; cbn [bind]; [|reflexivity].
    cbn [flat_map]. rewrite keep_app, addGeometry_keep. reflexivity.
Qed.

Lemma abs_lt_false (c : option Q) (bound : Q) :
  abs_lt c bound = false <->
  match c with
  | None => True
  | Some q => bound <= Qabs q
  end.
Proof.
  destruct c as [q|]; cbn [abs_lt]; [apply Qltb_ge|tauto].
Qed.

(** A candidate fails the check exactly when one of its nine coordinates is
    missing or is 100 or more in magnitude. *)
Lemma validCandidate_false (c : Candidate) :
  validCandidate c = false <->
  Exists (fun co => match co with
                    | None => True
                    | Some q => 100 <= Qabs q
                    end) (coordinates c).
Proof.
  destruct c as [[[a1 a2 a3] [b1 b2 b3]] [c1 c2 c3]].
  unfold validCandidate, isValidVertex, coordinates; cbn [raw_x raw_y raw_z].
  rewrite !andb_false_iff, !abs_lt_false, !Exists_cons, Exists_nil. tauto.
Qed.

(** A candidate that passes the check has nine coordinates below 100 in
    magnitude, and they are the coordinates of the triangle pushed. *)
Lemma validCandidate_true (c : Candidate) :
  validCandidate c = true ->
  Forall (fun co => exists q, co = Some q /\ Qabs q < 100) (coordinates c) /\
  coordinates c =
  map Some [ (triangleOf c).(v1).(x); (triangleOf c).(v1).(y); (triangleOf c).(v1).(z);
             (triangleOf c).(v2).(x); (triangleOf c).(v2).(y); (triangleOf c).(v2).(z);
             (triangleOf c).(v3).(x); (triangleOf c).(v3).(y); (triangleOf c).(v3).(z) ].
Proof.
  destruct c as [[[a1 a2 a3] [b1 b2 b3]] [c1 c2 c3]].
  unfold validCandidate, isValidVertex, coordinates, triangleOf, vertexOf;
    cbn [raw_x raw_y raw_z v1 v2 v3 x y z map].
  rewrite !andb_true_iff.
  intros [[[[H1 H2] H3] [[H4 H5] H6]] [[H7 H8] H9]].
  destruct a1, a2, a3, b1, b2, b3, c1, c2, c3; try discriminate.
  cbn [abs_lt] in *. rewrite Qltb_lt in *.
  split; [|reflexivity].
  repeat constructor; eexists; (split; [reflexivity|assumption]).
Qed.


End AssemblerFacts.


(** The size test on an extracted geometry:
    of two indexed triangles, the one with a coordinate of 250 is dropped
    and counted once. *)
Example addGeometry_drops_out_of_range :
  addGeometry twoTriangles ([], 0%nat) =
  ([mkTriangle (mkVertex 0 0 0) (mkVertex 1 0 0) (mkVertex 0 1 0)], 1%nat).
Proof. vm_compute. reflexivity. Qed.


(** ** The coordinate transform *)

(** A loop of assignments [v := f (v)] over distinct references changes
    exactly the objects it visits, each once. *)
Lemma assign_loop (f : Vertex -> Vertex) (refs : list ref) :
  NoDup refs ->
  forall (h : Heap) (r : ref),
    (In r refs -> fold_left (fun h v => assign h v (f (h v))) refs h r = f (h r)) /\
    (~ In r refs -> fold_left (fun h v => assign h v (f (h v))) refs h r = h r).
Proof.
  induction 1 as [|a refs Ha _ IH]; intros h r; cbn [fold_left].
  - split; [intros []|reflexivity].
  - destruct (IH (assign h a (f (h a))) r) as [IHin IHout].
    destruct (Nat.eq_dec r a) as [->|Hne].
    + split; [intros _|intros Hn; exfalso; apply Hn; left; reflexivity].
      rewrite IHout by exact Ha. unfold assign. rewrite Nat.eqb_refl. reflexivity.
    + assert (E : assign h a (f (h a)) r = h r).
      { unfold assign. apply Nat.eqb_neq in Hne. rewrite Hne. reflexivity. }
      split.
      * intros [Heq|Hin]; [congruence|]. rewrite IHin by exact Hin. rewrite E.
        reflexivity.
      * intros Hn. rewrite IHout; [exact E|]. intro Hin. apply Hn. right. exact Hin.
Qed.

(** The loop that computes [minZ] reads the heap and leaves it alone. *)
Lemma minZ_loop (h : Heap) (refs : list ref) (start : option Q) :
  fold_left
    (fun minZ v =>
       match minZ with
       | None => Some (h v).(z)
       | Some m => Some (Qmin m (h v).(z))
       end)
    refs start =
  fold_left
    (fun minZ z =>
       match minZ with
       | None => Some z
       | Some m => Some (Qmin m z)
       end)
    (map (fun v => (h v).(z)) refs) start.
Proof.
  revert start. induction refs as [|a refs IH]; intro start; [reflexivity|].
  cbn [fold_left map]. apply IH.
Qed.

Lemma least_from (zs : list Q) (m0 : Q) :
  exists m,
    fold_left
      (fun minZ z =>
         match minZ with
         | None => Some z
         | Some m => Some (Qmin m z)
         end)
      zs (Some m0) = Some m /\
    m <= m0 /\
    Forall (fun z => m <= z) zs /\
    (m == m0 \/ Exists (fun z => z == m) zs).
Proof.
  revert m0. induction zs as [|z zs IH]; intro m0; cbn [fold_left].
  - exists m0. repeat split; [apply Qle_refl|constructor|left; reflexivity].
  - destruct (IH (Qmin m0 z)) as (m & Hm & Hle & Hall & Hex).
    exists m. split; [exact Hm|].
    pose proof (Q.le_min_l m0 z) as L1. pose proof (Q.le_min_r m0 z) as L2.
    split; [eapply Qle_trans; eassumption|].
    split; [constructor; [eapply Qle_trans; eassumption|exact Hall]|].
    destruct Hex as [Hex|Hex]; [|right; right; exact Hex].
    destruct (Q.min_dec m0 z) as [E|E]; rewrite E in Hex.
    + left. exact Hex.
    + right. left. symmetry. exact Hex.
Qed.

(** [least] of a non-empty list is a lower bound that the list attains. *)
Lemma least_spec (zs : list Q) :
  zs <> [] ->
  exists m,
    least zs = Some m /\ Forall (fun z => m <= z) zs /\ Exists (fun z => z == m) zs.
Proof.
  destruct zs as [|z zs]; [congruence|]. intros _.
  unfold least. cbn [fold_left].
  destruct (least_from zs z) as (m & Hm & Hle & Hall & Hex).
  exists m. split; [exact Hm|]. split; [constructor; assumption|].
  destruct Hex as [Hex|Hex]; [left; symmetry; exact Hex|right; exact Hex].
Qed.

Lemma least_nil_iff (zs : list Q) : least zs = None <-> zs = [].
Proof.
  split; [|intros ->; reflexivity].
  destruct zs as [|z zs]; [reflexivity|].
  unfold least. cbn [fold_left].
  destruct (least_from zs z) as (m & Hm & _). rewrite Hm. discriminate.
Qed.

(** [transformTriangles] on a heap: when no vertex object is shared between
    two vertex slots, every vertex of the triangles is remapped and moved
    once, and every other object is left as it was. *)
Lemma transformTriangles_heap (triangles : list TriangleObj) (scale : Q) (h : Heap) :
  NoDup (vertexRefs triangles) ->
  match least (map (fun v => (remap scale (h v)).(z)) (vertexRefs triangles)) with
  | None => forall r, transformTriangles triangles scale h r = h r
  | Some minZ =>
      forall r,
        (In r (vertexRefs triangles) ->
         transformTriangles triangles scale h r
         = moveZ (- minZ + (5 # 2)) (remap scale (h r))) /\
        (~ In r (vertexRefs triangles) ->
         transformTriangles triangles scale h r = h r)
  end.
Proof.
  intro Hnd. unfold transformTriangles.
  set (refs := vertexRefs triangles) in *. cbv zeta.
  match goal with
  | |- context [fold_left ?f refs h] => set (h1 := fold_left f refs h)
  end.
  assert (H1 : forall r, (In r refs -> h1 r = remap scale (h r)) /\
                         (~ In r refs -> h1 r = h r)).
  { intro r. exact (assign_loop (remap scale) refs Hnd h r). }
  rewrite minZ_loop.
  assert (Hz : map (fun v => (h1 v).(z)) refs
               = map (fun v => (remap scale (h v)).(z)) refs).
  { apply map_ext_in. intros r Hr. rewrite (proj1 (H1 r) Hr). reflexivity. }
  rewrite Hz. fold (least (map (fun v => (remap scale (h v)).(z)) refs)).
  destruct (least _) as [minZ|] eqn:E.
  - intro r.
    destruct (assign_loop (moveZ (- minZ + (5 # 2))) refs Hnd h1 r) as [Hin Hout].
    split; intro Hr.
    + etransitivity; [exact (Hin Hr)|]. rewrite (proj1 (H1 r) Hr). reflexivity.
    + etransitivity; [exact (Hout Hr)|]. exact (proj2 (H1 r) Hr).
  - intro r. apply least_nil_iff in E. apply map_eq_nil in E.
    apply (proj2 (H1 r)). rewrite E. intros [].
Qed.

Lemma vertexRefs_fresh (n k : nat) :
  vertexRefs (map freshTriangle (seq k n))
  = seq (3 * k) (3 * n).
Proof.
  revert k. induction n as [|n IH]; intro k; [reflexivity|].
  replace (3 * S n)%nat with (S (S (S (3 * n)))) by lia.
  cbn [seq map vertexRefs flat_map app o1 o2 o3 freshTriangle].
  change (flat_map (fun tri => [o1 tri; o2 tri; o3 tri]) ?l) with (vertexRefs l).
  rewrite IH.
  replace (3 * k + 1)%nat with (S (3 * k)) by lia.
  replace (3 * k + 2)%nat with (S (S (3 * k))) by lia.
  replace (3 * S k)%nat with (S (S (S (3 * k)))) by lia.
  reflexivity.
Qed.

Lemma flatten_map (f : Vertex -> Vertex) (l : list Triangle) :
  flatten (map (mapTriangle f) l) = map f (flatten l).
Proof.
  induction l as [|t l IH]; [reflexivity|].
  cbn [map flatten flat_map app]. fold (flatten (map (mapTriangle f) l)).
  change (flat_map (fun tri => [v1 tri; v2 tri; v3 tri]) ?l) with (flatten l).
  rewrite IH. reflexivity.
Qed.

Lemma flatten_length (l : list Triangle) : List.length (flatten l) = (3 * List.length l)%nat.
Proof.
  induction l as [|t l IH]; [reflexivity|].
  cbn [flatten flat_map app List.length]. fold (flatten l).
  change (flat_map (fun tri => [v1 tri; v2 tri; v3 tri]) l) with (flatten l).
  rewrite IH. lia.
Qed.

(** Reading fresh triangle objects back from a heap that holds [F] of the
    vertices laid out in order. *)
Lemma read_back (F : Vertex -> Vertex) (d : Vertex) (l : list Triangle) :
  forall (k : nat) (H : Heap),
    (forall j, (j < 3 * List.length l)%nat -> H (3 * k + j)%nat = F (nth j (flatten l) d)) ->
    readTriangles
      (map freshTriangle (seq k (List.length l))) H
    = map (mapTriangle F) l.
Proof.
  induction l as [|t l IH]; intros k H Hh; [reflexivity|].
  cbn [List.length seq map readTriangles o1 o2 o3 freshTriangle].
  change (map (fun tri => mkTriangle (H (o1 tri)) (H (o2 tri)) (H (o3 tri))) ?o)
    with (readTriangles o H).
  f_equal.
  - unfold mapTriangle.
    pose proof (Hh 0%nat) as H0. pose proof (Hh 1%nat) as H1. pose proof (Hh 2%nat) as H2.
    cbn [List.length] in H0, H1, H2.
    rewrite Nat.add_0_r in H0.
    rewrite H0, H1, H2 by lia. reflexivity.
  - apply IH. intros j Hj.
    replace (3 * S k + j)%nat with (3 * k + (3 + j))%nat by lia.
    rewrite Hh by (cbn [List.length]; lia). reflexivity.
Qed.

Lemma map_nth_all {A B : Type} (f : A -> B) (l : list A) (d : A) :
  map (fun i => f (nth i l d)) (seq 0 (List.length l)) = map f l.
Proof.
  rewrite <- (map_map (fun i => nth i l d) f). f_equal.
  apply nth_ext with (d := d) (d' := d).
  - rewrite length_map, length_seq. reflexivity.
  - intros n Hn. rewrite length_map, length_seq in Hn.
    rewrite (nth_indep _ _ (nth 0 l d)) by (rewrite length_map, length_seq; exact Hn).
    change (nth 0 l d) with ((fun i => nth i l d) 0%nat).
    rewrite map_nth, seq_nth by exact Hn. reflexivity.
Qed.

(** [transformTriangles] on triangles that own their vertices: every
    vertex is remapped and moved by the same offset. *)
Lemma transformOwned_map (triangles : list Triangle) (scale : Q) :
  match least (map z (flatten (map (mapTriangle (remap scale)) triangles))) with
  | Some minZ =>
      transformOwned triangles scale
      = map (mapTriangle (fun v => moveZ (- minZ + (5 # 2)) (remap scale v))) triangles
  | None => triangles = []
  end.
Proof.
  unfold transformOwned, allocate.
  set (objs := map _ (seq 0 (List.length triangles))).
  set (h := fun r => nth r (flatten triangles) (mkVertex 0 0 0)).
  assert (Hrefs : vertexRefs objs = seq 0 (List.length (flatten triangles))).
  { unfold objs. rewrite vertexRefs_fresh, flatten_length. reflexivity. }
  pose proof (transformTriangles_heap objs scale h) as Hheap.
  rewrite Hrefs in Hheap. specialize (Hheap (seq_NoDup _ _)).
  assert (Hzs : map (fun v : ref => (remap scale (h v)).(z))
                    (seq 0 (List.length (flatten triangles)))
                = map z (flatten (map (mapTriangle (remap scale)) triangles))).
  { rewrite flatten_map, map_map.
    apply (map_nth_all (fun v => (remap scale v).(z))). }
  rewrite Hzs in Hheap.
  destruct (least _) as [minZ|] eqn:E.
  - apply (read_back _ (mkVertex 0 0 0)). intros j Hj.
    rewrite Nat.mul_0_r, Nat.add_0_l.
    apply (proj1 (Hheap j)). apply in_seq. rewrite flatten_length. lia.
  - apply least_nil_iff in E. apply map_eq_nil in E.
    destruct triangles; [reflexivity|discriminate E].
Qed.

(** The same on the heap: with at least one triangle and no vertex object
    shared between two slots, every vertex is remapped and moved once, and
    the lowest vertex ends at 2.5. *)
Lemma transformTriangles_heap_ground (triangles : list TriangleObj) (s : Q) (h : Heap) :
  triangles <> [] ->
  NoDup (vertexRefs triangles) ->
  exists minZ,
    let refs := vertexRefs triangles in
    let h' := transformTriangles triangles s h in
    Forall (fun r => minZ <= (remap s (h r)).(z)) refs /\
    Exists (fun r => (remap s (h r)).(z) == minZ) refs /\
    (forall r, In r refs -> h' r = moveZ (- minZ + (5 # 2)) (remap s (h r))) /\
    (forall r, ~ In r refs -> h' r = h r) /\
    Forall (fun r => 5 # 2 <= (h' r).(z)) refs /\
    Exists (fun r => (h' r).(z) == 5 # 2) refs.
Proof.
  intros Hne Hnd.
  pose proof (transformTriangles_heap triangles s h Hnd) as Hheap.
  destruct (least_spec (map (fun v => (remap s (h v)).(z)) (vertexRefs triangles)))
    as (minZ & Hleast & Hall & Hex).
  { destruct triangles as [|t triangles]; [congruence|discriminate]. }
  rewrite Hleast in Hheap.
  apply (proj1 (Forall_map _ _ _)) in Hall. apply Exists_map in Hex.
  exists minZ. cbv zeta.
  split; [exact Hall|]. split; [exact Hex|].
  split; [intros r Hr; exact (proj1 (Hheap r) Hr)|].
  split; [intros r Hr; exact (proj2 (Hheap r) Hr)|].
  split.
  - apply Forall_forall. intros r Hr. rewrite (proj1 (Hheap r) Hr).
    pose proof (proj1 (Forall_forall _ _) Hall r Hr) as Hle.
    cbn [moveZ z] in *. lra.
  - apply Exists_exists in Hex. destruct Hex as (r & Hr & Heq).
    apply Exists_exists. exists r. split; [exact Hr|].
    rewrite (proj1 (Hheap r) Hr). cbn [moveZ z] in *. lra.
Qed.



(** With a vertex object shared between two slots the transform reaches
    it twice: here the shared vertex is moved up twice, and the lowest
    vertex of the triangle ends at 5, not at 2.5. *)
Example transformTriangles_shared_vertex :
  let h : Heap := fun _ => mkVertex 0 1 0 in
  let h' := transformTriangles [mkTriangleObj 0%nat 0%nat 1%nat] 10 h in
  (h' 0%nat).(z) == 5 /\ (h' 1%nat).(z) == 25 # 2.
Proof.
  cbv zeta. split; vm_compute; reflexivity.
Qed.

(** ** Buffers *)

Lemma Z_of_byte_of_Z (v : Z) : Z_of_byte (byte_of_Z v) = (v mod 256)%Z.
Proof.
  unfold Z_of_byte, byte_of_Z.
  assert (R : (0 <= v mod 256 < 256)%Z) by (apply Z.mod_pos_bound; lia).
  destruct (Byte.of_N (Z.to_N (v mod 256))) as [b|] eqn:E.
  - apply Byte.to_of_N in E. rewrite E. apply Z2N.id. lia.
  - apply Byte.of_N_None_iff in E. lia.
Qed.

Lemma byte_of_Z_of_byte (b : byte) : byte_of_Z (Z_of_byte b) = b.
Proof.
  unfold byte_of_Z, Z_of_byte.
  pose proof (Byte.to_N_bounded b) as Hb.
  rewrite Z.mod_small by lia. rewrite N2Z.id, Byte.of_to_N. reflexivity.
Qed.

Lemma set_bytes_fill (done rest source : list byte) (offset : nat) :
  offset = List.length done ->
  (List.length source <= List.length rest)%nat ->
  set_bytes (done ++ rest) offset source
  = Ok (done ++ source ++ skipn (List.length source) rest).
Proof.
  intros -> Hlen. unfold set_bytes.
  rewrite length_app.
  destruct (Nat.leb_spec (List.length done + List.length source)
                         (List.length done + List.length rest)) as [_|H]; [|lia].
  rewrite firstn_app, Nat.sub_diag, firstn_all, firstn_O, app_nil_r.
  rewrite skipn_app, skipn_all2 by lia.
  replace (List.length done + List.length source - List.length done)%nat
    with (List.length source) by lia.
  reflexivity.
Qed.

Lemma skipn_zeros (k n : nat) : skipn k (repeat x00 (k + n)) = repeat x00 n.
Proof.
  induction k as [|k IH]; [reflexivity|]. cbn [Nat.add repeat skipn]. exact IH.
Qed.

(** A store into the zero tail of a buffer, at the end of what is written. *)
Lemma set_bytes_zeros (done source : list byte) (offset n : nat) :
  offset = List.length done ->
  set_bytes (done ++ repeat x00 (List.length source + n)) offset source
  = Ok (done ++ source ++ repeat x00 n).
Proof.
  intro Ho. rewrite set_bytes_fill by (rewrite ?repeat_length; lia).
  rewrite skipn_zeros. reflexivity.
Qed.

Lemma getUint8_at (pre post : list byte) (b : byte) :
  getUint8 (pre ++ b :: post) (List.length pre) = Some (Z_of_byte b).
Proof.
  unfold getUint8. rewrite nth_error_app2, Nat.sub_diag by lia. reflexivity.
Qed.

Lemma le_split (v : Z) :
  (v mod 2 ^ 32 =
   v mod 256 + 2 ^ 8 * ((v / 2 ^ 8) mod 256)
   + 2 ^ 16 * ((v / 2 ^ 16) mod 256 + 2 ^ 8 * ((v / 2 ^ 24) mod 256)))%Z.
Proof.
  change (2 ^ 32)%Z with (2 ^ 16 * 2 ^ 16)%Z.
  rewrite Z.rem_mul_r by lia.
  change (2 ^ 16)%Z with (2 ^ 8 * 2 ^ 8)%Z at 1.
  rewrite Z.rem_mul_r by lia.
  change (2 ^ 16)%Z with (2 ^ 8 * 2 ^ 8)%Z at 3.
  rewrite Z.rem_mul_r by lia.
  change (2 ^ 8)%Z with 256%Z.
  replace (v / 2 ^ 16 / 256)%Z with (v / 2 ^ 24)%Z
    by (rewrite Z.div_div by lia; reflexivity).
  change (2 ^ 16)%Z with 65536%Z. lia.
Qed.

Lemma le16_split (v : Z) :
  (v mod 2 ^ 16 = v mod 256 + 2 ^ 8 * ((v / 2 ^ 8) mod 256))%Z.
Proof.
  change (2 ^ 16)%Z with (2 ^ 8 * 2 ^ 8)%Z.
  rewrite Z.rem_mul_r by lia. reflexivity.
Qed.

(** Loading what was stored: the value modulo the width. *)
Lemma getUint16_le16 (pre post : list byte) (v : Z) :
  getUint16 (pre ++ le16 v ++ post) (List.length pre) = Some (v mod 2 ^ 16)%Z.
Proof.
  unfold getUint16, le16. cbn [app].
  rewrite getUint8_at.
  replace (pre ++ byte_of_Z v :: byte_of_Z (v / 2 ^ 8) :: post)
    with ((pre ++ [byte_of_Z v]) ++ byte_of_Z (v / 2 ^ 8) :: post)
    by (rewrite <- app_assoc; reflexivity).
  replace (List.length pre + 1)%nat with (List.length (pre ++ [byte_of_Z v]))
    by (rewrite length_app; reflexivity).
  rewrite getUint8_at, !Z_of_byte_of_Z, le16_split. reflexivity.
Qed.

Lemma le32_halves (v : Z) : le32 v = le16 v ++ le16 (v / 2 ^ 16).
Proof.
  unfold le32, le16. cbn [app].
  replace (v / 2 ^ 16 / 2 ^ 8)%Z with (v / 2 ^ 24)%Z
    by (rewrite Z.div_div by lia; reflexivity).
  reflexivity.
Qed.

Lemma getUint32_le32 (pre post : list byte) (v : Z) :
  getUint32 (pre ++ le32 v ++ post) (List.length pre) = Some (v mod 2 ^ 32)%Z.
Proof.
  unfold getUint32.
  rewrite le32_halves, <- app_assoc, getUint16_le16.
  replace (pre ++ le16 v ++ le16 (v / 2 ^ 16) ++ post)
    with ((pre ++ le16 v) ++ le16 (v / 2 ^ 16) ++ post)
    by (rewrite <- app_assoc; reflexivity).
  replace (List.length pre + 2)%nat with (List.length (pre ++ le16 v))
    by (rewrite length_app; reflexivity).
  rewrite getUint16_le16, !le16_split, le_split.
  replace (v / 2 ^ 16 / 2 ^ 8)%Z with (v / 2 ^ 24)%Z
    by (rewrite Z.div_div by lia; reflexivity).
  reflexivity.
Qed.

(** ** Binary STL *)

Section StlFacts.

Context {PF : Platform}.

Lemma header_loop (f : nat -> Z) (n : nat) :
  forall (k m : nat) (done : list byte),
    k = List.length done ->
    foldM (fun dataView i => setUint8 dataView i (f i)) (seq k n)
          (done ++ repeat x00 (n + m))
    = Ok (done ++ map (fun i => byte_of_Z (f i)) (seq k n) ++ repeat x00 m).
Proof.
  induction n as [|n IH]; intros k m done Hk; [reflexivity|].
  cbn [seq foldM map]. unfold setUint8 at 1.
  change (repeat x00 (S n + m)) with (repeat x00 (List.length [byte_of_Z (f k)] + (n + m))).
  rewrite set_bytes_zeros by exact Hk. cbn [bind].
  replace (done ++ [byte_of_Z (f k)] ++ repeat x00 (n + m))
    with ((done ++ [byte_of_Z (f k)]) ++ repeat x00 (n + m))
    by (rewrite <- app_assoc; reflexivity).
  rewrite IH by (rewrite length_app; cbn; lia).
  rewrite <- app_assoc. reflexivity.
Qed.

Lemma numbers_loop (qs : list Q) :
  forall (r : nat) (done : list byte),
    foldM (fun '(dataView, offset) q =>
             dataView <- setFloat32 dataView offset q ;;
             Ok (dataView, (offset + 4)%nat))
          qs (done ++ repeat x00 (4 * List.length qs + r), List.length done)
    = Ok (done ++ flat_map (fun q => le32 (float32_bits q)) qs ++ repeat x00 r,
          (List.length done + 4 * List.length qs)%nat).
Proof.
  induction qs as [|q qs IH]; intros r done.
  - cbn. rewrite Nat.add_0_r. reflexivity.
  - cbn [foldM flat_map List.length]. unfold setFloat32, setUint32.
    replace (4 * S (List.length qs) + r)%nat
      with (List.length (le32 (float32_bits q)) + (4 * List.length qs + r))%nat
      by (cbn [List.length le32]; lia).
    rewrite set_bytes_zeros by reflexivity. cbn [bind].
    replace (done ++ le32 (float32_bits q) ++ repeat x00 (4 * List.length qs + r))
      with ((done ++ le32 (float32_bits q)) ++ repeat x00 (4 * List.length qs + r))
      by (rewrite <- app_assoc; reflexivity).
    replace (List.length done + 4)%nat with (List.length (done ++ le32 (float32_bits q)))
      by (rewrite length_app; reflexivity).
    rewrite IH. rewrite <- !app_assoc, length_app. cbn [List.length le32].
    f_equal. f_equal. lia.
Qed.

Lemma calculateNormal_normalOf (tri : Triangle) :
  calculateNormal tri.(v1) tri.(v2) tri.(v3) = normalOf tri.
Proof.
  unfold calculateNormal, normalOf, crossProduct, minus, divideScalar; cbn [x y z].
  destruct (Qltb 0 _); reflexivity.
Qed.

Lemma stlRecord_length (tri : Triangle) : List.length (stlRecord tri) = 50%nat.
Proof. reflexivity. Qed.

Lemma writeTriangle_fill (tri : Triangle) (r : nat) (done : list byte) :
  writeTriangle (done ++ repeat x00 (50 + r), List.length done) tri
  = Ok (done ++ stlRecord tri ++ repeat x00 r, (List.length done + 50)%nat).
Proof.
  unfold writeTriangle. rewrite calculateNormal_normalOf.
  fold (stlNumbers tri).
  replace (50 + r)%nat with (4 * List.length (stlNumbers tri) + (2 + r))%nat
    by reflexivity.
  rewrite numbers_loop. cbn [bind]. unfold setUint16.
  rewrite app_assoc.
  change (repeat x00 (2 + r)) with (repeat x00 (List.length (le16 0) + r)).
  rewrite set_bytes_zeros
    by (rewrite length_app; reflexivity).
  cbn [bind]. unfold stlRecord.
  rewrite <- !app_assoc. f_equal. cbn [List.length stlNumbers]. f_equal. lia.
Qed.

Lemma triangles_loop (triangles : list Triangle) :
  forall (r : nat) (done : list byte),
    foldM writeTriangle triangles
          (done ++ repeat x00 (50 * List.length triangles + r), List.length done)
    = Ok (done ++ flat_map stlRecord triangles ++ repeat x00 r,
          (List.length done + 50 * List.length triangles)%nat).
Proof.
  induction triangles as [|tri triangles IH]; intros r done.
  - cbn. rewrite Nat.add_0_r. reflexivity.
  - cbn [foldM flat_map List.length].
    replace (50 * S (List.length triangles) + r)%nat
      with (50 + (50 * List.length triangles + r))%nat by lia.
    rewrite writeTriangle_fill. cbn [bind].
    rewrite app_assoc.
    replace (List.length done + 50)%nat with (List.length (done ++ stlRecord tri))
      by (rewrite length_app, stlRecord_length; reflexivity).
    rewrite IH. rewrite <- !app_assoc, length_app, stlRecord_length.
    f_equal. f_equal. lia.
Qed.

(** [trianglesToSTL] raises no error and writes the file of the layout. *)
Lemma trianglesToSTL_file (triangles : list Triangle) (headerText : string) :
  trianglesToSTL triangles headerText = Ok (stlFile triangles headerText).
Proof.
  unfold trianglesToSTL, ArrayBuffer.
  replace (80 + 4 + List.length triangles * 50)%nat
    with (80 + (4 + (50 * List.length triangles + 0)))%nat by lia.
  pose proof (header_loop
                (fun i => if (i <? String.length headerText)%nat
                          then charCodeAt headerText i else 0%Z)
                80 0 (4 + (50 * List.length triangles + 0)) [] eq_refl) as Hloop.
  cbn [app] in Hloop. rewrite Hloop. clear Hloop. cbn [bind].
  assert (Hh : map (fun i => byte_of_Z (if (i <? String.length headerText)%nat
                                        then charCodeAt headerText i else 0%Z))
                   (seq 0 80) = stlHeader headerText).
  { unfold stlHeader. apply map_ext. intro i.
    destruct (i <? String.length headerText)%nat; reflexivity. }
  rewrite Hh. unfold setUint32.
  change (repeat x00 (4 + (50 * List.length triangles + 0)))
    with (repeat x00 (List.length (le32 (Z.of_nat (List.length triangles)))
                      + (50 * List.length triangles + 0))).
  rewrite set_bytes_zeros by reflexivity. cbn [bind].
  rewrite app_assoc.
  change 84%nat with (List.length (stlHeader headerText
                                   ++ le32 (Z.of_nat (List.length triangles)))).
  rewrite triangles_loop. cbn [bind repeat].
  unfold stlFile. rewrite <- !app_assoc, app_nil_r. reflexivity.
Qed.

Lemma flat_map_locate {A : Type} (f : A -> list byte) (k : nat) (l : list A)
    (i : nat) (a : A) :
  (forall a, List.length (f a) = k) ->
  nth_error l i = Some a ->
  exists pre post,
    flat_map f l = pre ++ f a ++ post /\ List.length pre = (k * i)%nat.
Proof.
  intros Hk Hi. apply nth_error_split in Hi. destruct Hi as (l1 & l2 & -> & <-).
  exists (flat_map f l1), (flat_map f l2). split.
  - rewrite flat_map_app. reflexivity.
  - clear l2. induction l1 as [|b l1 IH]; [cbn; lia|].
    cbn [flat_map List.length]. rewrite length_app, Hk, IH. lia.
Qed.

Lemma stlHeader_length (headerText : string) : List.length (stlHeader headerText) = 80%nat.
Proof. unfold stlHeader. rewrite length_map, length_seq. reflexivity. Qed.

Lemma stlFile_length (triangles : list Triangle) (headerText : string) :
  List.length (stlFile triangles headerText) = (80 + 4 + 50 * List.length triangles)%nat.
Proof.
  unfold stlFile. rewrite !length_app, stlHeader_length.
  assert (E : List.length (flat_map stlRecord triangles) = (50 * List.length triangles)%nat).
  { induction triangles as [|tri triangles IH]; [reflexivity|].
    cbn [flat_map List.length]. rewrite length_app, stlRecord_length, IH. lia. }
  rewrite E. cbn [List.length le32]. lia.
Qed.

(** The number at place [j] of the record of triangle [i]. *)
Lemma stlFile_number (triangles : list Triangle) (headerText : string)
    (i j : nat) (tri : Triangle) (q : Q) :
  nth_error triangles i = Some tri ->
  nth_error (stlNumbers tri) j = Some q ->
  getUint32 (stlFile triangles headerText) (84 + 50 * i + 4 * j)
  = Some (float32_bits q).
Proof.
  intros Hi Hj.
  destruct (flat_map_locate stlRecord 50 triangles i tri stlRecord_length Hi)
    as (pre & post & Hrec & Hpre).
  destruct (flat_map_locate (fun q => le32 (float32_bits q)) 4 (stlNumbers tri) j q
              (fun _ => eq_refl) Hj) as (pre' & post' & Hnum & Hpre').
  unfold stlFile. rewrite Hrec. unfold stlRecord. rewrite Hnum.
  set (count := le32 (Z.of_nat (List.length triangles))).
  replace (stlHeader headerText ++ count
           ++ pre ++ ((pre' ++ le32 (float32_bits q) ++ post') ++ [x00; x00]) ++ post)
    with ((stlHeader headerText ++ count ++ pre ++ pre')
          ++ le32 (float32_bits q) ++ (post' ++ [x00; x00] ++ post))
    by (rewrite <- !app_assoc; reflexivity).
  replace (84 + 50 * i + 4 * j)%nat
    with (List.length (stlHeader headerText ++ count ++ pre ++ pre'))
    by (rewrite !length_app, stlHeader_length, Hpre, Hpre'; reflexivity).
  rewrite getUint32_le32.
  rewrite Z.mod_small by apply float32_bits_range. reflexivity.
Qed.

Lemma stlFile_count (triangles : list Triangle) (headerText : string) :
  getUint32 (stlFile triangles headerText) 80
  = Some (Z.of_nat (List.length triangles) mod 2 ^ 32)%Z.
Proof.
  pose proof (getUint32_le32 (stlHeader headerText) (flat_map stlRecord triangles)
                (Z.of_nat (List.length triangles))) as H.
  rewrite stlHeader_length in H. exact H.
Qed.

(** A sum of three squares that is not positive has all its terms zero. *)
Lemma squares_zero (a b c : Q) :
  ~ 0 < a * a + b * b + c * c -> a == 0 /\ b == 0 /\ c == 0.
Proof.
  intro H. apply Qnot_lt_le in H.
  assert (Ha : 0 <= a * a) by nra.
  assert (Hb : 0 <= b * b) by nra.
  assert (Hc : 0 <= c * c) by nra.
  assert (Ea : a * a == 0) by lra.
  assert (Eb : b * b == 0) by lra.
  assert (Ec : c * c == 0) by lra.
  repeat split.
  - destruct (Qmult_integral _ _ Ea); assumption.
  - destruct (Qmult_integral _ _ Eb); assumption.
  - destruct (Qmult_integral _ _ Ec); assumption.
Qed.

(** The normal of a record: the cross product of [v2 - v1] and [v3 - v1]
    divided by its length, or the cross product itself, which is then the
    zero vector, when the length is not positive. *)
Lemma normalOf_cross (tri : Triangle) :
  let c := crossProduct (minus tri.(v2) tri.(v1)) (minus tri.(v3) tri.(v1)) in
  let len := Math_sqrt (c.(x) * c.(x) + c.(y) * c.(y) + c.(z) * c.(z)) in
  (0 < len -> normalOf tri = divideScalar c len) /\
  (~ 0 < len -> normalOf tri = c /\ veq c (mkVertex 0 0 0)).
Proof.
  cbv zeta. unfold normalOf.
  set (c := crossProduct _ _).
  set (len := Math_sqrt _).
  split; intro H.
  - apply Qltb_lt in H. rewrite H. reflexivity.
  - destruct (Qltb 0 len) eqn:E; [apply Qltb_lt in E; contradiction|].
    split; [reflexivity|].
    unfold len in H. rewrite Math_sqrt_pos in H.
    apply squares_zero in H. exact H.
Qed.

(** C10. For every triangle list and every header label, the buffer that
    [trianglesToSTL] produces has byte length [80 + 4 + 50 * triangleCount]
    whatever the length of the label: byte [i] of the header is the
    character code of the label at [i] below the length of the label and
    zero from there to 80, so a label of more than 80 characters is cut to
    its first 80 codes and a shorter one is zero-padded; the count field
    and the triangle records, from byte 80 on, do not depend on the
    label. *)
Theorem trianglesToSTL_length (triangles : list Triangle) (headerText : string) :
  exists buffer,
    trianglesToSTL triangles headerText = Ok buffer /\
    List.length buffer = (80 + 4 + 50 * List.length triangles)%nat /\
    (forall i, (i < 80)%nat ->
       nth_error buffer i =
       Some (if (i <? String.length headerText)%nat
             then byte_of_Z (charCodeAt headerText i) else x00)) /\
    skipn 80 buffer
    = le32 (Z.of_nat (List.length triangles)) ++ flat_map stlRecord triangles.
Proof.
  exists (stlFile triangles headerText).
  split; [apply trianglesToSTL_file|].
  split; [apply stlFile_length|].
  split.
  - intros i Hi. unfold stlFile.
    rewrite nth_error_app1 by (rewrite stlHeader_length; exact Hi).
    unfold stlHeader.
    rewrite nth_error_map, nth_error_nth' with (d := 0%nat)
      by (rewrite length_seq; exact Hi).
    rewrite seq_nth by exact Hi. reflexivity.
  - unfold stlFile.
    rewrite skipn_app, stlHeader_length, Nat.sub_diag, skipn_O.
    rewrite skipn_all2 by (rewrite stlHeader_length; lia). reflexivity.
Qed.


End StlFacts.


(** The record of the example triangle on the platform [Ieee]: a unit
    normal, then the nine coordinates, as binary32 patterns. *)
Example stlRecord_oneTriangle :
  map (fun j => getUint32 (stlFile (PF := Ieee.Host) oneTriangle "x") (84 + 4 * j))
      (seq 0 12)
  = map Some [ 0; 0; 0x3f800000;
               0; 0x3f800000; 0;  0x3f800000; 0x3f800000; 0;
               0; 0x40000000; 0 ]%Z.
Proof. vm_compute. reflexivity. Qed.

(** ** SimpleZip *)

(** The last store of a header: the name after the fixed part. *)
Lemma set_bytes_tail (done source : list byte) :
  set_bytes (done ++ repeat x00 (List.length source)) (List.length done) source
  = Ok (done ++ source).
Proof.
  rewrite set_bytes_fill by (rewrite ?repeat_length; lia).
  rewrite skipn_all2 by (rewrite repeat_length; lia).
  rewrite app_nil_r. reflexivity.
Qed.

Ltac run_stores :=
  cbn [stores bind setUint32 setUint16 set_bytes ArrayBuffer repeat
       List.length le32 le16 Nat.add Nat.leb firstn skipn app].

Ltac last_store n nameBytes :=
  match goal with
  | |- context [set_bytes ?b n nameBytes] =>
      replace (set_bytes b n nameBytes) with (Ok (firstn n b ++ nameBytes))
        by (symmetry; exact (set_bytes_tail (firstn n b) nameBytes))
  end.

Lemma _createLocalHeader_bytes (nameBytes data : list byte) :
  _createLocalHeader nameBytes data = Ok (localHeaderBytes nameBytes data).
Proof.
  unfold _createLocalHeader, localHeaderBytes. run_stores.
  last_store 30%nat nameBytes. run_stores. reflexivity.
Qed.

Lemma _createCentralHeader_bytes (nameBytes data : list byte) (localOffset : nat) :
  _createCentralHeader nameBytes data localOffset
  = Ok (centralHeaderBytes nameBytes data localOffset).
Proof.
  unfold _createCentralHeader, centralHeaderBytes. run_stores.
  last_store 46%nat nameBytes. run_stores. reflexivity.
Qed.

Lemma _createEOCD_bytes (numFiles centralSize centralOffset : nat) :
  _createEOCD numFiles centralSize centralOffset
  = Ok (eocdBytes numFiles centralSize centralOffset).
Proof.
  unfold _createEOCD, eocdBytes. run_stores. reflexivity.
Qed.

(** The local headers that the first loop of [generate] collects. *)
Lemma localOffsets_length (files : list ZipFile) (start : nat) :
  List.length (localOffsets files start) = List.length files.
Proof.
  revert start. induction files as [|f files IH]; intro start; [reflexivity|].
  cbn [localOffsets List.length]. rewrite IH. reflexivity.
Qed.

Lemma localHeaderBytes_length (nameBytes data : list byte) :
  List.length (localHeaderBytes nameBytes data) = (30 + List.length nameBytes)%nat.
Proof. reflexivity. Qed.

Lemma centralHeaderBytes_length (nameBytes data : list byte) (localOffset : nat) :
  List.length (centralHeaderBytes nameBytes data localOffset)
  = (46 + List.length nameBytes)%nat.
Proof. reflexivity. Qed.

Lemma local_loop (files : list ZipFile) :
  forall (acc : list LocalHeader) (start : nat),
    foldM (fun '(localHeaders, offset) file =>
             let nameBytes := encode file.(zip_name) in
             localHeader <- _createLocalHeader nameBytes file.(zip_data) ;;
             Ok (localHeaders ++ [mkLocalHeader localHeader file.(zip_data) offset],
                 (offset + List.length localHeader + List.length file.(zip_data))%nat))
          files (acc, start)
    = Ok (acc ++ map (fun '(file, offset) =>
                        mkLocalHeader
                          (localHeaderBytes (encode file.(zip_name)) file.(zip_data))
                          file.(zip_data) offset)
                     (combine files (localOffsets files start)),
          (start + List.length (flat_map localEntry files))%nat).
Proof.
  induction files as [|f files IH]; intros acc start.
  - cbn. rewrite app_nil_r, Nat.add_0_r. reflexivity.
  - cbn [foldM]. cbv zeta. rewrite _createLocalHeader_bytes. cbn [bind].
    replace (start + List.length (localHeaderBytes (encode (zip_name f)) (zip_data f))
             + List.length (zip_data f))%nat
      with (start + List.length (localEntry f))%nat
      by (unfold localEntry; rewrite length_app; lia).
    rewrite IH. cbn [localOffsets combine map flat_map].
    rewrite <- app_assoc. cbn [app]. rewrite length_app.
    f_equal. f_equal. lia.
Qed.

Lemma central_loop (rest : list ZipFile) :
  forall (pre : list ZipFile) (lpre lrest : list LocalHeader)
         (acc : list Buffer) (off : nat),
    List.length lpre = List.length pre ->
    List.length lrest = List.length rest ->
    foldM (fun '(centralHeaders, offset) i =>
             file <- prop (nth_error (pre ++ rest) i) (fun f => f) ;;
             let nameBytes := encode file.(zip_name) in
             localOffset <- prop (nth_error (lpre ++ lrest) i) lh_offset ;;
             centralHeader <- _createCentralHeader nameBytes file.(zip_data) localOffset ;;
             Ok (centralHeaders ++ [centralHeader],
                 (offset + List.length centralHeader)%nat))
          (seq (List.length pre) (List.length rest)) (acc, off)
    = Ok (acc ++ map centralEntry (combine rest (map lh_offset lrest)),
          (off + List.length
                   (flat_map centralEntry (combine rest (map lh_offset lrest))))%nat).
Proof.
  induction rest as [|f rest IH]; intros pre lpre lrest acc off Hpre Hrest.
  - cbn. rewrite app_nil_r, Nat.add_0_r. reflexivity.
  - destruct lrest as [|lh lrest]; [discriminate Hrest|].
    cbn [List.length seq foldM].
    rewrite nth_error_app2, Nat.sub_diag by lia.
    rewrite nth_error_app2 by lia. rewrite Hpre, Nat.sub_diag.
    cbn [nth_error prop bind]. cbv zeta.
    rewrite _createCentralHeader_bytes. cbn [bind].
    replace (pre ++ f :: rest) with ((pre ++ [f]) ++ rest)
      by (rewrite <- app_assoc; reflexivity).
    replace (lpre ++ lh :: lrest) with ((lpre ++ [lh]) ++ lrest)
      by (rewrite <- app_assoc; reflexivity).
    replace (S (List.length pre)) with (List.length (pre ++ [f]))
      by (rewrite length_app; cbn; lia).
    rewrite IH.
    + cbn [map combine flat_map centralEntry]. rewrite <- app_assoc. cbn [app].
      rewrite length_app. f_equal. f_equal. lia.
    + rewrite !length_app. cbn. lia.
    + cbn in Hrest. lia.
Qed.

Lemma write_locals (locals : list LocalHeader) :
  forall (done : list byte) (r : nat),
    foldM (fun '(result, pos) local =>
             result <- set_bytes result pos local.(lh_header) ;;
             let pos := (pos + List.length local.(lh_header))%nat in
             result <- set_bytes result pos local.(lh_data) ;;
             Ok (result, (pos + List.length local.(lh_data))%nat))
          locals
          (done ++ repeat x00
                     (List.length (flat_map (fun l => l.(lh_header) ++ l.(lh_data)) locals)
                      + r),
           List.length done)
    = Ok (done ++ flat_map (fun l => l.(lh_header) ++ l.(lh_data)) locals
          ++ repeat x00 r,
          (List.length done
           + List.length (flat_map (fun l => l.(lh_header) ++ l.(lh_data)) locals))%nat).
Proof.
  induction locals as [|l locals IH]; intros done r.
  - cbn. rewrite Nat.add_0_r. reflexivity.
  - cbn [foldM flat_map]. cbv zeta.
    set (tail := flat_map (fun l => lh_header l ++ lh_data l) locals).
    rewrite !length_app.
    replace (List.length (lh_header l) + List.length (lh_data l) + List.length tail + r)%nat
      with (List.length (lh_header l)
            + (List.length (lh_data l) + (List.length tail + r)))%nat by lia.
    rewrite set_bytes_zeros by reflexivity. cbn [bind].
    rewrite app_assoc.
    replace (List.length done + List.length (lh_header l))%nat
      with (List.length (done ++ lh_header l)) by (rewrite length_app; reflexivity).
    rewrite set_bytes_zeros by reflexivity. cbn [bind].
    rewrite app_assoc.
    replace (List.length (done ++ lh_header l) + List.length (lh_data l))%nat
      with (List.length ((done ++ lh_header l) ++ lh_data l))
      by (rewrite !length_app; reflexivity).
    subst tail. rewrite IH. rewrite <- !app_assoc, !length_app.
    f_equal. f_equal. lia.
Qed.

Lemma write_centrals (centrals : list (list byte)) :
  forall (done : list byte) (r : nat),
    foldM (fun '(result, pos) central =>
             result <- set_bytes result pos central ;;
             Ok (result, (pos + List.length central)%nat))
          centrals
          (done ++ repeat x00 (List.length (List.concat centrals) + r), List.length done)
    = Ok (done ++ List.concat centrals ++ repeat x00 r,
          (List.length done + List.length (List.concat centrals))%nat).
Proof.
  induction centrals as [|c centrals IH]; intros done r.
  - cbn. rewrite Nat.add_0_r. reflexivity.
  - cbn [foldM List.concat]. rewrite length_app.
    replace (List.length c + List.length (List.concat centrals) + r)%nat
      with (List.length c + (List.length (List.concat centrals) + r))%nat by lia.
    rewrite set_bytes_zeros by reflexivity. cbn [bind].
    rewrite app_assoc.
    replace (List.length done + List.length c)%nat with (List.length (done ++ c))
      by (rewrite length_app; reflexivity).
    rewrite IH. rewrite <- !app_assoc, !length_app. f_equal. f_equal. lia.
Qed.

Lemma offsets_of_headers (files : list ZipFile) (offsets : list nat) :
  List.length offsets = List.length files ->
  map lh_offset
      (map (fun '(file, offset) =>
              mkLocalHeader (localHeaderBytes (encode file.(zip_name)) file.(zip_data))
                            file.(zip_data) offset)
           (combine files offsets))
  = offsets.
Proof.
  revert offsets. induction files as [|f files IH]; intros [|o offsets] H;
    try discriminate H; [reflexivity|].
  cbn [combine map lh_offset]. rewrite IH by (cbn in H; lia). reflexivity.
Qed.

Lemma bytes_of_headers (files : list ZipFile) (offsets : list nat) :
  List.length offsets = List.length files ->
  flat_map (fun l => l.(lh_header) ++ l.(lh_data))
      (map (fun '(file, offset) =>
              mkLocalHeader (localHeaderBytes (encode file.(zip_name)) file.(zip_data))
                            file.(zip_data) offset)
           (combine files offsets))
  = flat_map localEntry files.
Proof.
  revert offsets. induction files as [|f files IH]; intros [|o offsets] H;
    try discriminate H; [reflexivity|].
  cbn [combine map flat_map lh_header lh_data].
  rewrite IH by (cbn in H; lia). reflexivity.
Qed.

Lemma eocdBytes_length (n s o : nat) : List.length (eocdBytes n s o) = 22%nat.
Proof. reflexivity. Qed.

(** [generate] raises no error and writes the archive of the layout. *)
Lemma generate_archive (files : list ZipFile) :
  generate files = Ok (archiveBytes files).
Proof.
  unfold generate.
  pose proof (local_loop files [] 0) as Hl. cbv zeta in Hl.
  rewrite Hl. clear Hl. cbn [bind app Nat.add].
  set (headers := map _ (combine files (localOffsets files 0))).
  assert (Hlen : List.length headers = List.length files).
  { unfold headers. rewrite length_map, length_combine, localOffsets_length.
    apply Nat.min_id. }
  pose proof (central_loop files [] [] headers []
                (List.length (flat_map localEntry files)) eq_refl Hlen) as Hc.
  assert (Hoff : map lh_offset headers = localOffsets files 0).
  { apply offsets_of_headers, localOffsets_length. }
  cbn [app List.length] in Hc. cbv zeta in Hc. rewrite Hc. clear Hc.
  rewrite Hoff. cbn [bind].
  fold (centralDirectory files).
  rewrite _createEOCD_bytes. cbn [bind].
  set (locals := flat_map localEntry files).
  set (centrals := map centralEntry (combine files (localOffsets files 0))).
  assert (Hcentral : List.concat centrals = centralDirectory files).
  { unfold centrals, centralDirectory. symmetry. apply flat_map_concat_map. }
  assert (Hlocal : flat_map (fun l => lh_header l ++ lh_data l) headers = locals).
  { unfold headers, locals. apply bytes_of_headers, localOffsets_length. }
  replace (List.length locals + List.length (centralDirectory files)
           - List.length locals)%nat
    with (List.length (centralDirectory files)) by lia.
  set (eocd := eocdBytes _ _ _).
  unfold ArrayBuffer.
  replace (List.length locals + List.length (centralDirectory files)
           + List.length eocd)%nat
    with (List.length (flat_map (fun l => lh_header l ++ lh_data l) headers)
          + (List.length (List.concat centrals) + (List.length eocd + 0)))%nat
    by (rewrite Hlocal, Hcentral; lia).
  pose proof (write_locals headers []) as Hw. cbn [app List.length] in Hw.
  cbv zeta in Hw. rewrite Hw. clear Hw. cbn [bind].
  rewrite ?Nat.add_0_l, ?Hlocal.
  rewrite (write_centrals centrals locals (List.length eocd + 0)). cbn [bind].
  rewrite app_assoc.
  replace (List.length locals + List.length (List.concat centrals))%nat
    with (List.length (locals ++ List.concat centrals))
    by (rewrite length_app; reflexivity).
  rewrite set_bytes_zeros by reflexivity.
  rewrite Hcentral. unfold archiveBytes. fold locals.
  rewrite <- !app_assoc. cbn [repeat]. rewrite app_nil_r. reflexivity.
Qed.

(** *** Reading fields of a record *)

Lemma skipn_app_length {A : Type} (pre rest : list A) (k : nat) :
  skipn (List.length pre + k) (pre ++ rest) = skipn k rest.
Proof.
  rewrite skipn_app, skipn_all2 by lia.
  replace (List.length pre + k - List.length pre)%nat with k by lia. reflexivity.
Qed.

Lemma nth_error_skipn {A : Type} (l : list A) (k i : nat) :
  nth_error (skipn k l) i = nth_error l (k + i).
Proof.
  revert l. induction k as [|k IH]; intro l; [reflexivity|].
  destruct l as [|a l]; [destruct i; reflexivity|]. cbn [skipn Nat.add nth_error].
  apply IH.
Qed.

Lemma getUint8_skipn (buffer : list byte) (k i : nat) :
  getUint8 (skipn k buffer) i = getUint8 buffer (k + i).
Proof. unfold getUint8. rewrite nth_error_skipn. reflexivity. Qed.

Lemma getUint16_skipn (buffer : list byte) (k i : nat) :
  getUint16 (skipn k buffer) i = getUint16 buffer (k + i).
Proof.
  unfold getUint16. rewrite !getUint8_skipn, Nat.add_assoc. reflexivity.
Qed.

Lemma getUint32_skipn (buffer : list byte) (k i : nat) :
  getUint32 (skipn k buffer) i = getUint32 buffer (k + i).
Proof.
  unfold getUint32. rewrite !getUint16_skipn, Nat.add_assoc. reflexivity.
Qed.

Lemma getUint16_head (v : Z) (rest : list byte) :
  getUint16 (le16 v ++ rest) 0 = Some (v mod 2 ^ 16)%Z.
Proof. exact (getUint16_le16 [] rest v). Qed.

Lemma getUint32_head (v : Z) (rest : list byte) :
  getUint32 (le32 v ++ rest) 0 = Some (v mod 2 ^ 32)%Z.
Proof. exact (getUint32_le32 [] rest v). Qed.

(** A field of a record that starts at the end of [pre]: the bytes at
    place [k] of the record decide what is read. *)
Lemma read16_at (pre record : list byte) (k : nat) (v : Z) (rest : list byte) :
  skipn k record = le16 v ++ rest ->
  getUint16 (pre ++ record) (List.length pre + k) = Some (v mod 2 ^ 16)%Z.
Proof.
  intro H.
  replace (List.length pre + k)%nat with (List.length pre + k + 0)%nat by lia.
  rewrite <- getUint16_skipn, skipn_app_length, H. apply getUint16_head.
Qed.

Lemma read32_at (pre record : list byte) (k : nat) (v : Z) (rest : list byte) :
  skipn k record = le32 v ++ rest ->
  getUint32 (pre ++ record) (List.length pre + k) = Some (v mod 2 ^ 32)%Z.
Proof.
  intro H.
  replace (List.length pre + k)%nat with (List.length pre + k + 0)%nat by lia.
  rewrite <- getUint32_skipn, skipn_app_length, H. apply getUint32_head.
Qed.

Lemma slice_at (pre record : list byte) (k n : nat) :
  (k + n <= List.length record)%nat ->
  slice (pre ++ record) (List.length pre + k) n = Some (firstn n (skipn k record)).
Proof.
  intro Hk. unfold slice. rewrite length_app.
  destruct (Nat.leb_spec (List.length pre + k + n)
                         (List.length pre + List.length record)) as [_|Hgt]; [|lia].
  rewrite skipn_app_length. reflexivity.
Qed.

Lemma firstn_exact {A : Type} (part rest : list A) :
  firstn (List.length part) (part ++ rest) = part.
Proof.
  rewrite firstn_app, Nat.sub_diag, firstn_all, firstn_O, app_nil_r. reflexivity.
Qed.

Lemma skipn_exact {A : Type} (part rest : list A) :
  skipn (List.length part) (part ++ rest) = rest.
Proof.
  rewrite skipn_app, Nat.sub_diag, skipn_all. reflexivity.
Qed.

Lemma wrap_le (n : nat) (m : Z) :
  (0 < m)%Z -> (Z.to_nat (Z.of_nat n mod m) <= n)%nat.
Proof.
  intro Hm. pose proof (Z.mod_le (Z.of_nat n) m ltac:(lia) Hm).
  pose proof (Z.mod_pos_bound (Z.of_nat n) m Hm). lia.
Qed.

Lemma _crc32_range (data : list byte) : (0 <= _crc32 data < 2 ^ 32)%Z.
Proof.
  unfold _crc32, js_ushr, toUint32. rewrite Z.shiftr_0_r.
  apply Z.mod_pos_bound. lia.
Qed.

(** The local record of a file, read where it starts: the name and the
    bytes are cut at the lengths that the 16-bit and 32-bit fields hold. *)
Lemma readLocal_record (pre post : list byte) (file : ZipFile) :
  let nameLength := Z.to_nat (Z.of_nat (List.length (encode file.(zip_name))) mod 2 ^ 16) in
  let size := Z.to_nat (Z.of_nat (List.length file.(zip_data)) mod 2 ^ 32) in
  let body := encode file.(zip_name) ++ file.(zip_data) ++ post in
  readLocal (pre ++ localEntry file ++ post) (List.length pre)
  = Some (_crc32 file.(zip_data), firstn nameLength body,
          firstn size (skipn nameLength body)).
Proof.
  cbv zeta. unfold readLocal.
  set (record := localEntry file ++ post).
  assert (H0 : getUint32 (pre ++ record) (List.length pre) = Some 0x04034b50%Z).
  { pose proof (read32_at pre record 0 0x04034b50%Z (skipn 4 record) eq_refl) as H.
    rewrite Nat.add_0_r in H. exact H. }
  rewrite H0. cbn [guard Z.eqb Pos.eqb].
  erewrite (read32_at pre record 14) by reflexivity.
  erewrite (read32_at pre record 18) by reflexivity.
  erewrite (read16_at pre record 26) by reflexivity.
  erewrite (read16_at pre record 28) by reflexivity.
  set (nameBytes := encode file.(zip_name)) in *.
  set (data := file.(zip_data)) in *.
  change (0 mod 2 ^ 16)%Z with 0%Z. cbn [Z.to_nat]. rewrite Nat.add_0_r.
  set (nameLength := Z.to_nat (Z.of_nat (List.length nameBytes) mod 2 ^ 16)).
  set (size := Z.to_nat (Z.of_nat (List.length data) mod 2 ^ 32)).
  assert (Hn : (nameLength <= List.length nameBytes)%nat) by (apply wrap_le; lia).
  assert (Hs : (size <= List.length data)%nat) by (apply wrap_le; lia).
  assert (Hrecord : List.length record
                    = (30 + List.length nameBytes + List.length data
                       + List.length post)%nat).
  { unfold record, localEntry. rewrite !length_app.
    fold nameBytes data. rewrite localHeaderBytes_length. lia. }
  assert (Hbody : skipn 30 record = nameBytes ++ data ++ post).
  { unfold record, localEntry. fold nameBytes data.
    rewrite <- app_assoc. unfold localHeaderBytes. rewrite <- !app_assoc.
    reflexivity. }
  rewrite (slice_at pre record 30 nameLength) by lia.
  rewrite <- Nat.add_assoc.
  rewrite (slice_at pre record (30 + nameLength) size) by lia.
  rewrite (Nat.add_comm 30 nameLength), <- skipn_skipn, Hbody.
  rewrite Z.mod_small by apply _crc32_range. reflexivity.
Qed.

Lemma readLocal_entry (pre post : list byte) (file : ZipFile) :
  (Z.of_nat (List.length (encode file.(zip_name))) < 2 ^ 16)%Z ->
  (Z.of_nat (List.length file.(zip_data)) < 2 ^ 32)%Z ->
  readLocal (pre ++ localEntry file ++ post) (List.length pre)
  = Some (_crc32 file.(zip_data), encode file.(zip_name), file.(zip_data)).
Proof.
  intros Hname Hdata. rewrite readLocal_record. cbv zeta.
  rewrite !Z.mod_small by lia. rewrite !Nat2Z.id.
  rewrite firstn_exact, skipn_exact, firstn_exact. reflexivity.
Qed.

(** The central record of a file, read where it starts. *)
Lemma readCentral_record (pre post : list byte) (file : ZipFile) (localOffset : nat) :
  let nameLength := Z.to_nat (Z.of_nat (List.length (encode file.(zip_name))) mod 2 ^ 16) in
  readCentral (pre ++ centralEntry (file, localOffset) ++ post) (List.length pre)
  = Some (_crc32 file.(zip_data),
          Z.to_nat (Z.of_nat localOffset mod 2 ^ 32),
          firstn nameLength (encode file.(zip_name) ++ post),
          (List.length pre + 46 + nameLength)%nat).
Proof.
  cbv zeta. unfold readCentral.
  set (record := centralEntry (file, localOffset) ++ post).
  assert (H0 : getUint32 (pre ++ record) (List.length pre) = Some 0x02014b50%Z).
  { pose proof (read32_at pre record 0 0x02014b50%Z (skipn 4 record) eq_refl) as H.
    rewrite Nat.add_0_r in H. exact H. }
  rewrite H0. cbn [guard Z.eqb Pos.eqb].
  erewrite (read32_at pre record 16) by reflexivity.
  erewrite (read16_at pre record 28) by reflexivity.
  erewrite (read16_at pre record 30) by reflexivity.
  erewrite (read16_at pre record 32) by reflexivity.
  erewrite (read32_at pre record 42) by reflexivity.
  set (nameBytes := encode file.(zip_name)) in *.
  set (data := file.(zip_data)) in *.
  change (0 mod 2 ^ 16)%Z with 0%Z. cbn [Z.to_nat]. rewrite !Nat.add_0_r.
  set (nameLength := Z.to_nat (Z.of_nat (List.length nameBytes) mod 2 ^ 16)).
  assert (Hn : (nameLength <= List.length nameBytes)%nat) by (apply wrap_le; lia).
  assert (Hrecord : List.length record = (46 + List.length nameBytes + List.length post)%nat).
  { unfold record, centralEntry. rewrite length_app.
    fold nameBytes data. rewrite centralHeaderBytes_length. lia. }
  assert (Hbody : skipn 46 record = nameBytes ++ post).
  { unfold record, centralEntry. fold nameBytes data.
    unfold centralHeaderBytes. rewrite <- !app_assoc. reflexivity. }
  rewrite (slice_at pre record 46 nameLength) by lia.
  rewrite Hbody.
  rewrite Z.mod_small by apply _crc32_range. reflexivity.
Qed.

Lemma readCentral_entry (pre post : list byte) (file : ZipFile) (localOffset : nat) :
  (Z.of_nat (List.length (encode file.(zip_name))) < 2 ^ 16)%Z ->
  (Z.of_nat localOffset < 2 ^ 32)%Z ->
  readCentral (pre ++ centralEntry (file, localOffset) ++ post) (List.length pre)
  = Some (_crc32 file.(zip_data), localOffset, encode file.(zip_name),
          (List.length pre + List.length (centralEntry (file, localOffset)))%nat).
Proof.
  intros Hname Hoff. rewrite readCentral_record. cbv zeta.
  rewrite !Z.mod_small by lia. rewrite !Nat2Z.id, firstn_exact.
  unfold centralEntry. rewrite centralHeaderBytes_length.
  rewrite Nat.add_assoc. reflexivity.
Qed.

(** Where the local record of a file lies. *)
Lemma localOffsets_in (files : list ZipFile) :
  forall (start : nat) (file : ZipFile) (offset : nat),
    In (file, offset) (combine files (localOffsets files start)) ->
    exists before after,
      files = before ++ file :: after /\
      offset = (start + List.length (flat_map localEntry before))%nat.
Proof.
  induction files as [|f files IH]; intros start file offset Hin; [destruct Hin|].
  cbn [localOffsets combine] in Hin. destruct Hin as [Heq|Hin].
  - injection Heq as -> ->. exists [], files. split; [reflexivity|cbn; lia].
  - destruct (IH _ _ _ Hin) as (before & after & -> & ->).
    exists (f :: before), after. split; [reflexivity|].
    cbn [flat_map]. rewrite length_app. lia.
Qed.

Lemma flat_map_length_le {A : Type} (f : A -> list byte) (l1 l2 : list A) :
  (List.length (flat_map f l1) <= List.length (flat_map f (l1 ++ l2)))%nat.
Proof. rewrite flat_map_app, length_app. lia. Qed.

(** The central directory, read entry by entry. *)
Lemma readDirectory_entries (buffer locals : list byte) (entries : list (ZipFile * nat)) :
  forall (before : list (ZipFile * nat)) (post : list byte),
    buffer = locals ++ flat_map centralEntry before
             ++ flat_map centralEntry entries ++ post ->
    Forall (fun '(file, offset) =>
              (Z.of_nat (List.length (encode file.(zip_name))) < 2 ^ 16)%Z /\
              (Z.of_nat offset < 2 ^ 32)%Z /\
              readLocal buffer offset
              = Some (_crc32 file.(zip_data), encode file.(zip_name), file.(zip_data)))
           entries ->
    readDirectory buffer
      (List.length locals + List.length (flat_map centralEntry before))
      (List.length entries)
    = Some (map (fun '(file, offset) =>
                   mkZipEntry (encode file.(zip_name)) file.(zip_data)
                              (_crc32 file.(zip_data)) (_crc32 file.(zip_data)) offset)
                entries).
Proof.
  induction entries as [|[file offset] entries IH]; intros before post Hbuf Hall;
    [reflexivity|].
  inversion Hall as [|? ? Hhead Hrest]; subst.
  cbv beta iota in Hhead. destruct Hhead as (Hname & Hoff & Hlocal).
  cbn [List.length readDirectory map].
  set (buffer := locals ++ _) in *.
  assert (Hc : readCentral buffer
                 (List.length locals + List.length (flat_map centralEntry before))
               = Some (_crc32 file.(zip_data), offset, encode file.(zip_name),
                       (List.length locals
                        + List.length (flat_map centralEntry (before ++ [(file, offset)])))%nat)).
  { unfold buffer. cbn [flat_map].
    replace (locals ++ flat_map centralEntry before
             ++ (centralEntry (file, offset) ++ flat_map centralEntry entries) ++ post)
      with ((locals ++ flat_map centralEntry before)
            ++ centralEntry (file, offset) ++ (flat_map centralEntry entries ++ post))
      by (rewrite <- !app_assoc; reflexivity).
    rewrite <- length_app.
    rewrite readCentral_entry by assumption.
    rewrite flat_map_app, !length_app. cbn [flat_map]. rewrite app_nil_r.
    rewrite Nat.add_assoc. reflexivity. }
  rewrite Hc, Hlocal.
  destruct (list_eq_dec byte_eq_dec (encode (zip_name file)) (encode (zip_name file)))
    as [_|Hne]; [|congruence].
  cbn [guard].
  rewrite (IH (before ++ [(file, offset)]) post).
  - reflexivity.
  - unfold buffer. rewrite flat_map_app. cbn [flat_map].
    rewrite app_nil_r, <- !app_assoc. reflexivity.
  - exact Hrest.
Qed.

Lemma archiveBytes_length (files : list ZipFile) :
  List.length (archiveBytes files)
  = (List.length (flat_map localEntry files) + List.length (centralDirectory files)
     + 22)%nat.
Proof.
  unfold archiveBytes. cbv zeta. rewrite !length_app, eocdBytes_length. lia.
Qed.

(** Reading an archive of [generate] gives back its entries, when the
    16-bit and 32-bit fields of the format can hold the counts, lengths and
    offsets. *)
Lemma unzip_archive (files : list ZipFile) :
  (Z.of_nat (List.length files) < 2 ^ 16)%Z ->
  Forall (fun file => (Z.of_nat (List.length (encode file.(zip_name))) < 2 ^ 16)%Z) files ->
  (Z.of_nat (List.length (archiveBytes files)) < 2 ^ 32)%Z ->
  unzip (archiveBytes files) = Some (entriesOf files).
Proof.
  intros Hcount Hnames Hsize.
  pose proof (archiveBytes_length files) as Hlen. rewrite Hlen in Hsize.
  unfold unzip. rewrite Hlen.
  set (locals := flat_map localEntry files) in *.
  set (central := centralDirectory files) in *.
  set (eocd := eocdBytes (List.length files) (List.length central) (List.length locals)).
  assert (Hbuf : archiveBytes files = (locals ++ central) ++ eocd).
  { unfold archiveBytes. cbv zeta. fold locals central eocd.
    rewrite <- app_assoc. reflexivity. }
  rewrite Hbuf.
  destruct (Nat.leb_spec 22 (List.length locals + List.length central + 22)) as [_|H];
    [|lia].
  cbn [guard].
  replace (List.length locals + List.length central + 22 - 22)%nat
    with (List.length (locals ++ central)) by (rewrite length_app; lia).
  assert (H0 : getUint32 ((locals ++ central) ++ eocd) (List.length (locals ++ central))
               = Some 0x06054b50%Z).
  { pose proof (read32_at (locals ++ central) eocd 0 0x06054b50%Z (skipn 4 eocd) eq_refl)
      as H.
    rewrite Nat.add_0_r in H. exact H. }
  rewrite H0. cbn [guard Z.eqb Pos.eqb].
  erewrite (read16_at (locals ++ central) eocd 10) by reflexivity.
  erewrite (read32_at (locals ++ central) eocd 16) by reflexivity.
  rewrite !Z.mod_small by lia. rewrite !Nat2Z.id.
  rewrite <- Hbuf.
  pose proof (readDirectory_entries (archiveBytes files) locals
                (combine files (localOffsets files 0)) [] eocd) as Hdir.
  cbn [flat_map app List.length] in Hdir. rewrite Nat.add_0_r in Hdir.
  rewrite length_combine, localOffsets_length, Nat.min_id in Hdir.
  apply Hdir; clear Hdir.
  - unfold archiveBytes. cbv zeta. reflexivity.
  - apply Forall_forall. intros [file offset] Hin.
    pose proof (in_combine_l _ _ _ _ Hin) as Hfile.
    destruct (localOffsets_in files 0 file offset Hin) as (before & after & Hfiles & Hoff).
    cbn [Nat.add] in Hoff.
    assert (Hle : (offset + List.length (localEntry file) <= List.length locals)%nat).
    { unfold locals. rewrite Hfiles, flat_map_app, length_app. cbn [flat_map].
      rewrite length_app. lia. }
    assert (Hdata : (List.length file.(zip_data) <= List.length (localEntry file))%nat).
    { unfold localEntry. rewrite length_app. lia. }
    split; [exact (proj1 (Forall_forall _ _) Hnames file Hfile)|].
    split; [lia|].
    unfold archiveBytes. cbv zeta. rewrite Hfiles at 1.
    rewrite flat_map_app. cbn [flat_map]. rewrite <- !app_assoc, Hoff.
    apply readLocal_entry.
    + exact (proj1 (Forall_forall _ _) Hnames file Hfile).
    + lia.
Qed.

(** ** CRC-32: the table-driven loop is the bit-by-bit checksum *)

Lemma toUint32_range (w : Z) : (0 <= toUint32 w < 2 ^ 32)%Z.
Proof. unfold toUint32. apply Z.mod_pos_bound. lia. Qed.

Lemma toUint32_small (w : Z) : (0 <= w < 2 ^ 32)%Z -> toUint32 w = w.
Proof. intro H. unfold toUint32. apply Z.mod_small. exact H. Qed.

(** [toInt32] changes a number by a multiple of [2 ^ 32]. *)
Lemma toInt32_congruent (w : Z) : exists k : Z, toInt32 w = (w + k * 2 ^ 32)%Z.
Proof.
  unfold toInt32, toUint32.
  pose proof (Z.div_mod w (2 ^ 32) ltac:(lia)) as E.
  destruct (w mod 2 ^ 32 <? 2 ^ 31)%Z.
  - exists (- (w / 2 ^ 32))%Z. lia.
  - exists (- (w / 2 ^ 32) - 1)%Z. lia.
Qed.

Lemma toUint32_toInt32 (w : Z) : toUint32 (toInt32 w) = toUint32 w.
Proof.
  destruct (toInt32_congruent w) as [k ->]. unfold toUint32.
  apply Z_mod_plus_full.
Qed.

Lemma toInt32_mod256 (w : Z) : (toInt32 w mod 256 = w mod 256)%Z.
Proof.
  destruct (toInt32_congruent w) as [k ->].
  replace (w + k * 2 ^ 32)%Z with (w + (k * 2 ^ 24) * 256)%Z by lia.
  apply Z_mod_plus_full.
Qed.

Lemma toInt32_small (w : Z) : (0 <= w < 2 ^ 31)%Z -> toInt32 w = w.
Proof.
  intro H. unfold toInt32, toUint32. rewrite Z.mod_small by lia.
  destruct (Z.ltb_spec w (2 ^ 31)); [reflexivity|lia].
Qed.

Lemma lxor_mod (a b n : Z) :
  (0 <= n)%Z -> (Z.lxor a b mod 2 ^ n = Z.lxor (a mod 2 ^ n) (b mod 2 ^ n))%Z.
Proof.
  intro Hn. rewrite <- !Z.land_ones by exact Hn.
  apply Z.bits_inj'. intros m Hm.
  rewrite !Z.land_spec, !Z.lxor_spec, !Z.land_spec.
  destruct (Z.testbit (Z.ones n) m), (Z.testbit a m), (Z.testbit b m); reflexivity.
Qed.

Lemma toUint32_lxor (a b : Z) :
  toUint32 (Z.lxor a b) = Z.lxor (toUint32 a) (toUint32 b).
Proof. unfold toUint32. apply lxor_mod. lia. Qed.

Lemma land_255 (w : Z) : Z.land w 0xff = (w mod 256)%Z.
Proof. change 0xff%Z with (Z.ones 8). rewrite Z.land_ones by lia. reflexivity. Qed.

(** One shift of the checksum is linear for [xor]. *)
Lemma crcShift_lxor (a b : Z) :
  crcShift (Z.lxor a b) = Z.lxor (crcShift a) (crcShift b).
Proof.
  unfold crcShift.
  rewrite <- !Z.bit0_odd, Z.lxor_spec, Z.shiftr_lxor.
  apply Z.bits_inj'. intros m Hm.
  destruct (Z.testbit a 0), (Z.testbit b 0); cbn [xorb];
    rewrite !Z.lxor_spec;
    destruct (Z.testbit (Z.shiftr a 1) m), (Z.testbit (Z.shiftr b 1) m),
             (Z.testbit 0xEDB88320 m); reflexivity.
Qed.

Lemma crcShifts_lxor (k : nat) (a b : Z) :
  Nat.iter k crcShift (Z.lxor a b)
  = Z.lxor (Nat.iter k crcShift a) (Nat.iter k crcShift b).
Proof.
  induction k as [|k IH]; [reflexivity|].
  cbn [Nat.iter nat_rect]. unfold Nat.iter in IH. rewrite IH. apply crcShift_lxor.
Qed.

Lemma crcShift_double (m : Z) : crcShift (2 * m)%Z = m.
Proof.
  unfold crcShift. rewrite Z.odd_mul. cbn [Z.odd andb].
  rewrite Z.shiftr_div_pow2 by lia. change (2 ^ 1)%Z with 2%Z.
  rewrite Z.mul_comm. apply Z.div_mul. lia.
Qed.

(** [k] shifts of a number whose [k] low bits are zero just drop them. *)
Lemma crcShifts_high (k : nat) (m : Z) :
  Nat.iter k crcShift (2 ^ Z.of_nat k * m)%Z = m.
Proof.
  revert m. induction k as [|k IH]; intro m.
  - cbn. destruct m; reflexivity.
  - rewrite Nat.iter_succ_r.
    rewrite Nat2Z.inj_succ, Z.pow_succ_r by lia.
    rewrite <- Z.mul_assoc, crcShift_double. apply IH.
Qed.

Lemma split_low_bits (x : Z) :
  x = Z.lxor (2 ^ 8 * (x / 2 ^ 8))%Z (x mod 2 ^ 8)%Z.
Proof.
  rewrite <- Z.add_nocarry_lxor.
  - apply Z.div_mod. lia.
  - apply Z.bits_inj'. intros n Hn. rewrite Z.land_spec, Z.bits_0.
    destruct (Z.ltb_spec n 8).
    + rewrite (Z.mul_comm (2 ^ 8)), Z.mul_pow2_bits_low by lia. reflexivity.
    + rewrite Z.mod_pow2_bits_high by lia. apply andb_false_r.
Qed.

(** Eight shifts: the high part moves down, the low byte decides the rest. *)
Lemma crcShifts_byte (x : Z) :
  Nat.iter 8 crcShift x
  = Z.lxor (Z.shiftr x 8) (Nat.iter 8 crcShift (x mod 256)%Z).
Proof.
  rewrite (split_low_bits x) at 1.
  rewrite crcShifts_lxor.
  change (2 ^ 8)%Z with (2 ^ Z.of_nat 8)%Z at 1.
  rewrite crcShifts_high.
  rewrite Z.shiftr_div_pow2 by lia. reflexivity.
Qed.

(** The entries of the table are the eight shifts of their index. *)
Lemma crcTable_entries :
  _makeCRCTable = map (fun i => Nat.iter 8 crcShift (Z.of_nat i)) (seq 0 256).
Proof. vm_compute. reflexivity. Qed.

Lemma crcTable_nth (i : Z) :
  (0 <= i < 256)%Z ->
  nth (Z.to_nat i) _makeCRCTable 0%Z = Nat.iter 8 crcShift i.
Proof.
  intro Hi. rewrite crcTable_entries.
  set (f := fun i : nat => Nat.iter 8 crcShift (Z.of_nat i)).
  rewrite (nth_indep (map f (seq 0 256)) 0%Z (f 0%nat))
    by (rewrite length_map, length_seq; lia).
  rewrite map_nth, seq_nth by lia. unfold f. cbn [Nat.add].
  rewrite Z2Nat.id by lia. reflexivity.
Qed.

Lemma crcTable_range (i : nat) : (0 <= nth i _makeCRCTable 0 < 2 ^ 32)%Z.
Proof.
  destruct (Nat.lt_ge_cases i 256) as [Hi|Hi].
  - unfold _makeCRCTable.
    set (f := fun i : nat => crcTableEntry (Z.of_nat i)).
    rewrite (nth_indep (map f (seq 0 256)) 0%Z (f 0%nat))
      by (rewrite length_map, length_seq; exact Hi).
    rewrite map_nth. unfold f, crcTableEntry. apply toUint32_range.
  - rewrite nth_overflow; [lia|].
    unfold _makeCRCTable. rewrite length_map, length_seq. exact Hi.
Qed.

Lemma Z_of_byte_range (b : byte) : (0 <= Z_of_byte b < 256)%Z.
Proof.
  unfold Z_of_byte. pose proof (Byte.to_N_bounded b). lia.
Qed.

Lemma lxor_range (a b : Z) :
  (0 <= a < 2 ^ 32)%Z -> (0 <= b < 2 ^ 32)%Z -> (0 <= Z.lxor a b < 2 ^ 32)%Z.
Proof.
  intros Ha Hb.
  rewrite <- (Z.mod_small a (2 ^ 32)), <- (Z.mod_small b (2 ^ 32)) by assumption.
  rewrite <- lxor_mod by lia. apply Z.mod_pos_bound. lia.
Qed.

(** One round of the loop of [_crc32], on the unsigned value of [crc]. *)
Lemma crc_round (crc : Z) (b : byte) :
  toUint32
    (js_xor (js_ushr crc 8)
            (nth (Z.to_nat (js_and (js_xor crc (Z_of_byte b)) 0xff)) _makeCRCTable 0%Z))
  = crcByte (toUint32 crc) b.
Proof.
  pose proof (Z_of_byte_range b) as Hb.
  pose proof (toUint32_range crc) as Hu.
  set (u := toUint32 crc) in *.
  assert (Hidx : js_and (js_xor crc (Z_of_byte b)) 0xff
                 = (Z.lxor u (Z_of_byte b) mod 256)%Z).
  { unfold js_and, js_xor. rewrite land_255, toInt32_mod256.
    rewrite toInt32_small.
    - change 256%Z with (2 ^ 8)%Z. rewrite !(lxor_mod _ _ 8) by lia.
      f_equal. unfold u, toUint32.
      change (2 ^ 32)%Z with (2 ^ 8 * 2 ^ 24)%Z.
      rewrite Z.rem_mul_r by lia.
      rewrite Z.mul_comm, Z_mod_plus_full. apply eq_sym, Z.mod_mod. lia.
    - pose proof (Z.mod_pos_bound (Z.lxor crc (Z_of_byte b)) 256 ltac:(lia)). lia. }
  rewrite Hidx.
  rewrite crcTable_nth by (apply Z.mod_pos_bound; lia).
  unfold crcByte. rewrite (crcShifts_byte (Z.lxor u (Z_of_byte b))).
  unfold js_xor, js_ushr. fold u.
  rewrite toUint32_toInt32.
  assert (Hhigh : Z.shiftr (Z.lxor u (Z_of_byte b)) 8 = Z.shiftr u 8).
  { rewrite Z.shiftr_lxor.
    rewrite (Z.shiftr_div_pow2 (Z_of_byte b)) by lia.
    rewrite (Z.div_small (Z_of_byte b)) by (change (2 ^ 8)%Z with 256%Z; lia).
    apply Z.lxor_0_r. }
  rewrite Hhigh.
  apply toUint32_small. apply lxor_range.
  - rewrite Z.shiftr_div_pow2 by lia. split.
    + apply Z.div_pos; lia.
    + apply Z.div_lt_upper_bound; lia.
  - rewrite <- crcTable_nth by (apply Z.mod_pos_bound; lia). apply crcTable_range.
Qed.

(** [_crc32] computes the CRC-32 with the reflected polynomial
    [0xEDB88320], initial value and final complement [0xFFFFFFFF]. *)
Lemma _crc32_bitwise (data : list byte) : _crc32 data = crc32_bitwise data.
Proof.
  unfold _crc32, crc32_bitwise.
  assert (Hloop : forall (crc u : Z),
    toUint32 crc = u ->
    toUint32
      (fold_left
         (fun crc b =>
            js_xor (js_ushr crc 8)
                   (nth (Z.to_nat (js_and (js_xor crc (Z_of_byte b)) 0xff))
                        _makeCRCTable 0%Z))
         data crc)
    = fold_left crcByte data u).
  { induction data as [|b data IH]; intros crc u Hu; [exact Hu|].
    cbn [fold_left]. apply IH. rewrite crc_round, Hu. reflexivity. }
  unfold js_ushr at 1. rewrite Z.shiftr_0_r.
  unfold js_xor at 1. rewrite toUint32_toInt32, toUint32_lxor.
  rewrite (Hloop _ 0xffffffff%Z) by reflexivity.
  reflexivity.
Qed.

(** The check value of CRC-32: the checksum of "123456789". *)
Example crc32_check_value :
  _crc32 (list_byte_of_string "123456789") = 0xCBF43926%Z.
Proof. vm_compute. reflexivity. Qed.

(** ** Archives: round trip *)

(** The decoder reads back what the encoder writes. *)
Lemma decode_utf8 (c : ascii) (rest : list byte) :
  decode (utf8 c ++ rest) = option_map (String c) (decode rest).
Proof.
  destruct c as [[] [] [] [] [] [] [] []]; reflexivity.
Qed.

Lemma decode_encode (s : string) : decode (encode s) = Some s.
Proof.
  unfold encode. induction s as [|c s IH]; [reflexivity|].
  cbn [list_ascii_of_string flat_map].
  rewrite decode_utf8, IH. reflexivity.
Qed.

(** A run of the letter [a] is encoded byte for byte. *)
Lemma encode_run (n : nat) :
  encode (string_of_list_byte (repeat "a"%byte n)) = repeat "a"%byte n.
Proof.
  unfold encode. induction n as [|n IH]; [reflexivity|].
  cbn [repeat]. change (string_of_list_byte ("a"%byte :: ?l))
    with (String "a" (string_of_list_byte l)).
  cbn [list_ascii_of_string flat_map]. rewrite IH. reflexivity.
Qed.

(** C7, as the code has it.  For every sequence of (name, bytes) entries
    added to a [SimpleZip], with fewer than [2 ^ 16] entries, names of
    fewer than [2 ^ 16] bytes in UTF-8 and an archive of fewer than
    [2 ^ 32] bytes, the buffer returned by [generate] can be read back:
    reading it recovers the name and the raw bytes of every entry,
    unchanged and in insertion order; every central-directory record stores
    the offset of the local record of its entry from the start of the
    buffer; and the CRC-32 fields of the local and central records are the
    CRC-32 of the bytes of the entry, computed with the reflected
    polynomial [0xEDB88320], initial value and final complement
    [0xFFFFFFFF]. *)
Theorem generate_roundtrip (files : list ZipFile) :
  (Z.of_nat (List.length files) < 2 ^ 16)%Z ->
  Forall (fun file => (Z.of_nat (List.length (encode file.(zip_name))) < 2 ^ 16)%Z) files ->
  (Z.of_nat (List.length (archiveBytes files)) < 2 ^ 32)%Z ->
  exists buffer entries,
    generate files = Ok buffer /\
    unzip buffer = Some entries /\
    map (fun e => decode e.(entry_name)) entries
    = map (fun file => Some file.(zip_name)) files /\
    map entry_data entries = map zip_data files /\
    map entry_offset entries = localOffsets files 0 /\
    Forall (fun e =>
              e.(entry_crc_local) = crc32_bitwise e.(entry_data) /\
              e.(entry_crc_central) = crc32_bitwise e.(entry_data) /\
              readLocal buffer e.(entry_offset)
              = Some (e.(entry_crc_local), e.(entry_name), e.(entry_data)))
           entries.
Proof.
  intros Hcount Hnames Hsize.
  exists (archiveBytes files), (entriesOf files).
  split; [apply generate_archive|].
  split; [apply unzip_archive; assumption|].
  pose proof (localOffsets_length files 0) as Hlen.
  unfold entriesOf.
  split; [|split; [|split]].
  - rewrite map_map.
    generalize dependent (localOffsets files 0). clear.
    induction files as [|f files IH]; intros [|o offsets] H; try discriminate H;
      [reflexivity|].
    cbn [combine map entry_name].
    rewrite decode_encode, IH by (cbn in H; lia). reflexivity.
  - rewrite map_map.
    generalize dependent (localOffsets files 0). clear.
    induction files as [|f files IH]; intros [|o offsets] H; try discriminate H;
      [reflexivity|].
    cbn [combine map entry_data]. rewrite IH by (cbn in H; lia). reflexivity.
  - rewrite map_map.
    generalize dependent (localOffsets files 0). clear.
    induction files as [|f files IH]; intros [|o offsets] H; try discriminate H;
      [reflexivity|].
    cbn [combine map entry_offset]. rewrite IH by (cbn in H; lia). reflexivity.
  - apply Forall_forall. intros e He. apply in_map_iff in He.
    destruct He as ([file offset] & <- & Hin).
    cbn [entry_crc_local entry_crc_central entry_data entry_name entry_offset].
    split; [apply _crc32_bitwise|]. split; [apply _crc32_bitwise|].
    pose proof (in_combine_l _ _ _ _ Hin) as Hfile.
    destruct (localOffsets_in files 0 file offset Hin) as (before & after & Hfiles & Hoff).
    cbn [Nat.add] in Hoff.
    rewrite archiveBytes_length in Hsize.
    assert (Hle : (List.length (localEntry file)
                   <= List.length (flat_map localEntry files))%nat).
    { rewrite Hfiles, flat_map_app, length_app. cbn [flat_map].
      rewrite length_app. lia. }
    assert (Hdata : (List.length file.(zip_data) <= List.length (localEntry file))%nat).
    { unfold localEntry. rewrite length_app. lia. }
    unfold archiveBytes. cbv zeta. rewrite Hfiles at 1.
    rewrite flat_map_app. cbn [flat_map]. rewrite <- !app_assoc, Hoff.
    apply readLocal_entry.
    + exact (proj1 (Forall_forall _ _) Hnames file Hfile).
    + lia.
Qed.

Lemma generate_roundtrip_witness :
  exists buffer entries,
    generate twoFiles = Ok buffer /\
    unzip buffer = Some entries /\
    map (fun e => decode e.(entry_name)) entries
    = [Some "hero-character.stl"%string; Some "hero-base.stl"%string] /\
    map entry_data entries = [[x01; x02; x03]; []].
Proof.
  destruct (generate_roundtrip twoFiles) as (buffer & entries & H1 & H2 & H3 & H4 & _).
  - vm_compute. reflexivity.
  - repeat constructor; vm_compute; reflexivity.
  - vm_compute. reflexivity.
  - exists buffer, entries. repeat split; assumption.
Defined.

(** A file without bytes whose name has 65536 bytes in UTF-8: the 16-bit
    name-length fields wrap to 0. *)
Lemma long_name_lost (fileName : string) :
  Z.of_nat (List.length (encode fileName)) = 65536%Z ->
  let file := mkZipFile fileName [] in
  getUint16 (archiveBytes [file]) 26 = Some 0%Z /\
  unzip (archiveBytes [file]) = Some [mkZipEntry [] [] 0 0 0].
Proof.
  intros HnZ file.
  set (name := encode fileName) in *.
  set (locals := localEntry file).
  set (central := centralEntry (file, 0%nat)).
  set (eocd := eocdBytes 1 (List.length (central ++ [])) (List.length (locals ++ []))).
  assert (Hbuf : archiveBytes [file] = locals ++ central ++ eocd).
  { unfold archiveBytes, centralDirectory. cbn [flat_map localOffsets combine List.length].
    fold locals central eocd. rewrite !app_nil_r. reflexivity. }
  assert (Hlocals : List.length locals = (30 + List.length name)%nat).
  { unfold locals, localEntry. rewrite length_app, localHeaderBytes_length.
    cbn [zip_data zip_name file List.length]. fold name. lia. }
  assert (Hcentral : List.length central = (46 + List.length name)%nat).
  { unfold central, centralEntry. apply centralHeaderBytes_length. }
  rewrite Hbuf. split.
  - pose proof (read16_at [] (locals ++ central ++ eocd) 26
                  (Z.of_nat (List.length name))
                  (skipn 28 (locals ++ central ++ eocd)) eq_refl) as H.
    cbn [app List.length Nat.add] in H. rewrite H, HnZ. reflexivity.
  - unfold unzip.
    rewrite !length_app, Hlocals, Hcentral.
    change (List.length eocd) with 22%nat.
    destruct (Nat.leb_spec 22 (30 + List.length name + (46 + List.length name + 22)))
      as [_|H]; [|lia].
    cbn [guard].
    replace (30 + List.length name + (46 + List.length name + 22) - 22)%nat
      with (List.length (locals ++ central))
      by (rewrite length_app, Hlocals, Hcentral; lia).
    rewrite (app_assoc locals central eocd).
    assert (H0 : getUint32 ((locals ++ central) ++ eocd) (List.length (locals ++ central))
                 = Some 0x06054b50%Z).
    { pose proof (read32_at (locals ++ central) eocd 0 0x06054b50%Z (skipn 4 eocd) eq_refl)
        as H.
      rewrite Nat.add_0_r in H. exact H. }
    rewrite H0. cbn [guard Z.eqb Pos.eqb].
    erewrite (read16_at (locals ++ central) eocd 10) by reflexivity.
    erewrite (read32_at (locals ++ central) eocd 16) by reflexivity.
    change (Z.of_nat 1 mod 2 ^ 16)%Z with 1%Z.
    rewrite app_nil_r, Hlocals, Z.mod_small by lia.
    rewrite Nat2Z.id. change (Z.to_nat 1) with 1%nat.
    cbn [readDirectory].
    rewrite <- Hlocals, <- (app_assoc locals central eocd).
    unfold central at 1. rewrite readCentral_record. cbv zeta.
    cbn [zip_name zip_data file]. fold name.
    rewrite HnZ. change (65536 mod 2 ^ 16)%Z with 0%Z.
    change (Z.of_nat 0 mod 2 ^ 32)%Z with 0%Z. cbn [Z.to_nat firstn].
    pose proof (readLocal_record [] (central ++ eocd) file) as Hl.
    cbv zeta in Hl. cbn [zip_name zip_data file] in Hl.
    fold name locals in Hl. cbn [app List.length] in Hl.
    rewrite Hl, HnZ. change (65536 mod 2 ^ 16)%Z with 0%Z.
    cbn [Z.to_nat firstn skipn List.length].
    change (Z.of_nat 0 mod 2 ^ 32)%Z with 0%Z. cbn [Z.to_nat firstn].
    destruct (list_eq_dec byte_eq_dec [] []) as [_|Hne]; [|congruence].
    cbn [guard]. reflexivity.
Qed.

(** C7 as stated fails for a name of 65536 bytes: the 16-bit name-length
    fields of its records hold 0, and reading the archive gives back an
    entry with the empty name. *)
Lemma generate_long_name_lost :
  Z.of_nat (List.length (encode longName)) = 65536%Z /\
  exists buffer,
    generate [mkZipFile longName []] = Ok buffer /\
    getUint16 buffer 26 = Some 0%Z /\
    unzip buffer = Some [mkZipEntry [] [] 0 0 0].
Proof.
  assert (Hn : Z.of_nat (List.length (encode longName)) = 65536%Z).
  { unfold longName. rewrite encode_run, repeat_length. apply N_nat_Z. }
  split; [exact Hn|].
  exists (archiveBytes [mkZipFile longName []]).
  split; [apply generate_archive|].
  exact (long_name_lost longName Hn).
Qed.

(** ** The export *)

Section ExportFacts.

Context {RK : RenderKit} {PF : Platform}.

Lemma foldM_ok {A S : Type} (body : S -> A -> exn S) (l : list A) :
  (forall s a, exists s', body s a = Ok s') ->
  forall s, exists s', foldM body l s = Ok s'.
Proof.
  intro Hbody. induction l as [|a l IH]; intro s; cbn [foldM].
  - exists s. reflexivity.
  - destruct (Hbody s a) as [s1 ->]. cbn [bind]. apply IH.
Qed.

Lemma forEachM_ok {A B : Type} (body : A -> exn (list B)) (l : list A) :
  (forall a, exists out, body a = Ok out) ->
  exists out, forEachM body l = Ok out.
Proof.
  intro Hbody. induction l as [|a l [rest IH]]; cbn [forEachM].
  - exists []. reflexivity.
  - destruct (Hbody a) as [out ->]. cbn [bind]. rewrite IH. cbn [bind].
    eexists. reflexivity.
Qed.

Lemma accumulate_ok (sk : Skeleton) (skinVert : Vec3) (boneIdx : Z) (weight : Q)
    (st : Vec3 * Q) :
  exists st', accumulate sk skinVert boneIdx weight st = Ok st'.
Proof.
  unfold accumulate. destruct st as [skinned skinSum].
  destruct (Qltb (1 # 10000) weight); [|eexists; reflexivity].
  rewrite getBoneMatrix_cases. cbn [bind]. eexists. reflexivity.
Qed.

(** With a geometry at hand, skinning a vertex raises no error. *)
Lemma skinVertexWithPosition_ok (mesh : Mesh) (g : BufferGeometry) (i : nat)
    (px py pz : Q) :
  mesh.(geometry) = Some g ->
  exists v, skinVertexWithPosition mesh i px py pz = Ok v.
Proof.
  intro Hg. unfold skinVertexWithPosition. rewrite Hg. cbn [prop bind].
  destruct (flat_map _ _) as [|a attrs]; [eexists; reflexivity|].
  destruct (skeleton mesh) as [sk|]; [|eexists; reflexivity].
  match goal with
  | |- context [foldM ?body ?l ?s0] =>
      assert (Hbody : forall st a, exists st', body st a = Ok st');
        [|destruct (foldM_ok body l Hbody s0) as [[skinned skinSum] ->]]
  end.
  - intros st attr.
    destruct (accumulate_ok sk
                (match bindMatrix mesh with
                 | Some m => if negb (isIdentityMatrix (bindMatrix mesh))
                             then applyMatrix4 (mkVertex px py pz) m
                             else mkVertex px py pz
                 | None => mkVertex px py pz
                 end)
                (Qfloor (getX attr i)) (decodeWeight (getY attr i)) st) as [st1 H1].
    rewrite H1. cbn [bind]. apply accumulate_ok.
  - cbn [bind].
    destruct (bindMatrixInverse mesh);
      [destruct (negb _)|]; eexists; reflexivity.
Qed.

(** A mesh with a geometry and a position attribute is extracted without
    error. *)
Lemma extractMeshGeometry_ok (mesh : Mesh) (g : BufferGeometry) (p : BufferAttribute) :
  mesh.(geometry) = Some g ->
  g.(attributes).(position) = Some p ->
  exists e, extractMeshGeometry mesh = Ok e.
Proof.
  intros Hg Hp. unfold extractMeshGeometry. rewrite Hg. cbn [prop bind].
  rewrite Hp. cbn [prop bind].
  match goal with
  | |- context [forEachM ?body ?l] =>
      assert (Hbody : forall a, exists out, body a = Ok out);
        [|destruct (forEachM_ok body l Hbody) as [out ->]]
  end.
  - intro i.
    destruct (match morphAttributes_position g with
              | Some morphPositions => _
              | None => _
              end) as [[baseX baseY] baseZ].
    destruct (_ && _ && _).
    + destruct (skinVertexWithPosition_ok mesh g i baseX baseY baseZ Hg) as [v ->].
      cbn [bind]. eexists. reflexivity.
    + cbn [bind]. eexists. reflexivity.
  - cbn [bind]. eexists. reflexivity.
Qed.

Lemma shouldIncludeMesh_extractable (mesh : Mesh) (slotName : option string) :
  shouldIncludeMesh mesh slotName = true -> extractable mesh.
Proof.
  unfold shouldIncludeMesh, extractable.
  destruct (geometry mesh) as [g|]; [|discriminate].
  destruct (position (attributes g)) as [p|] eqn:Hp.
  - intros _. exists g, p. split; [reflexivity|exact Hp].
  - destruct (negb (visible mesh)); [discriminate|].
    destruct (match slotName with Some s => _ | None => _ end); [discriminate|].
    destruct (_ || _); discriminate.
Qed.

Lemma collectTriangles_ok (meshes : list Mesh) :
  Forall extractable meshes ->
  exists triangles skipped, collectTriangles meshes = Ok (triangles, skipped).
Proof.
  intro Hall. unfold collectTriangles. rewrite collectTriangles_extractAll.
  assert (H : exists gs, extractAll meshes = Ok gs).
  { induction Hall as [|mesh meshes (g & p & Hg & Hp) _ [gs IH]]; cbn [extractAll].
    - exists []. reflexivity.
    - destruct (extractMeshGeometry_ok mesh g p Hg Hp) as [e ->]. cbn [bind].
      rewrite IH. cbn [bind]. eexists. reflexivity. }
  destruct H as [gs ->]. cbn [bind].
  destruct (keep _ _) as [triangles skipped]. exists triangles, skipped. reflexivity.
Qed.

(** The meshes that [collectMeshes] returns can all be extracted. *)
Lemma collectMeshes_extractable (ck : CKType) :
  Forall extractable (characterMeshes (collectMeshes ck)) /\
  Forall extractable (baseMeshes (collectMeshes ck)).
Proof.
  destruct ck as [[[[entries|]]|]]; try (split; constructor).
  rewrite collectMeshes_route. unfold route. cbn [characterMeshes baseMeshes app].
  assert (H : forall keepIt,
            Forall extractable
              (map snd (filter keepIt (filter qualifies (slotNodes entries))))).
  { intro keepIt. apply Forall_forall. intros m Hm.
    apply in_map_iff in Hm. destruct Hm as ([s m'] & <- & Hin).
    apply filter_In in Hin. destruct Hin as [Hin _].
    apply filter_In in Hin. destruct Hin as [_ Hq].
    unfold qualifies in Hq. apply andb_true_iff in Hq. destruct Hq as [_ Hq].
    exact (shouldIncludeMesh_extractable _ _ Hq). }
  split; apply H.
Qed.

(** C8, as the code has it.  [exportCharacter] raises no error.  Without
    any mesh found it produces no output.  Otherwise, with [separateBase]
    true and a non-empty sequence of base meshes, the output is one archive
    named [{filename}.zip] that holds [{filename}-character.stl], when the
    sequence of character meshes is not empty, followed by
    [{filename}-base.stl], each a binary mesh buffer; with [separateBase]
    false, or with no base meshes found, the output is a single binary mesh
    buffer named [{filename}.stl]. *)
Theorem exportCharacter_output (options : ExportOptions) (ck : CKType) :
  let name := match options.(filename) with
              | Some f => f
              | None => "heroforge-character"%string
              end in
  let s := match options.(scale) with Some s => s | None => 10 end in
  let separate := match options.(separateBase) with Some b => b | None => true end in
  let chars := characterMeshes (collectMeshes ck) in
  let bases := baseMeshes (collectMeshes ck) in
  exportCharacter options None = Ok None /\
  exists charT baseT allT n1 n2 n3,
    collectTriangles chars = Ok (charT, n1) /\
    collectTriangles bases = Ok (baseT, n2) /\
    collectTriangles (chars ++ bases) = Ok (allT, n3) /\
    let charFile :=
      mkZipFile (name ++ "-character.stl")
                (stlFile (transformOwned charT s) "HeroForge Character") in
    let baseFile :=
      mkZipFile (name ++ "-base.stl")
                (stlFile (transformOwned baseT s) "HeroForge Base") in
    exportCharacter options (Some ck) =
    Ok match chars, bases with
       | [], [] => None
       | [], _ :: _ =>
           if separate
           then Some (mkDownload (archiveBytes [baseFile]) (name ++ ".zip"))
           else Some (mkDownload (stlFile (transformOwned allT s) "HeroForge Export")
                                 (name ++ ".stl"))
       | _ :: _, [] =>
           Some (mkDownload (stlFile (transformOwned allT s) "HeroForge Export")
                            (name ++ ".stl"))
       | _ :: _, _ :: _ =>
           if separate
           then Some (mkDownload (archiveBytes [charFile; baseFile]) (name ++ ".zip"))
           else Some (mkDownload (stlFile (transformOwned allT s) "HeroForge Export")
                                 (name ++ ".stl"))
       end.
Proof.
  cbv zeta. split; [reflexivity|].
  destruct (collectMeshes_extractable ck) as [Hc Hb].
  destruct (collectTriangles_ok _ Hc) as (charT & n1 & HcT).
  destruct (collectTriangles_ok _ Hb) as (baseT & n2 & HbT).
  destruct (collectTriangles_ok _ (proj2 (Forall_app _ _ _) (conj Hc Hb)))
    as (allT & n3 & HaT).
  exists charT, baseT, allT, n1, n2, n3.
  split; [exact HcT|]. split; [exact HbT|]. split; [exact HaT|].
  unfold exportCharacter.
  destruct (collectMeshes ck) as [chars bases]. cbn [characterMeshes baseMeshes] in *.
  destruct (separateBase options) as [[|]|];
    destruct chars as [|c chars]; destruct bases as [|b bases];
    cbn [app] in HaT;
    try (assert (E : Ok (allT, n3) = Ok (baseT, n2))
           by (rewrite <- HaT, <- HbT; reflexivity);
         injection E as -> ->);
    cbn [List.length Nat.eqb Nat.ltb Nat.leb andb app];
    try reflexivity;
    rewrite ?HcT, ?HbT, ?HaT; cbn [bind];
    rewrite ?trianglesToSTL_file; cbn [bind addFile app];
    rewrite ?generate_archive; cbn [bind downloadFile]; reflexivity.
Qed.

End ExportFacts.

(** The scene of the specification, exported with [separateBase] true: an
    archive "hero.zip" of two entries. *)
Example export_scenario_separate :
  exists buffer entries,
    exportCharacter (heroOptions true) (Some scenario)
    = Ok (Some (mkDownload buffer "hero.zip")) /\
    unzip buffer = Some entries /\
    map (fun e => string_of_list_byte e.(entry_name)) entries
    = ["hero-character.stl"%string; "hero-base.stl"%string].
Proof.
  eexists. eexists.
  split; [vm_compute; reflexivity|].
  split; vm_compute; reflexivity.
Qed.

(** C8 as stated fails: with [separateBase] true and a scene whose only
    mesh is a base mesh, the sequence of base meshes is not empty and the
    archive holds one entry, [hero-base.stl], not two. *)
Lemma export_base_only_one_entry :
  baseMeshes (collectMeshes pedestalOnly) = [Pedestal] /\
  characterMeshes (collectMeshes pedestalOnly) = [] /\
  exists buffer entries,
    exportCharacter (heroOptions true) (Some pedestalOnly)
    = Ok (Some (mkDownload buffer "hero.zip")) /\
    unzip buffer = Some entries /\
    map (fun e => string_of_list_byte e.(entry_name)) entries
    = ["hero-base.stl"%string].
Proof.
  split; [reflexivity|]. split; [reflexivity|].
  eexists. eexists.
  split; [vm_compute; reflexivity|].
  split; vm_compute; reflexivity.
Qed.

(** ** Weights and skinning: further properties *)




Section SkinningMore.

Context {RK : RenderKit}.

(** [skinVertexWithPosition] on a mesh with skin attributes and a skeleton,
    from the state in which its loop ends. *)
Lemma skinVertexWithPosition_run (mesh : Mesh) (geom : BufferGeometry)
    (skel : Skeleton) (vertexIndex : nat) (px py pz : Q) (skinned : Vec3) (skinSum : Q) :
  mesh.(geometry) = Some geom ->
  mesh.(skeleton) = Some skel ->
  skinAttributes geom <> [] ->
  foldM (fun st '(boneIdx, weight) =>
           accumulate skel (toBindSpace mesh (mkVertex px py pz)) boneIdx weight st)
        (influences geom vertexIndex) (mkVertex 0 0 0, 0)
  = Ok (skinned, skinSum) ->
  skinVertexWithPosition mesh vertexIndex px py pz =
  Ok (fromBindSpace mesh
        (if Qltb (1 # 10000) skinSum then divideScalar skinned skinSum
         else toBindSpace mesh (mkVertex px py pz))).
Proof.
  intros Hg Hs Hne Hloop.
  unfold skinVertexWithPosition. rewrite Hg, Hs. cbn [prop bind].
  fold (skinAttributes geom).
  destruct (skinAttributes geom) as [|a attrs] eqn:Ha; [congruence|].
  rewrite skinning_loop. rewrite <- Ha.
  change (flat_map _ (skinAttributes geom)) with (influences geom vertexIndex).
  assert (Hv : match bindMatrix mesh with
               | Some m => if negb (isIdentityMatrix (bindMatrix mesh))
                           then applyMatrix4 (mkVertex px py pz) m
                           else mkVertex px py pz
               | None => mkVertex px py pz
               end = toBindSpace mesh (mkVertex px py pz)).
  { unfold toBindSpace.
    destruct (bindMatrix mesh); [|reflexivity].
    destruct (isIdentityMatrix _); reflexivity. }
  rewrite Hv, Hloop. cbn [bind].
  unfold fromBindSpace.
  destruct (bindMatrixInverse mesh); [|reflexivity].
  destruct (isIdentityMatrix _); reflexivity.
Qed.

Lemma fromBindSpace_veq (mesh : Mesh) (a b : Vec3) :
  veq a b -> veq (fromBindSpace mesh a) (fromBindSpace mesh b).
Proof.
  intro H. unfold fromBindSpace.
  destruct (bindMatrixInverse mesh); [|exact H].
  destruct (isIdentityMatrix _); [exact H|].
  apply applyMatrix4_veq. exact H.
Qed.

(** X3. A mesh without any skin attribute, or without a skeleton, is not
    skinned: [skinVertexWithPosition] returns the position transformed by
    the world matrix of the mesh, whatever its bind matrix; and on a mesh
    without geometry it raises a [TypeError]. *)
Theorem skinVertex_unskinned (mesh : Mesh) (vertexIndex : nat) (px py pz : Q) :
  match mesh.(geometry) with
  | None => skinVertexWithPosition mesh vertexIndex px py pz = Throw TypeError
  | Some geom =>
      skinAttributes geom = [] \/ mesh.(skeleton) = None ->
      skinVertexWithPosition mesh vertexIndex px py pz
      = Ok (applyMatrix4 (mkVertex px py pz) mesh.(matrixWorld))
  end.
Proof.
  unfold skinVertexWithPosition.
  destruct (geometry mesh) as [geom|]; [|reflexivity].
  cbn [prop bind]. fold (skinAttributes geom).
  intros [H|H].
  - rewrite H. reflexivity.
  - rewrite H. destruct (skinAttributes geom); reflexivity.
Qed.

(** X4. When no decoded weight of the vertex is above [1e-4], no bone
    moves it: the result is the position moved into bind space and back,
    and the world matrix of the mesh is not applied. *)
Theorem skinVertex_no_influence (mesh : Mesh) (geom : BufferGeometry)
    (skel : Skeleton) (vertexIndex : nat) (px py pz : Q) :
  mesh.(geometry) = Some geom ->
  mesh.(skeleton) = Some skel ->
  skinAttributes geom <> [] ->
  Forall (fun p => snd p <= 1 # 10000) (influences geom vertexIndex) ->
  skinVertexWithPosition mesh vertexIndex px py pz
  = Ok (fromBindSpace mesh (toBindSpace mesh (mkVertex px py pz))).
Proof.
  intros Hg Hs Hne Hsmall.
  rewrite (skinVertexWithPosition_run mesh geom skel vertexIndex px py pz
             (mkVertex 0 0 0) 0 Hg Hs Hne).
  - reflexivity.
  - apply skinning_skips. exact Hsmall.
Qed.

(** The loop of the blend when every influence above the threshold has the
    same skin matrix: the sum is the transformed vertex times the sum of
    the weights. *)
Lemma blend_common (skel : Skeleton) (skinVert : Vec3) (m : Matrix4)
    (l : list (Z * Q)) :
  Forall (fun p => 1 # 10000 < snd p -> getBoneMatrix skel (fst p) = Ok m) l ->
  forall (skinned : Vec3) (skinSum : Q),
    0 <= skinSum ->
    veq skinned (scaleBy (applyMatrix4 skinVert m) skinSum) ->
    exists skinned' skinSum',
      foldM (fun st '(boneIdx, weight) => accumulate skel skinVert boneIdx weight st)
            l (skinned, skinSum) = Ok (skinned', skinSum') /\
      skinSum <= skinSum' /\
      veq skinned' (scaleBy (applyMatrix4 skinVert m) skinSum') /\
      (Exists (fun p => 1 # 10000 < snd p) l -> 1 # 10000 < skinSum').
Proof.
  induction 1 as [|[b w] l Hb _ IH]; intros skinned skinSum Hsum Hveq.
  - exists skinned, skinSum. split; [reflexivity|]. split; [lra|].
    split; [exact Hveq|]. intro H. inversion H.
  - cbn [foldM]. unfold accumulate at 1. cbn [fst snd] in Hb.
    destruct (Qltb (1 # 10000) w) eqn:E.
    + apply Qltb_lt in E. rewrite (Hb E). cbn [bind].
      destruct (IH (addScaledVector skinned (applyMatrix4 skinVert m) w) (skinSum + w))
        as (sk' & s' & Hrun & Hle & Hv & _).
      * lra.
      * destruct Hveq as (Hx & Hy & Hz).
        unfold veq, addScaledVector, scaleBy in *; cbn [x y z] in *.
        rewrite Hx, Hy, Hz. repeat split; ring.
      * exists sk', s'. split; [exact Hrun|]. split; [lra|].
        split; [exact Hv|]. intros _. lra.
    + apply Qltb_ge in E. cbn [bind].
      destruct (IH skinned skinSum Hsum Hveq) as (sk' & s' & Hrun & Hle & Hv & Hex).
      exists sk', s'. split; [exact Hrun|]. split; [exact Hle|].
      split; [exact Hv|]. intro H. apply Hex.
      inversion H as [p l' Hp|p l' Hp]; subst; [cbn [snd] in Hp; lra|exact Hp].
Qed.


End SkinningMore.

(** ** Scene query: further properties *)

Section SceneQueryMore.

Context {RK : RenderKit}.

Lemma eqb_false_neq (s t : string) : String.eqb s t = false -> s <> t.
Proof. intros E H. apply String.eqb_eq in H. congruence. Qed.

Lemma qualifies_exportable (slotName : string) (mesh : Mesh) :
  qualifies (slotName, mesh) = true -> exportable mesh.
Proof.
  unfold qualifies. intro H. apply andb_true_iff in H. destruct H as [Hm H].
  unfold shouldIncludeMesh in H. unfold exportable.
  destruct (geometry mesh) as [g|]; [|discriminate].
  destruct (visible mesh); cbn [negb] in H; [|discriminate].
  destruct (startsWith slotName "_"); [discriminate|].
  destruct (String.eqb (name mesh) "facePads") eqn:E1; [discriminate|].
  destruct (String.eqb (name mesh) "_debugPass") eqn:E2; [discriminate|].
  cbn [orb] in H.
  destruct (position (attributes g)) as [p|] eqn:Hp; [|discriminate].
  destruct (count p <? 3)%nat eqn:Hc; [discriminate|].
  destruct (String.eqb (geometry_type g) "PlaneBufferGeometry") eqn:T1; [discriminate|].
  destruct (String.eqb (geometry_type g) "PlaneGeometry") eqn:T2; [discriminate|].
  cbn [orb] in H.
  destruct (includes (toLowerCase (name mesh)) "ground") eqn:W1; [discriminate|].
  destruct (includes (toLowerCase (name mesh)) "floor") eqn:W2; [discriminate|].
  destruct (includes (toLowerCase (name mesh)) "plane") eqn:W3; [discriminate|].
  destruct (includes (toLowerCase (name mesh)) "shadow") eqn:W4; [discriminate|].
  destruct (includes (toLowerCase (name mesh)) "reflector") eqn:W5; [discriminate|].
  clear H. apply Nat.ltb_ge in Hc.
  split; [exact Hm|]. split; [reflexivity|].
  split; [apply eqb_false_neq; exact E1|].
  split; [apply eqb_false_neq; exact E2|].
  split; [repeat constructor; assumption|].
  exists g, p. split; [reflexivity|]. split; [exact Hp|]. split; [exact Hc|].
  split; apply eqb_false_neq; assumption.
Qed.

(** X6. Whatever the scene, every mesh that [collectMeshes] returns, in
    either group, is a visible mesh that is not named "facePads" or
    "_debugPass", whose lower-case name contains none of the words
    "ground", "floor", "plane", "shadow" and "reflector", and whose
    geometry is no plane and has at least three positions. *)
Theorem collectMeshes_exportable (ck : CKType) :
  Forall exportable (characterMeshes (collectMeshes ck)) /\
  Forall exportable (baseMeshes (collectMeshes ck)).
Proof.
  destruct ck as [[[[entries|]]|]]; try (split; constructor).
  rewrite collectMeshes_route. unfold route. cbn [characterMeshes baseMeshes app].
  assert (H : forall keepIt,
            Forall exportable
              (map snd (filter keepIt (filter qualifies (slotNodes entries))))).
  { intro keepIt. apply Forall_forall. intros m Hm.
    apply in_map_iff in Hm. destruct Hm as ([s m'] & <- & Hin).
    apply filter_In in Hin. destruct Hin as [Hin _].
    apply filter_In in Hin. destruct Hin as [_ Hq].
    exact (qualifies_exportable _ _ Hq). }
  split; apply H.
Qed.

(** X7. Without an active display, or without its record of meshes,
    [collectMeshes] returns two empty groups; and the slots whose name
    starts with an underscore or that hold no mesh are passed over: the
    result is that of the display without them. *)
Theorem collectMeshes_live_slots :
  collectMeshes (mkCK None) = mkCollectedMeshes [] [] /\
  collectMeshes (mkCK (Some (mkDisplay None))) = mkCollectedMeshes [] [] /\
  forall entries : list (string * option Mesh),
    collectMeshes (mkCK (Some (mkDisplay (Some entries)))) =
    collectMeshes (mkCK (Some (mkDisplay (Some (filter liveSlot entries))))).
Proof.
  split; [reflexivity|]. split; [reflexivity|].
  intro entries. rewrite !collectMeshes_route. f_equal.
  induction entries as [|[slotName mesh] entries IH]; [reflexivity|].
  cbn [filter liveSlot slotNodes flat_map]. fold (slotNodes entries).
  destruct mesh as [mesh|]; [|exact IH].
  destruct (startsWith slotName "_") eqn:E; cbn [negb]; [exact IH|].
  cbn [slotNodes flat_map]. rewrite E. fold (slotNodes (filter liveSlot entries)).
  rewrite IH. reflexivity.
Qed.

End SceneQueryMore.

(** ** Pose resolver and triangle assembler: further properties *)

Section ExtractionFacts.

Context {RK : RenderKit}.

Lemma forEachM_length {A B : Type} (body : A -> exn (list B)) (k : nat) (l : list A) :
  (forall a out, body a = Ok out -> List.length out = k) ->
  forall out, forEachM body l = Ok out -> List.length out = (k * List.length l)%nat.
Proof.
  intro Hbody. induction l as [|a l IH]; intros out H; cbn [forEachM] in H.
  - injection H as <-. cbn. lia.
  - destruct (body a) as [o|e] eqn:Ea; [|discriminate H]. cbn [bind] in H.
    destruct (forEachM body l) as [rest|e] eqn:El; [|discriminate H].
    cbn [bind] in H. injection H as <-.
    rewrite length_app, (Hbody a o Ea), (IH rest eq_refl). cbn [List.length]. lia.
Qed.

Lemma forEachM_pure {A B : Type} (body : A -> exn (list B)) (f : A -> list B)
    (l : list A) :
  (forall a, In a l -> body a = Ok (f a)) -> forEachM body l = Ok (flat_map f l).
Proof.
  induction l as [|a l IH]; intro H; [reflexivity|].
  cbn [forEachM flat_map]. rewrite (H a (or_introl eq_refl)). cbn [bind].
  rewrite IH by (intros b Hb; apply H; right; exact Hb). reflexivity.
Qed.

(** X8. [extractMeshGeometry] raises a [TypeError] on a mesh without
    geometry or without position attribute, and on no other mesh: there it
    returns three numbers for each of the [count] positions, and the index
    buffer of the geometry as it is. *)
Theorem extractMeshGeometry_outcome (mesh : Mesh) :
  match mesh.(geometry) with
  | None => extractMeshGeometry mesh = Throw TypeError
  | Some geom =>
      match geom.(attributes).(position) with
      | None => extractMeshGeometry mesh = Throw TypeError
      | Some posAttr =>
          exists g,
            extractMeshGeometry mesh = Ok g /\
            List.length g.(positions) = (3 * posAttr.(count))%nat /\
            g.(indices) = geom.(index)
      end
  end.
Proof.
  destruct (geometry mesh) as [geom|] eqn:Hg.
  - destruct (position (attributes geom)) as [posAttr|] eqn:Hp.
    + destruct (extractMeshGeometry_ok mesh geom posAttr Hg Hp) as [e He].
      exists e. split; [exact He|].
      unfold extractMeshGeometry in He. rewrite Hg in He. cbn [prop bind] in He.
      rewrite Hp in He. cbn [prop bind] in He.
      match type of He with
      | context [forEachM ?body ?l] =>
          destruct (forEachM body l) as [out|err] eqn:Hout; [|discriminate He];
          assert (Hbody : forall i o, body i = Ok o -> List.length o = 3%nat)
      end.
      { intros i o Ho.
        destruct (morphAttributes_position geom) as [ms|];
          [destruct (0 <? List.length ms)%nat;
             [destruct (applyMorphs _ _ _ _) as [[baseX baseY] baseZ]|]|];
          cbv beta iota zeta in Ho;
          (destruct (_ && _ && _);
             [match type of Ho with
              | context [skinVertexWithPosition ?a ?b ?c ?d ?e] =>
                  destruct (skinVertexWithPosition a b c d e); [|discriminate Ho]
              end|];
           cbn [bind] in Ho; injection Ho as <-; reflexivity). }
      cbn [bind] in He. injection He as <-. cbn [positions indices].
      split; [|reflexivity].
      rewrite (forEachM_length _ 3 _ Hbody out Hout).
      rewrite length_seq. reflexivity.
    + unfold extractMeshGeometry. rewrite Hg. cbn [prop bind]. rewrite Hp. reflexivity.
  - unfold extractMeshGeometry. rewrite Hg. reflexivity.
Qed.

(** Morph targets whose influence is not above the threshold leave the
    position as it is. *)
Lemma applyMorphs_inactive (morphPositions : list BufferAttribute)
    (morphInfluences : list Q) (i : nat) (base : Q * Q * Q) :
  Forall (fun q => q <= 1 # 10000) morphInfluences ->
  applyMorphs morphPositions morphInfluences i base = base.
Proof.
  intro Hall. unfold applyMorphs.
  generalize (seq 0 (List.length morphPositions)) as ms. intro ms. revert base.
  induction ms as [|m ms IH]; intro base; [reflexivity|].
  cbn [fold_left]. destruct base as [[baseX baseY] baseZ].
  assert (E : Qltb (1 # 10000)
                (match nth_error morphInfluences m with
                 | Some q => q
                 | None => 0
                 end) = false).
  { apply Qltb_ge. destruct (nth_error morphInfluences m) as [q|] eqn:En.
    - apply nth_error_In in En.
      exact (proj1 (Forall_forall _ _) Hall q En).
    - discriminate. }
  rewrite E. apply IH.
Qed.

(** X9. A mesh that is treated as rigid (the flag [isSkinnedMesh], the
    skeleton or the attribute [skin0] is missing) and has no morph
    influence above [1e-4]: every position of the attribute is transformed
    by the world matrix of the mesh, in order, and nothing else happens to
    it. *)
Theorem extractMeshGeometry_rigid (mesh : Mesh) (geom : BufferGeometry)
    (posAttr : BufferAttribute) :
  mesh.(geometry) = Some geom ->
  geom.(attributes).(position) = Some posAttr ->
  rigid mesh geom ->
  Forall (fun q => q <= 1 # 10000)
         (match mesh.(morphTargetInfluences) with Some l => l | None => [] end) ->
  extractMeshGeometry mesh =
  Ok (mkExtractedGeometry
        (flat_map
           (fun i =>
              let v := applyMatrix4
                         (mkVertex (posAttr.(getX) i) (posAttr.(getY) i)
                                   (posAttr.(getZ) i))
                         mesh.(matrixWorld) in
              [v.(x); v.(y); v.(z)])
           (seq 0 posAttr.(count)))
        geom.(index)).
Proof.
  intros Hg Hp Hrigid Hmorph.
  unfold extractMeshGeometry. rewrite Hg. cbn [prop bind].
  rewrite Hp. cbn [prop bind].
  assert (Hs : isSkinnedMesh mesh
               && match skeleton mesh with Some _ => true | None => false end
               && match skin0 (attributes geom) with Some _ => true | None => false end
               = false).
  { destruct Hrigid as [H|[H|H]]; rewrite H.
    - reflexivity.
    - rewrite andb_false_r. reflexivity.
    - rewrite andb_false_r. reflexivity. }
  rewrite Hs.
  erewrite forEachM_pure; [reflexivity|].
  intros i _. cbv beta.
  destruct (morphAttributes_position geom) as [ms|].
  - destruct (0 <? List.length ms)%nat.
    + rewrite (applyMorphs_inactive _ _ _ _ Hmorph). reflexivity.
    + reflexivity.
  - reflexivity.
Qed.

Lemma morphStep_target (morphPositions : list BufferAttribute)
    (morphInfluences : list Q) (i m : nat) (a : BufferAttribute) (bx by_ bz : Q) :
  nth_error morphPositions m = Some a ->
  let r := morphStep morphPositions morphInfluences i (bx, by_, bz) m in
  fst (fst r) == bx + a.(getX) i * activeInfluence morphInfluences m /\
  snd (fst r) == by_ + a.(getY) i * activeInfluence morphInfluences m /\
  snd r == bz + a.(getZ) i * activeInfluence morphInfluences m.
Proof.
  intro Ha. unfold morphStep, activeInfluence. rewrite Ha.
  destruct (nth_error morphInfluences m) as [q|].
  - destruct (Qltb (1 # 10000) q); cbn [fst snd]; repeat split; ring.
  - change (Qltb (1 # 10000) 0) with false. cbn [fst snd]. repeat split; ring.
Qed.

(** The morph loop from target [length done] on. *)
Lemma morph_loop (morphInfluences : list Q) (i : nat)
    (rest done : list BufferAttribute) (base : Q * Q * Q) :
  let entries := combine (seq (List.length done) (List.length rest)) rest in
  let r :=
    fold_left (morphStep (done ++ rest) morphInfluences i)
              (seq (List.length done) (List.length rest)) base in
  fst (fst r) ==
    fst (fst base)
    + Qsum (map (fun e => (snd e).(getX) i * activeInfluence morphInfluences (fst e))
                entries) /\
  snd (fst r) ==
    snd (fst base)
    + Qsum (map (fun e => (snd e).(getY) i * activeInfluence morphInfluences (fst e))
                entries) /\
  snd r ==
    snd base
    + Qsum (map (fun e => (snd e).(getZ) i * activeInfluence morphInfluences (fst e))
                entries).
Proof.
  revert done base.
  induction rest as [|a rest IH]; intros done [[bx by_] bz].
  - cbn. repeat split; ring.
  - cbn [List.length seq fold_left combine map Qsum fold_right fst snd].
    assert (Ha : nth_error (done ++ a :: rest) (List.length done) = Some a).
    { rewrite nth_error_app2 by lia. rewrite Nat.sub_diag. reflexivity. }
    destruct (morphStep_target _ morphInfluences i _ a bx by_ bz Ha) as (Ex & Ey & Ez).
    cbv zeta in Ex, Ey, Ez.
    pose proof (IH (done ++ [a])
                  (morphStep (done ++ a :: rest) morphInfluences i (bx, by_, bz)
                             (List.length done))) as IH'.
    rewrite length_app in IH'. cbn [List.length] in IH'.
    rewrite Nat.add_1_r in IH'. rewrite <- app_assoc in IH'. cbn [app] in IH'.
    cbv zeta in IH'. destruct IH' as (Hx & Hy & Hz).
    rewrite Hx, Hy, Hz, Ex, Ey, Ez. unfold Qsum. repeat split; ring.
Qed.


(** [collectTriangles] from any state. *)
Lemma collectTriangles_from (meshes : list Mesh) (st : list Triangle * nat) :
  foldM (fun st mesh => g <- extractMeshGeometry mesh ;; Ok (addGeometry g st))
        meshes st =
  ('(triangles, skipped) <- collectTriangles meshes ;;
   Ok (fst st ++ triangles, (snd st + skipped)%nat)).
Proof.
  unfold collectTriangles. rewrite !collectTriangles_extractAll.
  destruct (extractAll meshes) as [gs|e]; [|reflexivity].
  cbn [bind]. unfold keep. cbn [fst snd app Nat.add]. reflexivity.
Qed.

(** X11. The triangles of a list of meshes followed by another are the
    triangles of the first list followed by those of the second, and the
    numbers of skipped triangles add up; an error in either part is the
    error of the whole. *)
Theorem collectTriangles_app (meshes1 meshes2 : list Mesh) :
  collectTriangles (meshes1 ++ meshes2) =
  match collectTriangles meshes1 with
  | Ok (triangles1, skipped1) =>
      match collectTriangles meshes2 with
      | Ok (triangles2, skipped2) =>
          Ok (triangles1 ++ triangles2, (skipped1 + skipped2)%nat)
      | Throw e => Throw e
      end
  | Throw e => Throw e
  end.
Proof.
  unfold collectTriangles at 1. rewrite foldM_app.
  fold (collectTriangles meshes1).
  destruct (collectTriangles meshes1) as [[triangles1 skipped1]|e]; [|reflexivity].
  cbn [bind]. rewrite collectTriangles_from.
  destruct (collectTriangles meshes2) as [[triangles2 skipped2]|e]; reflexivity.
Qed.

Lemma hasPositions_extractable (mesh : Mesh) :
  hasPositions mesh = true <-> extractable mesh.
Proof.
  unfold hasPositions, extractable. split.
  - destruct (geometry mesh) as [g|]; [|discriminate].
    destruct (position (attributes g)) as [p|] eqn:Hp; [|discriminate].
    intros _. exists g, p. split; [reflexivity|exact Hp].
  - intros (g & p & -> & ->). reflexivity.
Qed.

(** X12. [collectTriangles] returns a result when every mesh of the list
    has a geometry with a position attribute; otherwise the whole call
    fails with a [TypeError], whatever the other meshes hold. *)
Theorem collectTriangles_outcome (meshes : list Mesh) :
  if forallb hasPositions meshes
  then exists triangles skipped, collectTriangles meshes = Ok (triangles, skipped)
  else collectTriangles meshes = Throw TypeError.
Proof.
  destruct (forallb hasPositions meshes) eqn:E.
  - apply collectTriangles_ok. apply Forall_forall. intros m Hm.
    apply hasPositions_extractable.
    exact (proj1 (forallb_forall _ _) E m Hm).
  - unfold collectTriangles. generalize (@nil Triangle, 0%nat) as st.
    induction meshes as [|mesh meshes IH]; intro st; [discriminate E|].
    cbn [forallb] in E. cbn [foldM].
    destruct (hasPositions mesh) eqn:Em.
    + cbn [andb] in E.
      destruct (extractMeshGeometry mesh) as [g|e] eqn:Eg.
      * cbn [bind]. apply IH. exact E.
      * apply hasPositions_extractable in Em. destruct Em as (g & p & Hg & Hp).
        destruct (extractMeshGeometry_ok mesh g p Hg Hp) as [e' He']. congruence.
    + assert (Hthrow : extractMeshGeometry mesh = Throw TypeError).
      { unfold hasPositions in Em. unfold extractMeshGeometry.
        destruct (geometry mesh) as [g|]; [|reflexivity]. cbn [prop bind].
        destruct (position (attributes g)); [discriminate Em|reflexivity]. }
      rewrite Hthrow. reflexivity.
Qed.

End ExtractionFacts.

(** ** Index buffers and the coordinate transform: further properties *)

Section AssemblerMore.

Context {RK : RenderKit}.

Lemma js_get_firstn {A : Type} (l : list A) (n : nat) (j : Z) :
  (j < Z.of_nat n)%Z -> js_get (firstn n l) j = js_get l j.
Proof.
  intro Hj. unfold js_get. destruct (j <? 0)%Z eqn:E; [reflexivity|].
  apply Z.ltb_ge in E. rewrite nth_error_firstn.
  destruct (Nat.ltb_spec (Z.to_nat j) n) as [_|H]; [reflexivity|lia].
Qed.

(** X13. An index buffer whose length is no multiple of 3 ends in an
    incomplete triple.  It raises no error: the incomplete triple is one
    more skipped triangle, and the triples before it are treated as if the
    buffer ended with them. *)
Theorem addGeometry_incomplete_triple (coordinates : list Q) (idx : list Z)
    (st : list Triangle * nat) :
  (List.length idx mod 3 <> 0)%nat ->
  addGeometry (mkExtractedGeometry coordinates (Some idx)) st =
  (let '(triangles, skipped) :=
     addGeometry
       (mkExtractedGeometry coordinates
          (Some (firstn (3 * (List.length idx / 3)) idx))) st in
   (triangles, S skipped)).
Proof.
  intro Hr.
  set (q := (List.length idx / 3)%nat).
  pose proof (Nat.div_mod_eq (List.length idx) 3) as Hlen. fold q in Hlen.
  pose proof (Nat.mod_upper_bound (List.length idx) 3 ltac:(lia)) as Hm.
  rewrite !addGeometry_keep. unfold candidates. cbn [indices positions].
  assert (Hfirst : List.length (firstn (3 * q) idx) = (3 * q)%nat)
    by (rewrite length_firstn; lia).
  rewrite Hfirst.
  assert (H1 : byThree (List.length idx) = byThree (3 * q) ++ [(3 * Z.of_nat q)%Z]).
  { unfold byThree.
    replace ((List.length idx + 2) / 3)%nat with (S q).
    - replace ((3 * q + 2) / 3)%nat with q.
      + rewrite seq_S, map_app. reflexivity.
      + apply (Nat.div_unique _ 3 q 2); lia.
    - apply (Nat.div_unique _ 3 (S q) (List.length idx mod 3 - 1)); lia. }
  rewrite H1, map_app, keep_app. cbn [map].
  assert (H2 :
    map (fun i => (getVertex coordinates (js_get idx i),
                   getVertex coordinates (js_get idx (i + 1)),
                   getVertex coordinates (js_get idx (i + 2))))
        (byThree (3 * q))
    = map (fun i => (getVertex coordinates (js_get (firstn (3 * q) idx) i),
                     getVertex coordinates (js_get (firstn (3 * q) idx) (i + 1)),
                     getVertex coordinates (js_get (firstn (3 * q) idx) (i + 2))))
          (byThree (3 * q))).
  { apply map_ext_in. intros i Hi. unfold byThree in Hi.
    apply in_map_iff in Hi. destruct Hi as (k & <- & Hk).
    apply in_seq in Hk.
    assert (Hq : (k < q)%nat).
    { replace ((3 * q + 2) / 3)%nat with q in Hk; [lia|].
      apply (Nat.div_unique _ 3 q 2); lia. }
    rewrite !js_get_firstn by lia. reflexivity. }
  rewrite H2.
  destruct (keep _ st) as [triangles skipped].
  rewrite keep_cons, keep_nil. cbn [fst snd].
  assert (Hlast : js_get idx (3 * Z.of_nat q + 2) = None) by (apply js_get_out; lia).
  unfold validCandidate. rewrite Hlast.
  change (isValidVertex (getVertex coordinates None)) with false.
  rewrite andb_false_r. reflexivity.
Qed.

End AssemblerMore.

(** A loop of assignments [v := f (v)] changes an object once for every
    time the loop visits it. *)
Lemma update_loop (f : Vertex -> Vertex) (refs : list ref) :
  forall (h : Heap) (r : ref),
    fold_left (fun h v => assign h v (f (h v))) refs h r
    = Nat.iter (count_occ Nat.eq_dec refs r) f (h r).
Proof.
  induction refs as [|a refs IH]; intros h r; [reflexivity|].
  cbn [fold_left count_occ]. rewrite IH. unfold assign.
  destruct (Nat.eq_dec a r) as [->|Hne].
  - rewrite Nat.eqb_refl. symmetry. apply Nat.iter_succ_r.
  - assert (E : Nat.eqb r a = false) by (apply Nat.eqb_neq; congruence).
    rewrite E. reflexivity.
Qed.

(** X14. [transformTriangles] changes the vertex objects in place, once
    for every slot of a triangle that refers to them: an object that [n]
    slots share is remapped [n] times and then moved up [n] times, where
    the move is computed from the least z after the remapping; an object
    that no triangle refers to is left as it was, and so is everything
    when the list is empty. *)
Theorem transformTriangles_aliasing (triangles : list TriangleObj) (s : Q) (h : Heap) :
  let refs := vertexRefs triangles in
  let times (r : ref) := count_occ Nat.eq_dec refs r in
  let remapped (r : ref) := Nat.iter (times r) (remap s) (h r) in
  forall r : ref,
    transformTriangles triangles s h r =
    match least (map (fun v => (remapped v).(z)) refs) with
    | Some minZ => Nat.iter (times r) (moveZ (- minZ + (5 # 2))) (remapped r)
    | None => h r
    end.
Proof.
  cbv zeta. unfold transformTriangles.
  set (refs := vertexRefs triangles). cbv zeta.
  match goal with
  | |- context [fold_left ?f refs h] => set (h1 := fold_left f refs h)
  end.
  assert (H1 : forall r, h1 r = Nat.iter (count_occ Nat.eq_dec refs r) (remap s) (h r)).
  { intro r. exact (update_loop (remap s) refs h r). }
  rewrite minZ_loop.
  assert (Hz : map (fun v => (h1 v).(z)) refs
               = map (fun v => (Nat.iter (count_occ Nat.eq_dec refs v) (remap s) (h v)).(z))
                     refs).
  { apply map_ext. intro r. rewrite H1. reflexivity. }
  rewrite Hz.
  match goal with
  | |- context [fold_left _ (map ?g refs) None] => fold (least (map g refs))
  end.
  intro r. destruct (least _) as [minZ|] eqn:E.
  - etransitivity; [exact (update_loop (moveZ (- minZ + (5 # 2))) refs h1 r)|].
    rewrite H1. reflexivity.
  - apply least_nil_iff in E. apply map_eq_nil in E.
    rewrite H1, E. reflexivity.
Qed.

(** ** Face normals: further properties *)

Section NormalFacts.

Context {PF : Platform}.




End NormalFacts.

(** ** Archives and checksums: further properties *)

Lemma localEntries_length (files : list ZipFile) :
  List.length (flat_map localEntry files)
  = list_sum (map (fun file => 30 + List.length (encode file.(zip_name))
                               + List.length file.(zip_data))%nat files).
Proof.
  induction files as [|f files IH]; [reflexivity|].
  cbn [flat_map map list_sum]. rewrite length_app, IH.
  unfold localEntry. rewrite length_app, localHeaderBytes_length. reflexivity.
Qed.

Lemma centralEntries_length (files : list ZipFile) (offsets : list nat) :
  List.length offsets = List.length files ->
  List.length (flat_map centralEntry (combine files offsets))
  = list_sum (map (fun file => 46 + List.length (encode file.(zip_name)))%nat files).
Proof.
  revert offsets. induction files as [|f files IH]; intros [|o offsets] H;
    try discriminate H; [reflexivity|].
  cbn [combine flat_map map list_sum]. rewrite length_app, IH by (cbn in H; lia).
  unfold centralEntry. rewrite centralHeaderBytes_length. reflexivity.
Qed.

(** X18. [generate] raises no error, whatever the files and however long
    their names and contents are; the archive has 30 bytes, the name and
    the contents for every file, then 46 bytes and the name again for
    every file, then 22 bytes. *)
Theorem generate_length (files : list ZipFile) :
  exists buffer,
    generate files = Ok buffer /\
    List.length buffer
    = (list_sum (map (fun file => 30 + List.length (encode file.(zip_name))
                                  + List.length file.(zip_data)) files)
       + list_sum (map (fun file => 46 + List.length (encode file.(zip_name))) files)
       + 22)%nat.
Proof.
  exists (archiveBytes files). split; [apply generate_archive|].
  rewrite archiveBytes_length, localEntries_length. unfold centralDirectory.
  rewrite centralEntries_length by apply localOffsets_length. reflexivity.
Qed.

(** One shift of the checksum register keeps it in 32 bits and can be
    undone: the top bit of the result tells whether the polynomial was
    added. *)
Lemma crcShift_range (c : Z) : (0 <= c < 2 ^ 32)%Z -> (0 <= crcShift c < 2 ^ 32)%Z.
Proof.
  intro Hc. unfold crcShift.
  assert (Hs : (0 <= Z.shiftr c 1 < 2 ^ 32)%Z).
  { rewrite Z.shiftr_div_pow2 by lia. change (2 ^ 1)%Z with 2%Z. split.
    - apply Z.div_pos; lia.
    - apply Z.div_lt_upper_bound; lia. }
  destruct (Z.odd c); [apply lxor_range; [exact Hs|lia]|exact Hs].
Qed.

Lemma crcShift_top (c : Z) :
  (0 <= c < 2 ^ 32)%Z -> Z.testbit (crcShift c) 31 = Z.odd c.
Proof.
  intro Hc.
  assert (Hhigh : Z.testbit (Z.shiftr c 1) 31 = false).
  { rewrite Z.shiftr_spec by lia. change (31 + 1)%Z with 32%Z.
    apply Z.testbit_false; [lia|].
    rewrite Z.div_small by lia. reflexivity. }
  unfold crcShift. destruct (Z.odd c).
  - rewrite Z.lxor_spec, Hhigh. reflexivity.
  - exact Hhigh.
Qed.

Lemma lxor_cancel_r (a b c : Z) : Z.lxor a c = Z.lxor b c -> a = b.
Proof.
  intro H.
  rewrite <- (Z.lxor_0_r a), <- (Z.lxor_0_r b), <- (Z.lxor_nilpotent c).
  rewrite <- !Z.lxor_assoc, H. reflexivity.
Qed.

Lemma crcShift_inj (a b : Z) :
  (0 <= a < 2 ^ 32)%Z -> (0 <= b < 2 ^ 32)%Z -> crcShift a = crcShift b -> a = b.
Proof.
  intros Ha Hb H.
  assert (Hodd : Z.odd a = Z.odd b).
  { rewrite <- (crcShift_top a Ha), <- (crcShift_top b Hb), H. reflexivity. }
  assert (Hhalf : Z.shiftr a 1 = Z.shiftr b 1).
  { unfold crcShift in H. rewrite <- Hodd in H.
    destruct (Z.odd a); [exact (lxor_cancel_r _ _ _ H)|exact H]. }
  rewrite (Z.div2_odd a), (Z.div2_odd b), !Z.div2_spec, Hhalf, Hodd. reflexivity.
Qed.

Lemma crcShifts_range (k : nat) (c : Z) :
  (0 <= c < 2 ^ 32)%Z -> (0 <= Nat.iter k crcShift c < 2 ^ 32)%Z.
Proof.
  intro Hc. induction k as [|k IH]; [exact Hc|].
  cbn [Nat.iter]. apply crcShift_range. exact IH.
Qed.

Lemma crcShifts_inj (k : nat) (a b : Z) :
  (0 <= a < 2 ^ 32)%Z -> (0 <= b < 2 ^ 32)%Z ->
  Nat.iter k crcShift a = Nat.iter k crcShift b -> a = b.
Proof.
  intros Ha Hb. induction k as [|k IH]; intro H; [exact H|].
  cbn [Nat.iter] in H. apply IH.
  apply crcShift_inj; [apply crcShifts_range; exact Ha
                      |apply crcShifts_range; exact Hb|exact H].
Qed.

Lemma byte_state_range (c : Z) (b : byte) :
  (0 <= c < 2 ^ 32)%Z -> (0 <= Z.lxor c (Z_of_byte b) < 2 ^ 32)%Z.
Proof.
  intro Hc. apply lxor_range; [exact Hc|].
  pose proof (Z_of_byte_range b). lia.
Qed.

Lemma crcByte_range (c : Z) (b : byte) :
  (0 <= c < 2 ^ 32)%Z -> (0 <= crcByte c b < 2 ^ 32)%Z.
Proof.
  intro Hc. unfold crcByte. apply crcShifts_range, byte_state_range, Hc.
Qed.

Lemma crcBytes_range (data : list byte) (c : Z) :
  (0 <= c < 2 ^ 32)%Z -> (0 <= fold_left crcByte data c < 2 ^ 32)%Z.
Proof.
  revert c. induction data as [|b data IH]; intros c Hc; [exact Hc|].
  cbn [fold_left]. apply IH, crcByte_range, Hc.
Qed.

(** The bytes that follow cannot bring two different registers together. *)
Lemma crcBytes_inj (data : list byte) (c d : Z) :
  (0 <= c < 2 ^ 32)%Z -> (0 <= d < 2 ^ 32)%Z ->
  fold_left crcByte data c = fold_left crcByte data d -> c = d.
Proof.
  revert c d. induction data as [|b data IH]; intros c d Hc Hd H; [exact H|].
  cbn [fold_left] in H.
  apply IH in H; [|apply crcByte_range; assumption|apply crcByte_range; assumption].
  unfold crcByte in H.
  apply crcShifts_inj in H; [|apply byte_state_range; assumption
                             |apply byte_state_range; assumption].
  exact (lxor_cancel_r _ _ _ H).
Qed.

(** X19. The checksum detects every change that is confined to one byte:
    two byte sequences that differ in exactly one position never have the
    same [_crc32]. *)
Theorem _crc32_detects_byte (before after : list byte) (b b' : byte) :
  b <> b' ->
  _crc32 (before ++ b :: after) <> _crc32 (before ++ b' :: after).
Proof.
  intros Hne H. apply Hne.
  rewrite !_crc32_bitwise in H. unfold crc32_bitwise in H.
  apply lxor_cancel_r in H.
  rewrite !fold_left_app in H. cbn [fold_left] in H.
  assert (Hu : (0 <= fold_left crcByte before 0xFFFFFFFF < 2 ^ 32)%Z)
    by (apply crcBytes_range; lia).
  set (u := fold_left crcByte before 0xFFFFFFFF%Z) in *.
  apply crcBytes_inj in H; [|apply crcByte_range; exact Hu|apply crcByte_range; exact Hu].
  unfold crcByte in H.
  apply crcShifts_inj in H; [|apply byte_state_range; exact Hu
                             |apply byte_state_range; exact Hu].
  rewrite (Z.lxor_comm u), (Z.lxor_comm u (Z_of_byte b')) in H.
  apply lxor_cancel_r in H.
  rewrite <- (byte_of_Z_of_byte b), <- (byte_of_Z_of_byte b'), H. reflexivity.
Qed.

(** ** Exporting in one file and in two: further properties *)

Lemma remapped_app (s : Q) (triangles1 triangles2 : list Triangle) :
  map z (flatten (map (mapTriangle (remap s)) (triangles1 ++ triangles2)))
  = map z (flatten (map (mapTriangle (remap s)) triangles1))
    ++ map z (flatten (map (mapTriangle (remap s)) triangles2)).
Proof.
  unfold flatten. rewrite map_app, flat_map_app, map_app. reflexivity.
Qed.

Lemma lifted_teq (s m m' d : Q) (tri : Triangle) :
  d == m' - m ->
  teq (mapTriangle (fun v => moveZ (- m + (5 # 2)) (remap s v)) tri)
      (mapTriangle (moveZ d)
         (mapTriangle (fun v => moveZ (- m' + (5 # 2)) (remap s v)) tri)).
Proof.
  intro Hd. unfold teq, veq, mapTriangle, moveZ, remap; cbn [v1 v2 v3 x y z].
  rewrite Hd. repeat split; ring.
Qed.

Lemma lifted_part (s m m' d : Q) (triangles : list Triangle) :
  d == m' - m ->
  Forall2 teq
    (map (mapTriangle (fun v => moveZ (- m + (5 # 2)) (remap s v))) triangles)
    (map (mapTriangle (moveZ d))
         (map (mapTriangle (fun v => moveZ (- m' + (5 # 2)) (remap s v))) triangles)).
Proof.
  intro Hd. induction triangles as [|tri triangles IH]; [constructor|].
  cbn [map]. constructor; [apply lifted_teq; exact Hd|exact IH].
Qed.


Section ExportMore.

Context {RK : RenderKit} {PF : Platform}.

Lemma collectTriangles_concat (meshes1 meshes2 : list Mesh)
    (triangles1 triangles2 : list Triangle) (skipped1 skipped2 : nat) :
  collectTriangles meshes1 = Ok (triangles1, skipped1) ->
  collectTriangles meshes2 = Ok (triangles2, skipped2) ->
  collectTriangles (meshes1 ++ meshes2)
  = Ok (triangles1 ++ triangles2, (skipped1 + skipped2)%nat).
Proof.
  intros H1 H2. unfold collectTriangles at 1. rewrite foldM_app.
  fold (collectTriangles meshes1). rewrite H1. cbn [bind].
  rewrite collectTriangles_from, H2. reflexivity.
Qed.

(** X21. With [separateBase] false, the one file that [exportCharacter]
    hands over holds the triangles of the character meshes followed by
    those of the base meshes, moved to the ground plane together; its name
    is the file name with ".stl". *)
Theorem exportCharacter_single_file (options : ExportOptions) (ck : CKType) :
  options.(separateBase) = Some false ->
  let name := match options.(filename) with
              | Some f => f
              | None => "heroforge-character"%string
              end in
  let s := match options.(scale) with Some s => s | None => 10 end in
  let chars := characterMeshes (collectMeshes ck) in
  let bases := baseMeshes (collectMeshes ck) in
  exists charT baseT n1 n2,
    collectTriangles chars = Ok (charT, n1) /\
    collectTriangles bases = Ok (baseT, n2) /\
    exportCharacter options (Some ck) =
    Ok (if ((List.length chars =? 0) && (List.length bases =? 0))%nat then None
        else Some (mkDownload
                     (stlFile (transformOwned (charT ++ baseT) s) "HeroForge Export")
                     (name ++ ".stl"))).
Proof.
  intro Hsep. cbv zeta.
  destruct (collectMeshes_extractable ck) as [Hc Hb].
  destruct (collectTriangles_ok _ Hc) as (charT & n1 & HcT).
  destruct (collectTriangles_ok _ Hb) as (baseT & n2 & HbT).
  exists charT, baseT, n1, n2.
  split; [exact HcT|]. split; [exact HbT|].
  pose proof (collectTriangles_concat _ _ _ _ _ _ HcT HbT) as HaT.
  unfold exportCharacter. rewrite Hsep.
  destruct (collectMeshes ck) as [chars bases]. cbn [characterMeshes baseMeshes] in *.
  destruct ((List.length chars =? 0) && (List.length bases =? 0))%nat; [reflexivity|].
  cbn [andb]. rewrite HaT. cbn [bind].
  rewrite trianglesToSTL_file. reflexivity.
Qed.

End ExportMore.

(** ** The blend of the bones, and position buffers without index *)

Section BlendFacts.

Context {RK : RenderKit}.

(** The skinning loop adds, to the state it starts from, the transformed
    vertex of every influence that counts, with its weight. *)
Lemma blend_loop (skel : Skeleton) (skinVert : Vec3) (l : list (Z * Q)) :
  forall (skinned : Vec3) (skinSum : Q),
    let active := filter (fun p => Qltb (1 # 10000) (snd p)) l in
    let total :=
      weightedSum
        (map (fun p => (applyMatrix4 skinVert (skinMatrix skel (fst p)), snd p)) active) in
    exists skinned' skinSum',
      foldM (fun st '(boneIdx, weight) => accumulate skel skinVert boneIdx weight st)
            l (skinned, skinSum) = Ok (skinned', skinSum') /\
      skinSum' == skinSum + Qsum (map snd active) /\
      veq skinned'
          (mkVertex (skinned.(x) + total.(x)) (skinned.(y) + total.(y))
                    (skinned.(z) + total.(z))).
Proof.
  induction l as [|[b w] l IH]; intros skinned skinSum; cbv zeta.
  - exists skinned, skinSum. split; [reflexivity|].
    cbn. unfold veq; cbn [x y z]. repeat split; ring.
  - cbn [foldM filter snd]. unfold accumulate at 1.
    destruct (Qltb (1 # 10000) w) eqn:E.
    + rewrite getBoneMatrix_cases. cbn [bind].
      fold (skinMatrix skel b).
      destruct (IH (addScaledVector skinned (applyMatrix4 skinVert (skinMatrix skel b)) w)
                   (skinSum + w)) as (sk' & s' & Hrun & Hs & Hx & Hy & Hz).
      cbv zeta in Hs, Hx, Hy, Hz. cbn [x y z addScaledVector] in Hx, Hy, Hz.
      exists sk', s'. split; [exact Hrun|].
      cbn [map fst snd weightedSum fold_right Qsum].
      fold (weightedSum
              (map (fun p => (applyMatrix4 skinVert (skinMatrix skel (fst p)), snd p))
                   (filter (fun p => Qltb (1 # 10000) (snd p)) l))).
      fold (Qsum (map snd (filter (fun p => Qltb (1 # 10000) (snd p)) l))).
      split; [rewrite Hs; ring|].
      unfold veq, addScaledVector; cbn [x y z].
      rewrite Hx, Hy, Hz. repeat split; ring.
    + cbn [bind]. exact (IH skinned skinSum).
Qed.

Lemma active_weights_sum (l : list Q) :
  Forall (fun w => 1 # 10000 < w) l -> l <> [] -> 1 # 10000 < Qsum l.
Proof.
  induction 1 as [|w l Hw Hl IH]; intro Hne; [congruence|].
  cbn [Qsum fold_right]. fold (Qsum l).
  destruct l as [|w' l'].
  - cbn. lra.
  - assert (1 # 10000 < Qsum (w' :: l')) by (apply IH; discriminate). lra.
Qed.


Lemma filter_all {A : Type} (P : A -> bool) (l : list A) :
  (forall a, In a l -> P a = true) -> filter P l = l.
Proof.
  induction l as [|a l IH]; intro H; [reflexivity|].
  cbn [filter]. rewrite (H a (or_introl eq_refl)), IH; [reflexivity|].
  intros b Hb. apply H. right. exact Hb.
Qed.

Lemma filter_none {A : Type} (P : A -> bool) (l : list A) :
  (forall a, In a l -> P a = false) -> filter P l = [].
Proof.
  induction l as [|a l IH]; intro H; [reflexivity|].
  cbn [filter]. rewrite (H a (or_introl eq_refl)). apply IH.
  intros b Hb. apply H. right. exact Hb.
Qed.

(** The start indices of the loop over a position buffer without index:
    [i = 0, 3, 6, ...] while [i < positions.length / 3]. *)
Lemma groups_of (n : nat) :
  filter (fun i => (3 * i <? Z.of_nat n)%Z) (byThree n)
  = map (fun k => (3 * Z.of_nat k)%Z) (seq 0 ((n + 8) / 9)).
Proof.
  unfold byThree.
  pose proof (Nat.div_mod_eq (n + 8) 9) as H9.
  pose proof (Nat.mod_upper_bound (n + 8) 9 ltac:(lia)) as M9.
  pose proof (Nat.div_mod_eq (n + 2) 3) as H3.
  pose proof (Nat.mod_upper_bound (n + 2) 3 ltac:(lia)) as M3.
  set (c := ((n + 8) / 9)%nat) in *. set (m := ((n + 2) / 3)%nat) in *.
  replace m with (c + (m - c))%nat by lia.
  rewrite seq_app, map_app, filter_app.
  rewrite filter_all, filter_none; [apply app_nil_r| |].
  - intros i Hi. apply in_map_iff in Hi. destruct Hi as (k & <- & Hk).
    apply in_seq in Hk. apply Z.ltb_ge. lia.
  - intros i Hi. apply in_map_iff in Hi. destruct Hi as (k & <- & Hk).
    apply in_seq in Hk. apply Z.ltb_lt. lia.
Qed.

(** X23. A position buffer without index whose length is no multiple of 9
    ends in an incomplete group of three vertices.  It raises no error: the
    incomplete group is one more skipped triangle, and the groups before it
    are treated as if the buffer ended with them. *)
Theorem addGeometry_incomplete_group (coordinates : list Q)
    (st : list Triangle * nat) :
  (List.length coordinates mod 9 <> 0)%nat ->
  addGeometry (mkExtractedGeometry coordinates None) st =
  (let '(triangles, skipped) :=
     addGeometry
       (mkExtractedGeometry
          (firstn (9 * (List.length coordinates / 9)) coordinates) None) st in
   (triangles, S skipped)).
Proof.
  intro Hr.
  set (q := (List.length coordinates / 9)%nat).
  pose proof (Nat.div_mod_eq (List.length coordinates) 9) as Hlen. fold q in Hlen.
  pose proof (Nat.mod_upper_bound (List.length coordinates) 9 ltac:(lia)) as Hm.
  rewrite !addGeometry_keep. unfold candidates. cbn [indices positions].
  assert (Hfirst : List.length (firstn (9 * q) coordinates) = (9 * q)%nat)
    by (rewrite length_firstn; lia).
  rewrite Hfirst, !groups_of.
  replace ((List.length coordinates + 8) / 9)%nat with (S q)
    by (apply (Nat.div_unique _ 9 (S q) (List.length coordinates mod 9 - 1)); lia).
  replace ((9 * q + 8) / 9)%nat with q by (apply (Nat.div_unique _ 9 q 8); lia).
  rewrite seq_S, !map_app, keep_app. cbn [map Nat.add].
  assert (H2 :
    map (fun i => (getVertex coordinates (Some i),
                   getVertex coordinates (Some (i + 1)%Z),
                   getVertex coordinates (Some (i + 2)%Z)))
        (map (fun k => (3 * Z.of_nat k)%Z) (seq 0 q))
    = map (fun i => (getVertex (firstn (9 * q) coordinates) (Some i),
                     getVertex (firstn (9 * q) coordinates) (Some (i + 1)%Z),
                     getVertex (firstn (9 * q) coordinates) (Some (i + 2)%Z)))
          (map (fun k => (3 * Z.of_nat k)%Z) (seq 0 q))).
  { apply map_ext_in. intros i Hi.
    apply in_map_iff in Hi. destruct Hi as (k & <- & Hk).
    apply in_seq in Hk. unfold getVertex.
    rewrite !js_get_firstn by lia. reflexivity. }
  rewrite H2.
  destruct (keep _ st) as [triangles skipped].
  rewrite keep_cons, keep_nil. cbn [fst snd].
  assert (Hlast : js_get coordinates ((3 * Z.of_nat q + 2) * 3 + 2) = None)
    by (apply js_get_out; lia).
  assert (Hbad : isValidVertex (getVertex coordinates (Some (3 * Z.of_nat q + 2)%Z))
                 = false).
  { unfold isValidVertex, getVertex. cbn [raw_x raw_y raw_z].
    rewrite Hlast. cbn [abs_lt]. apply andb_false_r. }
  unfold validCandidate. rewrite Hbad, andb_false_r. reflexivity.
Qed.

End BlendFacts.


Lemma addGeometry_incomplete_group_witness :
  addGeometry
    (mkExtractedGeometry [0; 0; 0;  1; 0; 0;  0; 1; 0;  0; 0; 1] None) ([], 0%nat)
  = ([mkTriangle (mkVertex 0 0 0) (mkVertex 1 0 0) (mkVertex 0 1 0)], 1%nat).
Proof.
  refine (eq_trans
            (addGeometry_incomplete_group
               [0; 0; 0;  1; 0; 0;  0; 1; 0;  0; 0; 1] ([], 0%nat) _) _).
  - cbn. discriminate.
  - vm_compute. reflexivity.
Defined.

(** ** The further properties on the example data *)

Lemma skinVertex_unskinned_witness :
  skinVertexWithPosition Pedestal 0 1 2 3
  = Ok (applyMatrix4 (mkVertex 1 2 3) Three.identity).
Proof.
  apply (skinVertex_unskinned Pedestal 0 1 2 3). left. reflexivity.
Defined.

Lemma skinVertex_no_influence_witness :
  skinVertexWithPosition restMesh 0 1 2 3 = Ok (mkVertex 1 2 3).
Proof.
  apply (skinVertex_no_influence restMesh restGeometry oneBone 0 1 2 3).
  - reflexivity.
  - reflexivity.
  - discriminate.
  - repeat constructor; vm_compute; discriminate.
Defined.


Lemma extractMeshGeometry_rigid_witness :
  extractMeshGeometry Pedestal
  = Ok (mkExtractedGeometry [0; 0; 0;  0; 0; 0;  0; 0; 0] None).
Proof.
  refine (eq_trans
            (extractMeshGeometry_rigid Pedestal plainGeometry (flatAttr 0 0 0 0)
               eq_refl eq_refl _ _) _).
  - left. reflexivity.
  - constructor.
  - vm_compute. reflexivity.
Defined.

Lemma addGeometry_incomplete_triple_witness :
  addGeometry
    (mkExtractedGeometry [0; 0; 0;  1; 0; 0;  0; 1; 0] (Some [0; 1; 2; 0]%Z))
    ([], 0%nat)
  = ([mkTriangle (mkVertex 0 0 0) (mkVertex 1 0 0) (mkVertex 0 1 0)], 1%nat).
Proof.
  refine (eq_trans
            (addGeometry_incomplete_triple [0; 0; 0;  1; 0; 0;  0; 1; 0]
               [0; 1; 2; 0]%Z ([], 0%nat) _) _).
  - cbn. discriminate.
  - vm_compute. reflexivity.
Defined.



Lemma _crc32_detects_byte_witness :
  _crc32 [x01; x02; x03] <> _crc32 [x01; x7f; x03].
Proof.
  apply (_crc32_detects_byte [x01] [x03] x02 x7f). discriminate.
Defined.


Lemma exportCharacter_single_file_witness :
  exists charT baseT n1 n2,
    collectTriangles [Torso] = Ok (charT, n1) /\
    collectTriangles [Pedestal] = Ok (baseT, n2) /\
    exportCharacter (heroOptions false) (Some scenario)
    = Ok (Some (mkDownload (stlFile (transformOwned (charT ++ baseT) 1)
                                    "HeroForge Export")
                           "hero.stl")).
Proof.
  exact (exportCharacter_single_file (heroOptions false) scenario eq_refl).
Defined.
